(** * jobbee-api: the query filter builder (utils/apiFilters.js)

    A shallow embedding of the [APIFilters] class and of the JavaScript
    built-ins it calls ([JSON.stringify], [String.prototype.replace] with
    the operator regular expression, [JSON.parse], [split]/[join],
    [parseInt]), followed by the properties of the five stage methods.
    The listing controllers that call the builder, the authentication and
    role middlewares with the route tables, and the loop that removes the
    applications of a deleted user are embedded after it. *)

From Stdlib Require Import ZArith NArith Ascii String List Lia Bool.
From Stdlib Require Import Floats.SpecFloat.
From stdpp Require Import base option list gmap.

Local Open Scope N_scope.

(** ** JavaScript strings

    A JavaScript string is a sequence of UTF-16 code units.  A code unit is
    a number below 65536; the functions below never need the bound. *)

Abbreviation jstring := (list N).

(** Literals are written as Rocq strings and read as code units. *)
Definition js (s : string) : jstring :=
  map N_of_ascii (list_ascii_of_string s).

Definition dquote : N := 34.
Definition backslash : N := 92.
Definition dollar : N := 36.
Definition comma : N := 44.
Definition colon : N := 58.
Definition hyphen : N := 45.
Definition space : N := 32.
Definition lbracket : N := 91.
Definition rbracket : N := 93.
Definition lbrace : N := 123.
Definition rbrace : N := 125.

(** The regular-expression class [\w] without the unicode and ignore-case
    flags: [A-Za-z0-9_]. *)
Definition is_word (c : N) : bool :=
  ((48 <=? c) && (c <=? 57)) || ((65 <=? c) && (c <=? 90))
  || (c =? 95) || ((97 <=? c) && (c <=? 122)).

(** ** The operator regular expression

    [/\b(gt|gte|lt|lte|in)\b/g], with the alternatives in source order. *)

Definition operators : list jstring :=
  [js "gt"; js "gte"; js "lt"; js "lte"; js "in"].

Definition is_word_at (o : option N) : bool :=
  match o with Some c => is_word c | None => false end.

(** The assertion [\b] between the code unit before the position (none at
    the start of the input) and the one after it (none at the end). *)
Definition word_boundary (before after : option N) : bool :=
  xorb (is_word_at before) (is_word_at after).

Fixpoint strip_prefix (p s : jstring) : option jstring :=
  match p, s with
  | [], _ => Some s
  | a :: p', c :: s' => if a =? c then strip_prefix p' s' else None
  | _ :: _, [] => None
  end.

(** One alternative: its literal characters, then the closing [\b]. *)
Definition match_alt (s : jstring) (tok : jstring) : option (jstring * jstring) :=
  match strip_prefix tok s with
  | Some rest =>
      if word_boundary (last tok) (head rest) then Some (tok, rest) else None
  | None => None
  end.

Fixpoint first_alt (s : jstring) (alts : list jstring) : option (jstring * jstring) :=
  match alts with
  | [] => None
  | tok :: alts' =>
      match match_alt s tok with
      | Some r => Some r
      | None => first_alt s alts'
      end
  end.

(** An attempt to match the whole expression at one position: the opening
    [\b], then the first alternative that succeeds (a failing closing [\b]
    makes the matcher backtrack into the next alternative).  The result is
    the matched text and the input after it. *)
Definition match_here (before : option N) (s : jstring) : option (jstring * jstring) :=
  if word_boundary before (head s) then first_alt s operators else None.

(** The replacement callback [match => `$${match}`]. *)
Definition prefix_sigil (m : jstring) : jstring := dollar :: m.

(** [String.prototype.replace] with a global expression: at each position
    from left to right try a match; a match is replaced by the callback's
    result and the scan resumes after it, any other code unit is copied. *)
Fixpoint replace_all (fuel : nat) (before : option N) (s : jstring) : jstring :=
  match fuel with
  | O => s
  | S fuel' =>
      match match_here before s with
      | Some (m, rest) => prefix_sigil m ++ replace_all fuel' (last m) rest
      | None =>
          match s with
          | [] => []
          | c :: s' => c :: replace_all fuel' (Some c) s'
          end
      end
  end.

Definition replace_operators (s : jstring) : jstring :=
  replace_all (S (length s)) None s.

(** *** A position-wise reading of the replacement

    [sigils before s] copies [s] and writes the sigil in front of every
    position where the expression matches.  It is the form the proofs use;
    [replace_operators_sigils] shows it is the replacement above. *)
Fixpoint sigils (before : option N) (s : jstring) : jstring :=
  match s with
  | [] => []
  | c :: s' =>
      match match_here before s with
      | Some _ => dollar :: c :: sigils (Some c) s'
      | None => c :: sigils (Some c) s'
      end
  end.

(** The longest prefix of word characters. *)
Fixpoint word_prefix (s : jstring) : jstring :=
  match s with
  | [] => []
  | c :: s' => if is_word c then c :: word_prefix s' else []
  end.

Definition is_operator (w : jstring) : bool := bool_decide (w ∈ operators).

(** The expression matches at a position ([match_here_spec]). *)
Definition matches (before : option N) (s : jstring) : bool :=
  negb (is_word_at before) && is_operator (word_prefix s).

(** The text without the sigils that stand in front of an operator word:
    the inverse of the replacement ([unsigil_sigils]). *)
Fixpoint unsigil (s : jstring) : jstring :=
  match s with
  | [] => []
  | c :: s' =>
      if (c =? dollar) && is_operator (word_prefix s') then unsigil s'
      else c :: unsigil s'
  end.

(** ** JSON text of a string: [QuoteJSONString]

    Surrogate code units: a leading one followed by a trailing one is a
    pair (one code point) and is copied; any other surrogate is lone and is
    written as a [\u] escape. *)

Definition is_high (c : N) : bool := (55296 <=? c) && (c <=? 56319).
Definition is_low (c : N) : bool := (56320 <=? c) && (c <=? 57343).

Definition hex_digit (d : N) : N := if d <? 10 then 48 + d else 87 + d.

(** [\uXXXX] with lower-case digits. *)
Definition unicode_escape (c : N) : jstring :=
  [backslash; 117; hex_digit (c / 4096 mod 16); hex_digit (c / 256 mod 16);
   hex_digit (c / 16 mod 16); hex_digit (c mod 16)].

(** The text of one code unit that is not the first half of a pair. *)
Definition escape_unit (c : N) : jstring :=
  if c =? 8 then [backslash; 98]
  else if c =? 9 then [backslash; 116]
  else if c =? 10 then [backslash; 110]
  else if c =? 12 then [backslash; 102]
  else if c =? 13 then [backslash; 114]
  else if c =? dquote then [backslash; dquote]
  else if c =? backslash then [backslash; backslash]
  else if (c <? 32) || is_high c || is_low c then unicode_escape c
  else [c].

Fixpoint escape (s : jstring) : jstring :=
  match s with
  | [] => []
  | c :: s' =>
      if is_high c then
        match s' with
        | c2 :: s'' =>
            if is_low c2 then c :: c2 :: escape s''
            else escape_unit c ++ escape s'
        | [] => escape_unit c
        end
      else escape_unit c ++ escape s'
  end.

Definition quote (s : jstring) : jstring := dquote :: escape s ++ [dquote].

Definition starts_low (s : jstring) : bool :=
  match s with c :: _ => is_low c | [] => false end.

(** [c] followed by [s] starts with a surrogate pair. *)
Definition pair_head (c : N) (s : jstring) : bool :=
  is_high c && starts_low s.

(** A code unit that [JSON.stringify] copies as it is, wherever it
    stands. *)
Definition is_plain (c : N) : bool :=
  (32 <=? c) && negb (c =? dquote) && negb (c =? backslash)
  && negb (is_high c) && negb (is_low c).

(** ** Values

    What a parsed query string holds, and what [JSON.parse] gives back for
    its serialization: strings, arrays and objects.  An object is the list
    of its own properties in enumeration order; its keys are distinct
    ([wf_value]).  Enumeration puts integer-like keys first; the order is
    only what [JSON.stringify] writes and plays no part below. *)

#[local] Unset Elimination Schemes.
Inductive jsval :=
  | JStr (s : jstring)
  | JArr (l : list jsval)
  | JObj (o : list (jstring * jsval)).
#[local] Set Elimination Schemes.

Abbreviation object := (list (jstring * jsval)).

Fixpoint obj_get (o : object) (k : jstring) : option jsval :=
  match o with
  | [] => None
  | (k', v) :: o' => if bool_decide (k' = k) then Some v else obj_get o' k
  end.

(** [delete o[k]]. *)
Fixpoint obj_delete (o : object) (k : jstring) : object :=
  match o with
  | [] => []
  | (k', v) :: o' =>
      if bool_decide (k' = k) then obj_delete o' k else (k', v) :: obj_delete o' k
  end.

(** [o[k] = v]: an existing property keeps its place, a new one goes last. *)
Fixpoint obj_set (o : object) (k : jstring) (v : jsval) : object :=
  match o with
  | [] => [(k, v)]
  | (k', v') :: o' =>
      if bool_decide (k' = k) then (k, v) :: o' else (k', v') :: obj_set o' k v
  end.

Fixpoint wf_value (v : jsval) : Prop :=
  match v with
  | JStr _ => True
  | JArr l => (fix all (l : list jsval) : Prop :=
                 match l with [] => True | x :: l' => wf_value x ∧ all l' end) l
  | JObj o =>
      NoDup (map fst o) ∧
      (fix all (o : object) : Prop :=
         match o with [] => True | (_, x) :: o' => wf_value x ∧ all o' end) o
  end.

(** The object that a sequence of property definitions builds. *)
Definition obj_of_list (l : list (jstring * jsval)) : object :=
  foldl (λ acc kv, obj_set acc kv.1 kv.2) [] l.

(** A value with every object rebuilt from its list of properties; a value
    whose keys are distinct is not changed ([normalize_wf]). *)
Fixpoint normalize (v : jsval) : jsval :=
  match v with
  | JStr s => JStr s
  | JArr l => JArr (map normalize l)
  | JObj o => JObj (obj_of_list (map (λ kv, (kv.1, normalize kv.2)) o))
  end.

(** A bound on the nesting of parser calls that reading a value back
    takes. *)
Fixpoint nodes (v : jsval) : nat :=
  match v with
  | JStr _ => 1
  | JArr l => S (list_sum (map (λ x, S (nodes x)) l))
  | JObj o => S (list_sum (map (λ kv, S (nodes kv.2)) o))
  end.

(** Every key and every string of a value rewritten by [f]. *)
Fixpoint map_strings (f : jstring → jstring) (v : jsval) : jsval :=
  match v with
  | JStr s => JStr (f s)
  | JArr l => JArr (map (map_strings f) l)
  | JObj o => JObj (map (λ kv, (f kv.1, map_strings f kv.2)) o)
  end.

(** The keys that occur anywhere in a value. *)
Fixpoint keys_of (v : jsval) : list jstring :=
  match v with
  | JStr _ => []
  | JArr l => concat (map keys_of l)
  | JObj o => concat (map (λ kv, kv.1 :: keys_of kv.2) o)
  end.

(** [Array.prototype.join]. *)
Fixpoint join_with (sep : jstring) (parts : list jstring) : jstring :=
  match parts with
  | [] => []
  | [p] => p
  | p :: rest => p ++ sep ++ join_with sep rest
  end.

(** [String.prototype.split] for a separator of one code unit, as in every
    call of the source.  The result is never empty: the empty string splits
    into one empty part. *)
Fixpoint split (sep : N) (s : jstring) : list jstring :=
  match s with
  | [] => [[]]
  | c :: s' =>
      if c =? sep then [] :: split sep s'
      else match split sep s' with
           | p :: ps => (c :: p) :: ps
           | [] => [[c]]
           end
  end.

Module JSON.

(** [JSON.stringify] (no indentation, no replacer). *)
Fixpoint stringify (v : jsval) : jstring :=
  match v with
  | JStr s => quote s
  | JArr l => lbracket :: join_with [comma] (map stringify l) ++ [rbracket]
  | JObj o =>
      lbrace ::
      join_with [comma] (map (λ kv, quote kv.1 ++ colon :: stringify kv.2) o)
      ++ [rbrace]
  end.

Definition is_ws (c : N) : bool :=
  (c =? 9) || (c =? 10) || (c =? 13) || (c =? 32).

Fixpoint skip_ws (s : jstring) : jstring :=
  match s with
  | c :: s' => if is_ws c then skip_ws s' else s
  | [] => []
  end.

Definition hex_value (c : N) : option N :=
  if (48 <=? c) && (c <=? 57) then Some (c - 48)
  else if (97 <=? c) && (c <=? 102) then Some (c - 87)
  else if (65 <=? c) && (c <=? 70) then Some (c - 55)
  else None.

Definition hex4 (h1 h2 h3 h4 : N) : option N :=
  match hex_value h1, hex_value h2, hex_value h3, hex_value h4 with
  | Some a, Some b, Some c, Some d => Some (4096 * a + 256 * b + 16 * c + d)
  | _, _, _, _ => None
  end.

(** The one-letter escapes of the JSON grammar. *)
Definition unescape_char (e : N) : option N :=
  if e =? dquote then Some dquote
  else if e =? backslash then Some backslash
  else if e =? 47 then Some 47
  else if e =? 98 then Some 8
  else if e =? 102 then Some 12
  else if e =? 110 then Some 10
  else if e =? 114 then Some 13
  else if e =? 116 then Some 9
  else None.

(** The characters of a string literal after its opening quote, up to and
    including the closing quote; the rest of the input is returned. *)
Fixpoint parse_chars (s : jstring) : option (jstring * jstring) :=
  match s with
  | [] => None
  | c :: s1 =>
      if c =? dquote then Some ([], s1)
      else if c =? backslash then
        match s1 with
        | [] => None
        | e :: s2 =>
            if e =? 117 then
              match s2 with
              | h1 :: h2 :: h3 :: h4 :: s3 =>
                  match hex4 h1 h2 h3 h4 with
                  | Some u =>
                      match parse_chars s3 with
                      | Some (r, rest) => Some (u :: r, rest)
                      | None => None
                      end
                  | None => None
                  end
              | _ => None
              end
            else
              match unescape_char e with
              | Some u =>
                  match parse_chars s2 with
                  | Some (r, rest) => Some (u :: r, rest)
                  | None => None
                  end
              | None => None
              end
        end
      else if c <? 32 then None
      else
        match parse_chars s1 with
        | Some (r, rest) => Some (c :: r, rest)
        | None => None
        end
  end.

(** Recursive descent over the grammar of strings, arrays and objects.
    [None] is a [SyntaxError].  Numbers and the literals [true], [false]
    and [null] have no counterpart in [jsval]; a text that holds one is
    outside the model, and no text the builder parses does.  A repeated
    key keeps its first place and its last value, a new key goes last.
    The fuel bounds the number of nested calls; [parse] gives enough of
    it. *)
Fixpoint parse_value (fuel : nat) (s : jstring) : option (jsval * jstring) :=
  match fuel with
  | O => None
  | S fuel' =>
      match skip_ws s with
      | [] => None
      | c :: s1 =>
          if c =? dquote then
            match parse_chars s1 with
            | Some (str, rest) => Some (JStr str, rest)
            | None => None
            end
          else if c =? lbracket then
            match skip_ws s1 with
            | [] => None
            | c2 :: s2 =>
                if c2 =? rbracket then Some (JArr [], s2)
                else parse_elements fuel' (c2 :: s2) []
            end
          else if c =? lbrace then
            match skip_ws s1 with
            | [] => None
            | c2 :: s2 =>
                if c2 =? rbrace then Some (JObj [], s2)
                else parse_members fuel' (c2 :: s2) []
            end
          else None
      end
  end
with parse_elements (fuel : nat) (s : jstring) (acc : list jsval)
    : option (jsval * jstring) :=
  match fuel with
  | O => None
  | S fuel' =>
      match parse_value fuel' s with
      | None => None
      | Some (v, rest) =>
          match skip_ws rest with
          | [] => None
          | c :: rest' =>
              if c =? comma then parse_elements fuel' rest' (acc ++ [v])
              else if c =? rbracket then Some (JArr (acc ++ [v]), rest')
              else None
          end
      end
  end
with parse_members (fuel : nat) (s : jstring) (acc : object)
    : option (jsval * jstring) :=
  match fuel with
  | O => None
  | S fuel' =>
      match skip_ws s with
      | [] => None
      | c :: s1 =>
          if c =? dquote then
            match parse_chars s1 with
            | None => None
            | Some (k, s2) =>
                match skip_ws s2 with
                | [] => None
                | c2 :: s3 =>
                    if c2 =? colon then
                      match parse_value fuel' s3 with
                      | None => None
                      | Some (v, rest) =>
                          match skip_ws rest with
                          | [] => None
                          | c3 :: rest' =>
                              if c3 =? comma then
                                parse_members fuel' rest' (obj_set acc k v)
                              else if c3 =? rbrace then
                                Some (JObj (obj_set acc k v), rest')
                              else None
                          end
                      end
                    else None
                end
            end
          else None
      end
  end.

(** [JSON.parse] (no reviver). *)
Definition parse (text : jstring) : option jsval :=
  match parse_value (S (length text)) text with
  | Some (v, rest) =>
      match skip_ws rest with
      | [] => Some v
      | _ :: _ => None
      end
  | None => None
  end.

End JSON.

(** What the operator rewrite does to one string or key: the string is
    serialized, the replacement runs over the text, and the text is read
    back. *)
Definition rewrite_string (s : jstring) : jstring :=
  match JSON.parse (replace_operators (JSON.stringify (JStr s))) with
  | Some (JStr r) => r
  | _ => s
  end.

(** The three shapes of the text of one unit. *)
Inductive unit_shape (c : N) : jstring → Prop :=
  | shape_plain :
      32 ≤ c → c ≠ dquote → c ≠ backslash →
      is_high c = false → is_low c = false →
      unit_shape c [c]
  | shape_short e :
      JSON.unescape_char e = Some c → e ≠ 117 → is_word c = false →
      c ≠ dollar → e ≠ dollar → e ≠ 103 → e ≠ 108 → e ≠ 105 →
      unit_shape c [backslash; e]
  | shape_unicode :
      c < 65536 → is_word c = false → c ≠ dollar →
      unit_shape c (unicode_escape c).

(** ** Conversions and [parseInt] *)

Inductive error :=
  | TypeError
  | SyntaxError.

(** How an evaluation ends: with an exception or with a value. *)
Inductive outcome (A : Type) :=
  | Throws (e : error)
  | Returns (a : A).
Arguments Throws {A} e.
Arguments Returns {A} a.

(** [ToString] of a property value.  An array joins the strings of its
    elements with commas.  An object that inherits [Object.prototype.toString]
    gives ["[object Object]"]; one with an own property named [toString]
    (never a function here) has no usable conversion, and [ToPrimitive]
    throws a [TypeError]. *)
Fixpoint to_string (v : jsval) : outcome jstring :=
  match v with
  | JStr s => Returns s
  | JArr l =>
      match
        (fix each (l : list jsval) : outcome (list jstring) :=
           match l with
           | [] => Returns []
           | x :: l' =>
               match to_string x with
               | Throws e => Throws e
               | Returns s =>
                   match each l' with
                   | Throws e => Throws e
                   | Returns ss => Returns (s :: ss)
                   end
               end
           end) l
      with
      | Throws e => Throws e
      | Returns ss => Returns (join_with [comma] ss)
      end
  | JObj o =>
      match obj_get o (js "toString") with
      | Some _ => Throws TypeError
      | None => Returns (js "[object Object]")
      end
  end.

(** [ToString] of the result of a property read: a missing property reads
    as [undefined]. *)
Definition to_string_prop (p : option jsval) : outcome jstring :=
  match p with
  | None => Returns (js "undefined")
  | Some v => to_string v
  end.

(** [ToBoolean] of the result of a property read: [undefined] and the empty
    string are false, every other string and every array or object is
    true. *)
Definition truthy (p : option jsval) : bool :=
  match p with
  | None => false
  | Some (JStr []) => false
  | Some _ => true
  end.

(** The numbers that [parseInt] and the arithmetic of [pagination] produce.
    A JavaScript number is a double (IEEE 754 binary64).  Every number met
    here is [NaN], an infinity, negative zero, or a finite double whose
    value is an integer [z] ([Int z], with [Int 0] for positive zero): the
    result of [parseInt] is one of these, and so are the difference and
    the product of two of them. *)
Inductive number :=
  | NaN
  | Infinity (negative : bool)
  | NegZero
  | Int (z : Z).

(** The double nearest to the integer [z].  Below 2^53 in magnitude the
    integer is a double.  From there on the 53 leading bits are kept and
    the [e] bits after them are rounded off, to the nearest and to the even
    significand when [z] lies half-way; a magnitude that reaches 2^1024 is
    infinite. *)
Definition round_double (z : Z) : number :=
  let n := Z.abs z in
  if (n <? 2 ^ 53)%Z then Int z
  else
    let e := (Z.log2 n - 52)%Z in
    let q := (n / 2 ^ e)%Z in
    let r := (n mod 2 ^ e)%Z in
    let half := (2 ^ (e - 1))%Z in
    let q' := if (half <? r)%Z || ((r =? half)%Z && Z.odd q)
              then (q + 1)%Z else q in
    let m := (q' * 2 ^ e)%Z in
    if (2 ^ 1024 <=? m)%Z then Infinity (z <? 0)%Z
    else Int (Z.sgn z * m).

(** The sign bit. *)
Definition sign_bit (x : number) : bool :=
  match x with
  | NaN => false
  | Infinity s => s
  | NegZero => true
  | Int z => (z <? 0)%Z
  end.

(** The value of a finite number. *)
Definition finite_value (x : number) : option Z :=
  match x with
  | Int z => Some z
  | NegZero => Some 0%Z
  | NaN | Infinity _ => None
  end.

(** [x * y]: the product is rounded; its sign is the exclusive or of the
    signs, also when it is zero; zero times infinity is [NaN]. *)
Definition mul (x y : number) : number :=
  match x, y with
  | NaN, _ | _, NaN => NaN
  | _, _ =>
      let s := xorb (sign_bit x) (sign_bit y) in
      match finite_value x, finite_value y with
      | Some a, Some b =>
          if (a * b =? 0)%Z then (if s then NegZero else Int 0)
          else round_double (a * b)
      | Some a, None | None, Some a =>
          if (a =? 0)%Z then NaN else Infinity s
      | None, None => Infinity s
      end
  end.

(** [x - y]: the difference is rounded; a difference of zero is positive
    zero, but for negative zero minus positive zero; an infinity minus
    itself is [NaN]. *)
Definition sub (x y : number) : number :=
  match x, y with
  | NaN, _ | _, NaN => NaN
  | Infinity s1, Infinity s2 => if eqb s1 s2 then NaN else Infinity s1
  | Infinity s, _ => Infinity s
  | _, Infinity s => Infinity (negb s)
  | _, _ =>
      match finite_value x, finite_value y with
      | Some a, Some b =>
          if (a - b =? 0)%Z then
            match x, y with
            | NegZero, Int _ => NegZero
            | _, _ => Int 0
            end
          else round_double (a - b)
      | _, _ => NaN
      end
  end.

(** [StrWhiteSpaceChar]: white space and line terminators. *)
Definition is_str_whitespace (c : N) : bool :=
  ((9 <=? c) && (c <=? 13)) || (c =? 32) || (c =? 160) || (c =? 5760)
  || ((8192 <=? c) && (c <=? 8202)) || (c =? 8232) || (c =? 8233)
  || (c =? 8239) || (c =? 8287) || (c =? 12288) || (c =? 65279).

Fixpoint trim_start (s : jstring) : jstring :=
  match s with
  | c :: s' => if is_str_whitespace c then trim_start s' else s
  | [] => []
  end.

Definition is_digit (c : N) : bool := (48 <=? c) && (c <=? 57).

(** The decimal digits at the start of [s], read with [acc] as the value
    of the digits before them; [None] when [s] does not start with a
    digit. *)
Fixpoint digits (acc : option Z) (s : jstring) : option Z :=
  match s with
  | c :: s' =>
      if is_digit c
      then digits (Some (10 * default 0%Z acc + Z.of_N (c - 48))%Z) s'
      else acc
  | [] => acc
  end.

(** [parseInt(string, 10)] on a string: leading white space, an optional
    sign, then the longest run of decimal digits; [NaN] when there is no
    digit.  With the radix given as 10 no [0x] prefix is recognised.  The
    result is the double nearest to the integer that the digits write, with
    the sign; minus zero when the sign is [-] and the integer is zero.
    (The language lets an engine approximate past the 20th significant
    digit; Node's engine rounds the whole integer correctly.) *)
Definition parseInt_string (s : jstring) : number :=
  let s := trim_start s in
  let '(sign, s) :=
    match s with
    | c :: s' =>
        if c =? 45 then ((-1)%Z, s')
        else if c =? 43 then (1%Z, s')
        else (1%Z, s)
    | [] => (1%Z, s)
    end in
  match digits None s with
  | Some n =>
      if (sign =? -1)%Z && (n =? 0)%Z then NegZero
      else round_double (sign * n)
  | None => NaN
  end.

(** [parseInt(p, 10)] on the result of a property read. *)
Definition parseInt (p : option jsval) : outcome number :=
  match to_string_prop p with
  | Throws e => Throws e
  | Returns s => Returns (parseInt_string s)
  end.

(** A string or an array of strings: the value of a parameter that the
    query string gives once or several times, without a nested key. *)
Definition is_flat (v : jsval) : bool :=
  match v with
  | JStr _ => true
  | JArr l => forallb (λ x, match x with JStr _ => true | _ => false end) l
  | JObj _ => false
  end.

(** [n || d] for a number [n] and a non-zero default [d]: [NaN] and both
    zeros are false. *)
Definition or_default (n : number) (d : Z) : number :=
  match n with
  | NaN | NegZero => Int d
  | Int z => if (z =? 0)%Z then Int d else Int z
  | Infinity s => Infinity s
  end.

(** [x.split(sep)] on the result of a property read that is known to be
    true: a string has the method; an array or an object has no callable
    [split], and the call throws a [TypeError]. *)
Definition split_prop (p : option jsval) (sep : N) : outcome (list jstring) :=
  match p with
  | Some (JStr s) => Returns (split sep s)
  | _ => Throws TypeError
  end.

(** ** The store

    The request's parameter object is shared between the caller and the
    builder, which holds a reference to it.  The store maps references to
    objects.  The values of the properties are kept as immutable trees: no
    method writes into a nested value. *)

Abbreviation loc := positive.
Abbreviation store := (gmap positive object).

(** Computations that read and write the store and may throw. *)
Definition M (A : Type) : Type := store → store * (outcome A).

Definition throw {A} (e : error) : M A := λ σ, (σ, Throws e).
Definition lift {A} (r : outcome A) : M A := λ σ, (σ, r).

#[export] Instance M_ret : MRet M := λ A a σ, (σ, Returns a).
#[export] Instance M_bind : MBind M := λ A B k m σ,
  match m σ with
  | (σ', Returns a) => k a σ'
  | (σ', Throws e) => (σ', Throws e)
  end.

(** [ref.key]: a property read.  A reference that is not in the store
    stands for [undefined], and reading a property of it throws. *)
Definition get_prop (r : loc) (k : jstring) : M (option jsval) :=
  λ σ, match σ !! r with
       | Some o => (σ, Returns (obj_get o k))
       | None => (σ, Throws TypeError)
       end.

(** [{...ref}]: a new object with the own properties of the old one.
    Spreading [undefined] gives an empty object. *)
Definition spread (r : loc) : M loc :=
  λ σ, let r' := fresh (dom σ) in
       (<[r' := default [] (σ !! r)]> σ, Returns r').

(** [delete ref[key]]. *)
Definition delete_prop (r : loc) (k : jstring) : M unit :=
  λ σ, match σ !! r with
       | Some o => (<[r := obj_delete o k]> σ, Returns tt)
       | None => (σ, Throws TypeError)
       end.

(** [JSON.stringify(ref)]. *)
Definition stringify_ref (r : loc) : M jstring :=
  λ σ, match σ !! r with
       | Some o => (σ, Returns (JSON.stringify (JObj o)))
       | None => (σ, Throws TypeError)
       end.

(** [keys.forEach(k => body k)]. *)
Fixpoint forEach {A} (l : list A) (body : A → M unit) : M unit :=
  match l with
  | [] => mret tt
  | x :: l' => body x ;; forEach l' body
  end.

(** ** The queryable handle

    The builder is handed a query object and only calls these five methods
    of it; each returns the query to continue with. *)
Module Query.
Class Handle (H : Type) := {
  find : H → jsval → H;
  sort : H → jstring → H;
  select : H → jstring → H;
  skip : H → number → H;
  limit : H → number → H
}.
End Query.

(** Modelled from the spec: the contract of the queryable handle, which is
    not part of the repository ("last write per stage wins, stages are
    independent").  For the sort stage: a sort directive replaces the one
    before it. *)
Class LastSortWins (H : Type) `{Query.Handle H} : Prop :=
  last_sort_wins : ∀ (h : H) (s1 s2 : jstring),
    Query.sort (Query.sort h s1) s2 = Query.sort h s2.

(** A handle that records what it is given: the predicates in call order,
    and the last sort, projection, skip and limit directive.  It meets
    [LastSortWins]. *)
Record SlotHandle := {
  predicates : list jsval;
  ordering : option jstring;
  projection : option jstring;
  offset : option number;
  count : option number
}.

Definition empty_handle : SlotHandle :=
  {| predicates := []; ordering := None; projection := None;
     offset := None; count := None |}.

#[export] Instance SlotHandle_query : Query.Handle SlotHandle := {
  find h p := {| predicates := predicates h ++ [p]; ordering := ordering h;
                 projection := projection h; offset := offset h;
                 count := count h |};
  sort h s := {| predicates := predicates h; ordering := Some s;
                 projection := projection h; offset := offset h;
                 count := count h |};
  select h s := {| predicates := predicates h; ordering := ordering h;
                   projection := Some s; offset := offset h;
                   count := count h |};
  skip h n := {| predicates := predicates h; ordering := ordering h;
                 projection := projection h; offset := Some n;
                 count := count h |};
  limit h n := {| predicates := predicates h; ordering := ordering h;
                  projection := projection h; offset := offset h;
                  count := Some n |}
}.

(** ** The builder *)
Module APIFilters.
Section Builder.
Context {H : Type} `{Query.Handle H}.

(** The instance: [this.query] and [this.queryStr], the latter a
    reference to the caller's parameter object. *)
Record t := new { query : H; queryStr : loc }.

Definition set_query (b : t) (h : H) : t :=
  {| query := h; queryStr := queryStr b |}.

Definition removeFields : list jstring :=
  [js "sort"; js "fields"; js "q"; js "limit"; js "page"].

(** The properties of the parameter object that are left once the
    reserved ones are deleted ([foldl_obj_delete]). *)
Definition field_filters (q : object) : object :=
  base.filter (λ kv, kv.1 ∉ removeFields) q.

(** The text of the search phrase: the words between double quotes. *)
Definition search_phrase (qu : jstring) : jsval :=
  JObj [(js "$text", JObj [(js "$search", JStr ([dquote] ++ qu ++ [dquote]))])].

Definition filter (b : t) : M t :=
  (queryCopy ← spread (queryStr b);
   forEach removeFields (λ el, delete_prop queryCopy el);;
   text ← stringify_ref queryCopy;
   let text := replace_operators text in
   match JSON.parse text with
   | Some predicate => mret (set_query b (Query.find (query b) predicate))
   | None => throw SyntaxError
   end).

Definition sort (b : t) : M t :=
  (p ← get_prop (queryStr b) (js "sort");
   if truthy p then
     parts ← lift (split_prop p comma);
     let sortBy := join_with [space] parts in
     mret (set_query b (Query.sort (query b) sortBy))
   else
     mret (set_query b (Query.sort (query b) (js "-postingDate")))).

Definition limitFields (b : t) : M t :=
  (p ← get_prop (queryStr b) (js "fields");
   if truthy p then
     parts ← lift (split_prop p comma);
     let fields := join_with [space] parts in
     mret (set_query b (Query.select (query b) fields))
   else
     mret (set_query b (Query.select (query b) (js "-__v")))).

Definition searchByQuery (b : t) : M t :=
  (p ← get_prop (queryStr b) (js "q");
   if truthy p then
     parts ← lift (split_prop p hyphen);
     let qu := join_with [space] parts in
     mret (set_query b (Query.find (query b) (search_phrase qu)))
   else
     mret b).

Definition pagination (b : t) : M t :=
  (p ← get_prop (queryStr b) (js "page");
   n ← lift (parseInt p);
   let page := or_default n 1 in
   p ← get_prop (queryStr b) (js "limit");
   n ← lift (parseInt p);
   let limit := or_default n 10 in
   let skipResults := mul (sub page (Int 1)) limit in
   mret (set_query b (Query.limit (Query.skip (query b) skipResults) limit))).

(** The five stage methods, and a chain of calls [b.m1().m2()...]: a
    throw ends the chain. *)
Inductive stage :=
  | Filter
  | Sort
  | LimitFields
  | SearchByQuery
  | Pagination.

Definition call (s : stage) : t → M t :=
  match s with
  | Filter => filter
  | Sort => sort
  | LimitFields => limitFields
  | SearchByQuery => searchByQuery
  | Pagination => pagination
  end.

Fixpoint chain (ss : list stage) (b : t) : M t :=
  match ss with
  | [] => mret b
  | s :: ss' => b' ← call s b; chain ss' b'
  end.

End Builder.
Arguments t H : clear implicits.
End APIFilters.

(** ** Sample requests

    A builder over an empty slot handle, holding reference 1, and stores
    with one parameter object at that reference. *)

Definition sample_builder : APIFilters.t SlotHandle :=
  APIFilters.new empty_handle 1%positive.

Definition sample_store (q : object) : store := {[ 1%positive := q ]}.

(** [?price[gte]=50] *)
Definition q_price_gte : object :=
  [(js "price", JObj [(js "gte", JStr (js "50"))])].

(** [?check-in[gte]=5] *)
Definition q_check_in : object :=
  [(js "check-in", JObj [(js "gte", JStr (js "5"))])].

(** [?page=-2&limit=7] *)
Definition q_page_negative : object :=
  [(js "page", JStr (js "-2")); (js "limit", JStr (js "7"))].

(** [?page=0&limit=5] *)
Definition q_page_zero : object :=
  [(js "page", JStr (js "0")); (js "limit", JStr (js "5"))].

(** [?sort=x&page=2] *)
Definition q_sort_page : object :=
  [(js "sort", JStr (js "x")); (js "page", JStr (js "2"))].

(** [?page=abc] *)
Definition q_page_abc : object := [(js "page", JStr (js "abc"))].

(** [?q=remote-engineer] *)
Definition q_search : object := [(js "q", JStr (js "remote-engineer"))].

(** [?q=] *)
Definition q_search_empty : object := [(js "q", JStr [])].

(** [?fields=title,salary] *)
Definition q_fields : object := [(js "fields", JStr (js "title,salary"))].

(** [?sort=&fields=&q=] *)
Definition q_all_empty : object :=
  [(js "sort", JStr []); (js "fields", JStr []); (js "q", JStr [])].

(** [?jobType=Permanent] *)
Definition q_job_type : object := [(js "jobType", JStr (js "Permanent"))].

(** [?sort=salary,-title&fields=title,,salary] *)
Definition q_sort_fields : object :=
  [(js "sort", JStr (js "salary,-title"));
   (js "fields", JStr (js "title,,salary"))].

(** [?sort[a]=b]: a nested [sort]. *)
Definition q_sort_nested : object :=
  [(js "sort", JObj [(js "a", JStr (js "b"))])].

(** [?title=in&city=work in london] *)
Definition q_title_in : object :=
  [(js "title", JStr (js "in")); (js "city", JStr (js "work in london"))].

(** [?jobType=Permanent&company=Acme Inc&page=2] *)
Definition q_plain : object :=
  [(js "jobType", JStr (js "Permanent")); (js "company", JStr (js "Acme Inc"));
   (js "page", JStr (js "2"))].

(** [?page=3rd&limit=7] and [?page=3&limit=7] *)
Definition q_page_3rd : object :=
  [(js "page", JStr (js "3rd")); (js "limit", JStr (js "7"))].
Definition q_page_3 : object :=
  [(js "page", JStr (js "3")); (js "limit", JStr (js "7"))].

(** [?jobType=Permanent&sort=salary&q=node-js&page=2&limit=5] *)
Definition q_listing : object :=
  [(js "jobType", JStr (js "Permanent")); (js "sort", JStr (js "salary"));
   (js "q", JStr (js "node-js")); (js "page", JStr (js "2"));
   (js "limit", JStr (js "5"))].

(** [?role=user&q=anything] and [?role=user] *)
Definition q_users_q : object :=
  [(js "role", JStr (js "user")); (js "q", JStr (js "anything"))].
Definition q_users : object := [(js "role", JStr (js "user"))].

(** ** Texts without operator words *)

(** The words of a text: its maximal runs of word characters.  A run may
    be empty: there is one before the first separator, one after the last
    and one between two adjacent separators. *)
Fixpoint words (s : jstring) : list jstring :=
  match s with
  | [] => [[]]
  | c :: s' =>
      if is_word c then
        match words s' with
        | w :: ws => (c :: w) :: ws
        | [] => [[c]]
        end
      else [] :: words s'
  end.

(** A text of plain code units none of whose words is an operator. *)
Definition operator_free (s : jstring) : bool :=
  forallb is_plain s && forallb (λ w, negb (is_operator w)) (words s).

(** Every key and every string of a value. *)
Fixpoint strings_of (v : jsval) : list jstring :=
  match v with
  | JStr s => [s]
  | JArr l => concat (map strings_of l)
  | JObj o => concat (map (λ kv, kv.1 :: strings_of kv.2) o)
  end.

(** A code unit that ends the number [parseInt] reads, wherever it stands:
    no digit, no sign and no white space. *)
Definition ends_number (c : N) : bool :=
  negb (is_digit c) && negb (is_str_whitespace c)
  && negb (c =? 45) && negb (c =? 43).

(** ** The listing controllers (controllers/jobsController.js,
    controllers/userController.js)

    [getJobs] and [getUsers] build a query with the builder and await it.
    The definitions give the query that is awaited; running it and writing
    the response belong to the storage layer and the framework. *)
Module Controllers.
Section Listing.
Context {H : Type} `{Query.Handle H}.

(** [new APIFilters(Job.find(), req.query).filter().sort().limitFields()
    .searchByQuery().pagination()], then [apiFilters.query]. *)
Definition getJobs (Job_find : H) (req_query : loc) : M H :=
  (b ← APIFilters.filter (APIFilters.new Job_find req_query);
   b ← APIFilters.sort b;
   b ← APIFilters.limitFields b;
   b ← APIFilters.searchByQuery b;
   b ← APIFilters.pagination b;
   mret (APIFilters.query b)).

(** [new APIFilters(User.find(), req.query).filter().sort().limitFields()
    .pagination()], then [apiFilters.query]. *)
Definition getUsers (User_find : H) (req_query : loc) : M H :=
  (b ← APIFilters.filter (APIFilters.new User_find req_query);
   b ← APIFilters.sort b;
   b ← APIFilters.limitFields b;
   b ← APIFilters.pagination b;
   mret (APIFilters.query b)).

End Listing.
End Controllers.

(** ** Authentication and roles (middlewares/auth.js, the route files)

    A middleware is given the request and the continuation [next].  The
    two middlewares below read the [authorization] header and the [user]
    property of the request and write the latter. *)
Module Auth.

(** [new ErrorHandler(message, statusCode)]: what a middleware hands to
    [next] when it refuses the request. *)
Record ErrorHandler := { message : jstring; statusCode : Z }.

(** How a middleware ends: with [next()], and the request goes on to the
    next handler of the route; with [next(new ErrorHandler(..))]; or with
    an exception, one of a library ([E]) or a [TypeError] of the middleware
    itself.  The last two skip the handlers that are left. *)
Inductive step (E A : Type) :=
  | Next (a : A)
  | NextError (e : ErrorHandler)
  | Raise (e : E + error).
Arguments Next {E A} a.
Arguments NextError {E A} e.
Arguments Raise {E A} e.

(** [s.startsWith(p)]. *)
Definition startsWith (s p : jstring) : bool :=
  match strip_prefix p s with
  | Some _ => true
  | None => false
  end.

(** The [token] variable of [isAuthenticatedUser] before it is tested:
    [undefined] unless the header is a non-empty string that starts with
    ['Bearer'], and then the second part of the header split at spaces,
    which is [undefined] when there is no space. *)
Definition bearer_token (authorization : option jstring) : option jstring :=
  match authorization with
  | Some h =>
      if truthy (Some (JStr h)) && startsWith h (js "Bearer")
      then split space h !! 1%nat
      else None
  | None => None
  end.

Section Middleware.
(** The libraries: [jwt.verify(token, process.env.JWT_SECRET)] returns the
    decoded payload or throws; [User.findById] resolves to a user or to
    [null], or rejects. *)
Context {User Payload Id E : Type}.
Variable verify : jstring → E + Payload.
Variable id : Payload → Id.
Variable findById : Id → E + option User.

(** [user.role], a string by the user schema. *)
Variable role : User → jstring.

(** The request: [req.headers.authorization] and [req.user].  No user
    stands for [undefined] and for [null]; every read of the property
    below is [req.user.role], which throws for both. *)
Record request := { authorization : option jstring; user : option User }.

Definition isAuthenticatedUser (req : request) : step E request :=
  match bearer_token (authorization req) with
  | Some (c :: t) =>
      match verify (c :: t) with
      | inl e => Raise (inl e)
      | inr decoded =>
          match findById (id decoded) with
          | inl e => Raise (inl e)
          | inr u => Next {| authorization := authorization req; user := u |}
          end
      end
  | Some [] | None =>
      NextError {| message := js "Login first to access this resource.";
                   statusCode := 401 |}
  end.

Definition authorizeRoles (roles : list jstring) (req : request)
    : step E request :=
  match user req with
  | None => Raise (inr TypeError)
  | Some u =>
      if bool_decide (role u ∈ roles) then Next req
      else NextError
             {| message := js "Role(" ++ role u
                           ++ js ") is not allowed to access this resource.";
                statusCode := 403 |}
  end.

(** The handlers of a route, called in order: each runs when the one
    before it called [next()]. *)
Fixpoint handlers (hs : list (request → step E request)) (req : request)
    : step E request :=
  match hs with
  | [] => Next req
  | h :: hs' =>
      match h req with
      | Next req' => handlers hs' req'
      | NextError e => NextError e
      | Raise e => Raise e
      end
  end.

(** The routes, named by their controllers. *)
Inductive route :=
  | getJobs | getJob | getJobsInRadius | jobStats
  | newJob | applyJob | updateJob | deleteJob
  | registerUser | loginUser | forgotPassword | resetPassword | logout
  | getUserProfile | getAppliedJobs | getPublishedJobs
  | updatePassword | updateUser | deleteUser
  | getUsers | deleteUserAdmin.

(** The middlewares in front of each controller.  The user router runs
    [isAuthenticatedUser] before every one of its routes
    ([router.use(isAuthenticatedUser)]). *)
Definition middlewares (r : route) : list (request → step E request) :=
  match r with
  | getJobs | getJob | getJobsInRadius | jobStats => []
  | newJob | updateJob | deleteJob =>
      [isAuthenticatedUser; authorizeRoles [js "employeer"; js "admin"]]
  | applyJob => [isAuthenticatedUser; authorizeRoles [js "user"]]
  | registerUser | loginUser | forgotPassword | resetPassword => []
  | logout => [isAuthenticatedUser]
  | getUserProfile | updatePassword | updateUser | deleteUser =>
      [isAuthenticatedUser]
  | getAppliedJobs => [isAuthenticatedUser; authorizeRoles [js "user"]]
  | getPublishedJobs =>
      [isAuthenticatedUser; authorizeRoles [js "employeer"; js "admin"]]
  | getUsers | deleteUserAdmin =>
      [isAuthenticatedUser; authorizeRoles [js "admin"]]
  end.

End Middleware.
Arguments request User : clear implicits.

(** The roles that the user schema accepts (models/users.js, the [enum] of
    [role]). *)
Definition role_enum : list jstring := [js "user"; js "employeer"].

End Auth.

(** ** Sample requests with a header

    Three tokens verify, and decode to the ids [ann], [bob] and [gone];
    [ann] is an employer, [bob] a user, and no user has the id [gone].  A
    user is given by its role. *)

Definition sample_verify (token : jstring) : unit + jstring :=
  if bool_decide (token ∈ [js "ann"; js "bob"; js "gone"]) then inr token
  else inl tt.

Definition sample_findById (i : jstring) : unit + option jstring :=
  if bool_decide (i = js "ann") then inr (Some (js "employeer"))
  else if bool_decide (i = js "bob") then inr (Some (js "user"))
  else inr None.

Definition sample_request (header : string) : Auth.request jstring :=
  {| Auth.authorization := Some (js header); Auth.user := None |}.

(** [?page=3&page=9&limit=7] *)
Definition q_page_repeated : object :=
  [(js "page", JArr [JStr (js "3"); JStr (js "9")]); (js "limit", JStr (js "7"))].

(** [?sort[a]=b&fields[a]=b&q[a]=b] *)
Definition q_all_nested : object :=
  [(js "sort", JObj [(js "a", JStr (js "b"))]);
   (js "fields", JObj [(js "a", JStr (js "b"))]);
   (js "q", JObj [(js "a", JStr (js "b"))])].

(** ** Removing the applications of a deleted user
    (controllers/userController.js, [deleteUserData])

    For a user of role ['user'] the function goes through the jobs the user
    applied to and, for each, takes an entry out of the job's
    [applicantsApplied] array and saves the job.  The definitions give the
    array that is saved; removing the resume file and saving are left to
    the file system and the storage layer. *)
Module UserController.

(** The test of [applicantsApplied.find(o => o.id === user)]: an element
    that is an object whose [id] is the string [user]. *)
Definition has_id (user : jstring) (o : jsval) : bool :=
  match o with
  | JObj props =>
      match obj_get props (js "id") with
      | Some (JStr i) => bool_decide (i = user)
      | _ => false
      end
  | _ => false
  end.

(** [arr.indexOf(x)] for a string [x], on the array of a stored document.
    Such an array is the storage library's, whose [indexOf] compares with
    [==]: an element is converted to a primitive, which for the values here
    is its string ([to_string]), and the strings are compared.  The result
    is the index of the first element that is equal, or [-1]; converting an
    object that has an own [toString] property throws. *)
Fixpoint indexOf (arr : list jsval) (x : jstring) : outcome Z :=
  match arr with
  | [] => Returns (-1)%Z
  | v :: arr' =>
      match to_string v with
      | Throws e => Throws e
      | Returns s =>
          if bool_decide (s = x) then Returns 0%Z
          else
            match indexOf arr' x with
            | Throws e => Throws e
            | Returns i => Returns (if (i <? 0)%Z then (-1)%Z else (i + 1)%Z)
            end
      end
  end.

(** [arr.splice(start)], as what it leaves in [arr]: the elements before
    [start], which counts from the end when it is negative. *)
Definition splice {A} (arr : list A) (start : Z) : list A :=
  let len := Z.of_nat (length arr) in
  let from :=
    if (start <? 0)%Z then Z.max (len + start) 0 else Z.min start len in
  take (Z.to_nat from) arr.

(** The body of the loop: [obj] is the entry found for the user, and the
    array is spliced at [indexOf(obj.id)], where [obj.id] is [user] by the
    test that found [obj].  When no entry is found [obj] is [undefined] and
    reading [obj.resume] throws. *)
Definition remove_application (applicantsApplied : list jsval) (user : jstring)
    : outcome (list jsval) :=
  match List.find (has_id user) applicantsApplied with
  | Some obj =>
      match indexOf applicantsApplied user with
      | Throws e => Throws e
      | Returns i => Returns (splice applicantsApplied i)
      end
  | None => Throws TypeError
  end.

End UserController.

(** The entry that [applyJob] pushes for a user. *)
Definition application (user resume : string) : jsval :=
  JObj [(js "id", JStr (js user)); (js "resume", JStr (js resume))].

(** [?page=4&limit=7] *)
Definition q_page_4 : object :=
  [(js "page", JStr (js "4")); (js "limit", JStr (js "7"))].

(** [?page[toString]=1] *)
Definition q_page_toString : object :=
  [(js "page", JObj [(js "toString", JStr (js "1"))])].

(** [?sort=x&fields=title&q=dev&limit=5&page=2] *)
Definition q_all_reserved : object :=
  [(js "sort", JStr (js "x")); (js "fields", JStr (js "title"));
   (js "q", JStr (js "dev")); (js "limit", JStr (js "5"));
   (js "page", JStr (js "2"))].

(** ** The double model against the standard library

    [binary64 f] reads a float of the standard library's specification of
    IEEE 754 arithmetic as a [number], for the floats whose value is an
    integer. *)
Definition binary64 (f : spec_float) : number :=
  match f with
  | S754_zero s => if s then NegZero else Int 0
  | S754_infinity s => Infinity s
  | S754_nan => NaN
  | S754_finite s m e =>
      let v := if (e <? 0)%Z then (Z.pos m / 2 ^ (- e))%Z
               else (Z.pos m * 2 ^ e)%Z in
      Int (if s then (- v)%Z else v)
  end.

Definition to_binary64 (x : number) : spec_float :=
  match x with
  | NaN => S754_nan
  | Infinity s => S754_infinity s
  | NegZero => S754_zero true
  | Int z => binary_normalize 53 1024 z 0 false
  end.

(** Integers around the places where rounding sets in, changes its step
    and overflows. *)
Definition double_samples : list Z :=
  [0; 1; -1; 21; -21; 2 ^ 53 - 1; 2 ^ 53; 2 ^ 53 + 1; 2 ^ 53 + 2; 2 ^ 53 + 3;
   - (2 ^ 53) - 1; 2 ^ 54 + 1; 2 ^ 54 + 2; 2 ^ 54 + 3; 2 ^ 54 + 5; 2 ^ 54 + 6;
   94906267 * 94906267; 94906267 * 94906266; 10 ^ 22; 10 ^ 23; 10 ^ 308;
   10 ^ 309; 10 ^ 400; - (10 ^ 400); 2 ^ 1023; 2 ^ 1024 - 2 ^ 970 - 1;
   2 ^ 1024 - 2 ^ 970; 2 ^ 1024 - 1; 2 ^ 1024]%Z.

Definition same_number (x y : number) : bool :=
  match x, y with
  | NaN, NaN | NegZero, NegZero => true
  | Infinity s, Infinity s' => eqb s s'
  | Int a, Int b => (a =? b)%Z
  | _, _ => false
  end.

(** [?page=94906268&limit=94906267]: the product of the page less one and
    the limit is 2^53 + 261134297, which no double holds. *)
Definition q_page_large : object :=
  [(js "page", JStr (js "94906268")); (js "limit", JStr (js "94906267"))].

(** * Properties *)

(** ** The operator expression *)

Lemma word_prefix_nil_iff s : word_prefix s = [] ↔ is_word_at (head s) = false.
Proof.
  destruct s as [|c s]; simpl; [done|].
  destruct (is_word c); split; done.
Qed.

Lemma word_prefix_app_sep a q rest :
  is_word q = false → word_prefix (a ++ q :: rest) = word_prefix a.
Proof.
  intros Hq. induction a as [|c a IH]; simpl.
  - by rewrite Hq.
  - destruct (is_word c); [by rewrite IH | done].
Qed.

Lemma word_prefix_word c s :
  is_word c = true → word_prefix (c :: s) = c :: word_prefix s.
Proof. intros Hc. simpl. by rewrite Hc. Qed.

Lemma word_prefix_sep c s : is_word c = false → word_prefix (c :: s) = [].
Proof. intros Hc. simpl. by rewrite Hc. Qed.

Lemma word_prefix_forall s : Forall (λ c, is_word c = true) (word_prefix s).
Proof.
  induction s as [|c s IH]; simpl; [constructor|].
  destruct (is_word c) eqn:Hc; [by constructor | constructor].
Qed.

Lemma word_prefix_drop s :
  is_word_at (head (drop (length (word_prefix s)) s)) = false.
Proof.
  induction s as [|c s IH]; simpl; [done|].
  destruct (is_word c) eqn:Hc; simpl; [done | by rewrite Hc].
Qed.

Lemma strip_prefix_drop tok s rest :
  strip_prefix tok s = Some rest → rest = drop (length tok) s.
Proof.
  revert s. induction tok as [|t tok IH]; intros s; simpl.
  - intros [= <-]. by rewrite drop_0.
  - destruct s as [|c s]; [done|].
    destruct (t =? c); [apply IH | done].
Qed.

Lemma strip_prefix_word tok s :
  Forall (λ c, is_word c = true) tok →
  word_prefix s = tok ↔
  ∃ rest, strip_prefix tok s = Some rest ∧ is_word_at (head rest) = false.
Proof.
  intros Hw. revert s. induction Hw as [|t tok Ht Hw IH]; intros s.
  - simpl. rewrite word_prefix_nil_iff. split.
    + intros Hs. by exists s.
    + by intros (rest & [= <-] & Hs).
  - destruct s as [|c s]; cbn [strip_prefix word_prefix].
    { split; [done | by intros (rest & ? & _)]. }
    destruct (N.eqb_spec t c) as [->|Hne].
    + rewrite Ht, <-IH. split; [by intros [= ->] | by intros ->].
    + split; [|by intros (rest & ? & _)].
      destruct (is_word c); [|done]. intros [= Hc _]. by symmetry in Hc.
Qed.

(** An alternative made of word characters matches exactly when it is the
    whole word that starts at the position. *)
Lemma match_alt_spec tok s :
  tok ≠ [] → Forall (λ c, is_word c = true) tok →
  match_alt s tok =
    if bool_decide (word_prefix s = tok)
    then Some (tok, drop (length tok) s) else None.
Proof.
  intros Hne Hw. unfold match_alt.
  assert (Hlast : is_word_at (last tok) = true).
  { destruct (last tok) as [c|] eqn:Hl.
    - simpl. rewrite Forall_forall in Hw. apply Hw.
      rewrite last_Some in Hl. destruct Hl as [l' ->]. set_solver.
    - by apply last_None in Hl. }
  unfold word_boundary. rewrite Hlast.
  pose proof (strip_prefix_word tok s Hw) as Hiff.
  destruct (strip_prefix tok s) as [rest|] eqn:Hs.
  - apply strip_prefix_drop in Hs as Hd. subst rest.
    destruct (is_word_at (head (drop (length tok) s))) eqn:Hh; simpl.
    + rewrite bool_decide_eq_false_2; [done|].
      rewrite Hiff. intros (rest & [= <-] & Hr). congruence.
    + rewrite bool_decide_eq_true_2; [done|]. apply Hiff. eauto.
  - rewrite bool_decide_eq_false_2; [done|].
    rewrite Hiff. by intros (rest & ? & _).
Qed.

Lemma operators_word tok :
  tok ∈ operators → tok ≠ [] ∧ Forall (λ c, is_word c = true) tok.
Proof.
  unfold operators. rewrite !elem_of_cons, elem_of_nil.
  intros [->|[->|[->|[->|[->|[]]]]]]; (split; [done|]);
    repeat constructor.
Qed.

Lemma first_alt_spec s alts :
  (∀ tok, tok ∈ alts → tok ≠ [] ∧ Forall (λ c, is_word c = true) tok) →
  first_alt s alts =
    if bool_decide (word_prefix s ∈ alts)
    then Some (word_prefix s, drop (length (word_prefix s)) s) else None.
Proof.
  induction alts as [|tok alts IH]; intros Hw; cbn [first_alt].
  - rewrite bool_decide_eq_false_2; [done | set_solver].
  - destruct (Hw tok) as [Hne Hall]; [by left|].
    rewrite match_alt_spec by done.
    rewrite IH by (intros tok' Hin; apply Hw; by right).
    destruct (decide (word_prefix s = tok)) as [Htok|Htok].
    + rewrite (bool_decide_eq_true_2 _ Htok).
      rewrite bool_decide_eq_true_2 by (rewrite Htok; by left).
      by rewrite Htok.
    + rewrite (bool_decide_eq_false_2 _ Htok).
      destruct (decide (word_prefix s ∈ alts)) as [Hin|Hin].
      * rewrite (bool_decide_eq_true_2 _ Hin).
        rewrite bool_decide_eq_true_2 by (by right). done.
      * rewrite (bool_decide_eq_false_2 _ Hin).
        rewrite bool_decide_eq_false_2; [done|].
        rewrite elem_of_cons. tauto.
Qed.

(** The expression matches at a position exactly when no word character
    comes before it and the word that starts there is one of the five
    operators; the match is then that whole word. *)
Lemma match_here_spec before s :
  match_here before s =
    if negb (is_word_at before) && is_operator (word_prefix s)
    then Some (word_prefix s, drop (length (word_prefix s)) s) else None.
Proof.
  unfold match_here, is_operator.
  rewrite first_alt_spec by apply operators_word.
  unfold word_boundary.
  destruct (is_word_at before); simpl.
  - destruct (is_word_at (head s)) eqn:Hh; simpl; [done|].
    apply word_prefix_nil_iff in Hh. rewrite Hh. done.
  - destruct (is_word_at (head s)) eqn:Hh; simpl; [done|].
    apply word_prefix_nil_iff in Hh. rewrite Hh. done.
Qed.

Lemma sigils_cons before c s :
  sigils before (c :: s) =
    (if matches before (c :: s) then [dollar] else [])
    ++ c :: sigils (Some c) s.
Proof.
  cbn [sigils]. rewrite match_here_spec. fold (matches before (c :: s)).
  by destruct (matches before (c :: s)).
Qed.

Lemma matches_sep before c s : is_word c = false → matches before (c :: s) = false.
Proof.
  intros Hc. unfold matches. rewrite word_prefix_sep by done.
  by rewrite andb_false_r.
Qed.

Lemma matches_after_word c s : is_word c = true → matches (Some c) s = false.
Proof. intros Hc. unfold matches. simpl. by rewrite Hc. Qed.

Lemma sigils_sep before c s :
  is_word c = false → sigils before (c :: s) = c :: sigils (Some c) s.
Proof. intros Hc. by rewrite sigils_cons, matches_sep. Qed.

Lemma sigils_after_word b c s :
  is_word b = true → sigils (Some b) (c :: s) = c :: sigils (Some c) s.
Proof. intros Hb. by rewrite sigils_cons, matches_after_word. Qed.

(** Only the class of the unit before the position matters. *)
Lemma sigils_before b1 b2 s :
  is_word_at b1 = is_word_at b2 → sigils b1 s = sigils b2 s.
Proof.
  intros Hb. destruct s as [|c s]; [done|].
  rewrite !sigils_cons. unfold matches. by rewrite Hb.
Qed.

(** The replacement splits at every unit that is not a word character. *)
Lemma sigils_app_sep before a q rest :
  is_word q = false →
  sigils before (a ++ q :: rest) = sigils before a ++ q :: sigils (Some q) rest.
Proof.
  intros Hq. revert before. induction a as [|c a IH]; intros before.
  - simpl app. by rewrite sigils_sep.
  - rewrite <-app_comm_cons, !sigils_cons, IH.
    unfold matches. rewrite (app_comm_cons a), word_prefix_app_sep by done.
    by rewrite <-app_assoc.
Qed.

(** Inside a word nothing is written. *)
Lemma sigils_word_run b w rest :
  is_word b = true → Forall (λ c, is_word c = true) w →
  sigils (Some b) (w ++ rest) = w ++ sigils (last (b :: w)) rest.
Proof.
  intros Hb Hw. revert b Hb. induction Hw as [|c w Hc Hw IH]; intros b Hb.
  - done.
  - rewrite <-app_comm_cons, sigils_after_word by done.
    rewrite IH by done. by rewrite last_cons_cons.
Qed.

Lemma is_operator_member w : w ∈ operators → is_operator w = true.
Proof. intros Hw. by apply bool_decide_eq_true_2. Qed.

Lemma word_prefix_split s :
  s = word_prefix s ++ drop (length (word_prefix s)) s.
Proof.
  induction s as [|x s IH]; simpl; [done|].
  destruct (is_word x); simpl; [by f_equal | done].
Qed.

Lemma replace_all_sigils fuel before s :
  (length s < fuel)%nat → replace_all fuel before s = sigils before s.
Proof.
  revert before s. induction fuel as [|fuel IH]; intros before s Hlen; [lia|].
  cbn [replace_all]. rewrite match_here_spec.
  destruct s as [|c s].
  { simpl. unfold is_operator. rewrite bool_decide_eq_false_2.
    - by rewrite andb_false_r.
    - intros Hin%is_operator_member. by vm_compute in Hin. }
  rewrite sigils_cons. fold (matches before (c :: s)).
  destruct (matches before (c :: s)) eqn:Hm.
  - unfold matches in Hm. apply andb_prop in Hm as [_ Hop].
    unfold is_operator in Hop. apply bool_decide_eq_true_1 in Hop.
    pose proof (word_prefix_forall (c :: s)) as Hall.
    pose proof (word_prefix_split (c :: s)) as Hsplit.
    remember (drop (length (word_prefix (c :: s))) (c :: s)) as rest eqn:Hrest.
    clear Hrest.
    destruct (word_prefix (c :: s)) as [|c' w] eqn:Hwp.
    { apply is_operator_member in Hop. by vm_compute in Hop. }
    simpl in Hsplit. injection Hsplit as <- ->.
    rewrite IH.
    + unfold prefix_sigil. simpl. f_equal. f_equal.
      inversion Hall; subst.
      rewrite sigils_word_run by done. done.
    + cbn [length] in Hlen. rewrite length_app in Hlen. lia.
  - simpl. f_equal. apply IH. simpl in Hlen. lia.
Qed.

(** The replacement of the source is the position-wise one. *)
Lemma replace_operators_sigils s : replace_operators s = sigils None s.
Proof. unfold replace_operators. apply replace_all_sigils. lia. Qed.

(** *** The replacement can be undone *)

Lemma is_operator_head w :
  is_operator w = true → ∃ c w', w = c :: w' ∧ (c = 103 ∨ c = 108 ∨ c = 105).
Proof.
  unfold is_operator. intros Hop%bool_decide_eq_true_1. revert Hop.
  unfold operators. rewrite !elem_of_cons, elem_of_nil.
  intros [->|[->|[->|[->|[->|[]]]]]]; vm_compute; eauto 10.
Qed.

Lemma is_operator_nil : is_operator [] = false.
Proof. done. Qed.

Lemma matches_head before s :
  matches before s = true →
  ∃ c s', s = c :: s' ∧ (c = 103 ∨ c = 108 ∨ c = 105).
Proof.
  unfold matches. intros [_ Hop]%andb_prop.
  apply is_operator_head in Hop as (c & w' & Hw & Hc).
  destruct s as [|x s]; [done|]. simpl in Hw.
  destruct (is_word x); [|done]. injection Hw as -> _. eauto.
Qed.

Lemma word_prefix_sigils_word b s :
  is_word b = true → word_prefix (sigils (Some b) s) = word_prefix s.
Proof.
  revert b. induction s as [|x s IH]; intros b Hb; [done|].
  rewrite sigils_after_word by done. simpl.
  destruct (is_word x) eqn:Hx; [by rewrite IH | done].
Qed.

Lemma word_prefix_sigils b s :
  word_prefix (sigils b s) = if matches b s then [] else word_prefix s.
Proof.
  destruct s as [|x s]; [by destruct (matches b [])|].
  rewrite sigils_cons. destruct (matches b (x :: s)); simpl; [done|].
  destruct (is_word x) eqn:Hx; [|done].
  by rewrite word_prefix_sigils_word.
Qed.

Lemma unsigil_sigils b s : unsigil (sigils b s) = s.
Proof.
  revert b. induction s as [|c s IH]; intros b; [done|].
  rewrite sigils_cons. destruct (matches b (c :: s)) eqn:Hm.
  - assert (Hc : is_word c = true).
    { apply matches_head in Hm as (c' & s' & [= <- <-] & [-> | [-> | ->]]); done. }
    cbn [app unsigil]. rewrite N.eqb_refl. cbn [andb].
    replace (is_operator (word_prefix (c :: sigils (Some c) s))) with true.
    2:{ unfold matches in Hm. apply andb_prop in Hm as [_ <-].
        simpl. rewrite Hc. by rewrite word_prefix_sigils_word. }
    destruct (N.eqb_spec c dollar) as [->|_]; [done|].
    cbn [andb]. by rewrite IH.
  - cbn [app unsigil]. rewrite IH.
    destruct (N.eqb_spec c dollar) as [->|Hne]; [|done].
    cbn [andb]. rewrite word_prefix_sigils. unfold matches.
    change (is_word_at (Some dollar)) with false. cbn [negb andb].
    by destruct (is_operator (word_prefix s)) eqn:Hop; rewrite ?Hop.
Qed.

Lemma sigils_inj b s1 s2 : sigils b s1 = sigils b s2 → s1 = s2.
Proof.
  intros Heq. rewrite <-(unsigil_sigils b s1), <-(unsigil_sigils b s2).
  by rewrite Heq.
Qed.

(** ** The JSON text of a string *)

Lemma escape_cons_pair c c2 s :
  is_high c = true → is_low c2 = true →
  escape (c :: c2 :: s) = c :: c2 :: escape s.
Proof. intros Hc Hc2. cbn [escape]. by rewrite Hc, Hc2. Qed.

Lemma escape_cons_unit c s :
  pair_head c s = false → escape (c :: s) = escape_unit c ++ escape s.
Proof.
  unfold pair_head, starts_low. intros Hp. cbn [escape].
  destruct (is_high c); [|done]. destruct s as [|c2 s]; simpl in *.
  - by rewrite app_nil_r.
  - by rewrite Hp.
Qed.

(** Induction that follows [escape]: one unit at a time, or a pair. *)
Lemma pair_ind (P : jstring → Prop) :
  P [] →
  (∀ c s, pair_head c s = false → P s → P (c :: s)) →
  (∀ c c2 s, is_high c = true → is_low c2 = true → P s → P (c :: c2 :: s)) →
  ∀ s, P s.
Proof.
  intros Hnil Hunit Hpair s.
  induction s as [s IH] using (induction_ltof1 _ (@length N)).
  unfold ltof in IH. destruct s as [|c s]; [done|].
  destruct (pair_head c s) eqn:Hp.
  - unfold pair_head, starts_low in Hp. apply andb_prop in Hp as [Hc Hs].
    destruct s as [|c2 s]; [done|]. apply Hpair; [done..|].
    apply IH. simpl. lia.
  - apply Hunit; [done|]. apply IH. simpl. lia.
Qed.

Lemma hex_digit_spec d :
  d < 16 →
  is_word (hex_digit d) = true ∧ hex_digit d ≠ dollar ∧
  JSON.hex_value (hex_digit d) = Some d.
Proof.
  intros Hd.
  assert (d = 0 ∨ d = 1 ∨ d = 2 ∨ d = 3 ∨ d = 4 ∨ d = 5 ∨ d = 6 ∨ d = 7 ∨
          d = 8 ∨ d = 9 ∨ d = 10 ∨ d = 11 ∨ d = 12 ∨ d = 13 ∨ d = 14 ∨ d = 15)
    as Hcases by lia.
  repeat (destruct Hcases as [->|Hcases]; [by vm_compute|]).
  subst d. by vm_compute.
Qed.

Lemma mod16_lt n : n mod 16 < 16.
Proof. apply N.mod_lt. lia. Qed.

Lemma hex4_unicode_escape c :
  c < 65536 →
  JSON.hex4 (hex_digit (c / 4096 mod 16)) (hex_digit (c / 256 mod 16))
            (hex_digit (c / 16 mod 16)) (hex_digit (c mod 16)) = Some c.
Proof.
  intros Hc. unfold JSON.hex4.
  destruct (hex_digit_spec _ (mod16_lt (c / 4096))) as (_ & _ & ->).
  destruct (hex_digit_spec _ (mod16_lt (c / 256))) as (_ & _ & ->).
  destruct (hex_digit_spec _ (mod16_lt (c / 16))) as (_ & _ & ->).
  destruct (hex_digit_spec _ (mod16_lt c)) as (_ & _ & ->).
  f_equal.
  pose proof (N.div_mod c 16 ltac:(lia)).
  pose proof (N.div_mod (c / 16) 16 ltac:(lia)).
  pose proof (N.div_mod (c / 16 / 16) 16 ltac:(lia)).
  replace (c / 256) with (c / 16 / 16) by (rewrite N.Div0.div_div; done).
  replace (c / 4096) with (c / 16 / 16 / 16) by (rewrite !N.Div0.div_div; done).
  assert (c / 16 / 16 / 16 < 16).
  { rewrite !N.Div0.div_div. apply N.Div0.div_lt_upper_bound. simpl. lia. }
  rewrite (N.mod_small (c / 16 / 16 / 16)) by done.
  lia.
Qed.

Lemma is_word_range c : is_word c = true → 48 ≤ c ∧ c ≤ 122.
Proof.
  unfold is_word.
  rewrite !orb_true_iff, !andb_true_iff, !N.leb_le, N.eqb_eq. lia.
Qed.

Lemma escape_unit_shape c : unit_shape c (escape_unit c).
Proof.
  unfold escape_unit.
  destruct (N.eqb_spec c 8) as [->|?]; [by apply shape_short|].
  destruct (N.eqb_spec c 9) as [->|?]; [by apply shape_short|].
  destruct (N.eqb_spec c 10) as [->|?]; [by apply shape_short|].
  destruct (N.eqb_spec c 12) as [->|?]; [by apply shape_short|].
  destruct (N.eqb_spec c 13) as [->|?]; [by apply shape_short|].
  destruct (N.eqb_spec c dquote) as [->|?]; [by apply shape_short|].
  destruct (N.eqb_spec c backslash) as [->|?]; [by apply shape_short|].
  destruct ((c <? 32) || is_high c || is_low c) eqn:Hesc.
  - assert (c < 32 ∨ (55296 ≤ c ∧ c ≤ 57343)) as Hc.
    { unfold is_high, is_low in Hesc.
      apply orb_prop in Hesc as [Hesc|Hesc];
        [apply orb_prop in Hesc as [Hesc|Hesc]|].
      - left. by apply N.ltb_lt.
      - right. apply andb_prop in Hesc as [?%N.leb_le ?%N.leb_le]. lia.
      - right. apply andb_prop in Hesc as [?%N.leb_le ?%N.leb_le]. lia. }
    apply shape_unicode.
    + lia.
    + destruct (is_word c) eqn:Hw; [|done].
      apply is_word_range in Hw. lia.
    + unfold dollar. lia.
  - apply orb_false_elim in Hesc as [Hesc Hlow].
    apply orb_false_elim in Hesc as [Hlt Hhigh].
    apply N.ltb_ge in Hlt. by apply shape_plain.
Qed.

Lemma parse_chars_plain c t :
  32 ≤ c → c ≠ dquote → c ≠ backslash →
  JSON.parse_chars (c :: t) =
    match JSON.parse_chars t with
    | Some (r, rest) => Some (c :: r, rest)
    | None => None
    end.
Proof.
  intros Hc Hq Hb. cbn [JSON.parse_chars].
  rewrite (proj2 (N.eqb_neq c dquote)), (proj2 (N.eqb_neq c backslash)) by done.
  by rewrite (proj2 (N.ltb_ge c 32)).
Qed.

Lemma parse_chars_unit c u t :
  unit_shape c u →
  JSON.parse_chars (u ++ t) =
    match JSON.parse_chars t with
    | Some (r, rest) => Some (c :: r, rest)
    | None => None
    end.
Proof.
  intros [Hc Hq Hb _ _|e He Hu _ _ _ _ _ _|Hc _ _].
  - by apply parse_chars_plain.
  - cbn [app JSON.parse_chars]. change (backslash =? dquote) with false.
    rewrite N.eqb_refl. cbv iota.
    rewrite (proj2 (N.eqb_neq e 117)) by done. by rewrite He.
  - unfold unicode_escape. cbn [app JSON.parse_chars].
    change (backslash =? dquote) with false. rewrite N.eqb_refl.
    change (117 =? 117) with true. cbv iota.
    by rewrite hex4_unicode_escape.
Qed.

Lemma not_matches_head b c s :
  c ≠ 103 → c ≠ 108 → c ≠ 105 → matches b (c :: s) = false.
Proof.
  intros ???. destruct (matches b (c :: s)) eqn:Hm; [|done].
  apply matches_head in Hm as (c' & s' & [= <- <-] & Hc). lia.
Qed.

(** The replacement writes nothing inside the text of a unit. *)
Lemma sigils_unit c u b t :
  unit_shape c u →
  sigils b (u ++ t) =
    (if matches b (u ++ t) then [dollar] else []) ++ u ++ sigils (last u) t.
Proof.
  intros [_ _ _ _ _|e _ _ _ _ _ Hg Hl Hi|_ _ _].
  - cbn [app]. by rewrite sigils_cons.
  - cbn [app]. rewrite (matches_sep b backslash) by done.
    rewrite sigils_sep by done. cbn [app]. f_equal.
    rewrite sigils_cons, not_matches_head by done. done.
  - unfold unicode_escape. cbn [app].
    rewrite (matches_sep b backslash) by done.
    rewrite sigils_sep by done. cbn [app]. f_equal.
    rewrite sigils_cons, not_matches_head by done. cbn [app]. f_equal.
    destruct (hex_digit_spec _ (mod16_lt (c / 4096))) as (? & _ & _).
    destruct (hex_digit_spec _ (mod16_lt (c / 256))) as (? & _ & _).
    destruct (hex_digit_spec _ (mod16_lt (c / 16))) as (? & _ & _).
    destruct (hex_digit_spec _ (mod16_lt c)) as (? & _ & _).
    rewrite !sigils_after_word by done. done.
Qed.

Lemma unsigil_cons_other c t : c ≠ dollar → unsigil (c :: t) = c :: unsigil t.
Proof.
  intros Hc. cbn [unsigil]. by rewrite (proj2 (N.eqb_neq c dollar)).
Qed.

Lemma unsigil_unit c u t :
  unit_shape c u → c ≠ dollar → unsigil (u ++ t) = u ++ unsigil t.
Proof.
  intros [_ _ _ _ _|e _ _ _ _ He _ _ _|_ _ _] Hc.
  - by apply unsigil_cons_other.
  - cbn [app]. by rewrite !unsigil_cons_other.
  - unfold unicode_escape. cbn [app].
    destruct (hex_digit_spec _ (mod16_lt (c / 4096))) as (_ & ? & _).
    destruct (hex_digit_spec _ (mod16_lt (c / 256))) as (_ & ? & _).
    destruct (hex_digit_spec _ (mod16_lt (c / 16))) as (_ & ? & _).
    destruct (hex_digit_spec _ (mod16_lt c)) as (_ & ? & _).
    by rewrite !unsigil_cons_other.
Qed.

Lemma word_prefix_unit c u t :
  unit_shape c u →
  word_prefix (u ++ t) = if is_word c then c :: word_prefix t else [].
Proof.
  intros [_ _ _ _ _|e _ _ Hw _ _ _ _ _|_ Hw _].
  - done.
  - by rewrite Hw.
  - by rewrite Hw.
Qed.

Lemma is_high_sep c :
  is_high c = true →
  is_word c = false ∧ 32 ≤ c ∧ c ≠ dquote ∧ c ≠ backslash ∧ c ≠ dollar.
Proof.
  unfold is_high. intros [?%N.leb_le ?%N.leb_le]%andb_prop.
  unfold dquote, backslash, dollar. repeat split; try lia.
  destruct (is_word c) eqn:Hw; [|done]. apply is_word_range in Hw. lia.
Qed.

Lemma is_low_sep c :
  is_low c = true →
  is_word c = false ∧ 32 ≤ c ∧ c ≠ dquote ∧ c ≠ backslash ∧ c ≠ dollar.
Proof.
  unfold is_low. intros [?%N.leb_le ?%N.leb_le]%andb_prop.
  unfold dquote, backslash, dollar. repeat split; try lia.
  destruct (is_word c) eqn:Hw; [|done]. apply is_word_range in Hw. lia.
Qed.

(** Reading back the text of a string gives the string. *)
Lemma parse_chars_escape r rest :
  JSON.parse_chars (escape r ++ dquote :: rest) = Some (r, rest).
Proof.
  induction r as [|c r Hp IH|c c2 r Hc Hc2 IH] using pair_ind.
  - done.
  - rewrite escape_cons_unit, <-app_assoc by done.
    rewrite (parse_chars_unit c) by apply escape_unit_shape. by rewrite IH.
  - rewrite escape_cons_pair by done. cbn [app].
    destruct (is_high_sep _ Hc) as (_ & ? & ? & ? & _).
    destruct (is_low_sep _ Hc2) as (_ & ? & ? & ? & _).
    rewrite !parse_chars_plain by done. by rewrite IH.
Qed.

Lemma escape_inj r1 r2 : escape r1 = escape r2 → r1 = r2.
Proof.
  intros Heq.
  pose proof (parse_chars_escape r1 []) as H1.
  pose proof (parse_chars_escape r2 []) as H2.
  rewrite Heq in H1. congruence.
Qed.

(** The words of the text are the words of the string. *)
Lemma word_prefix_escape s : word_prefix (escape s) = word_prefix s.
Proof.
  induction s as [|c s Hp IH|c c2 s Hc Hc2 IH] using pair_ind.
  - done.
  - rewrite escape_cons_unit by done.
    rewrite (word_prefix_unit c) by apply escape_unit_shape.
    simpl. by rewrite IH.
  - rewrite escape_cons_pair by done.
    destruct (is_high_sep _ Hc) as (Hw & _). simpl. by rewrite Hw.
Qed.

Lemma escape_dollar s : escape (dollar :: s) = dollar :: escape s.
Proof. by rewrite escape_cons_unit. Qed.

(** The rewritten text of a string is again the text of a string. *)
Lemma sigils_escape k b :
  ∃ r, sigils b (escape k) = escape r ∧
       (starts_low r = true → starts_low k = true).
Proof.
  revert b. induction k as [|c k Hp IH|c c2 k Hc Hc2 IH] using pair_ind; intros b.
  - by exists [].
  - rewrite escape_cons_unit by done.
    rewrite (sigils_unit c) by apply escape_unit_shape.
    destruct (IH (last (escape_unit c))) as (r & -> & Hlow).
    assert (Hesc : escape_unit c ++ escape r = escape (c :: r)).
    { rewrite escape_cons_unit; [done|]. unfold pair_head in *.
      destruct (is_high c); [|done]. simpl in *.
      destruct (starts_low r); [|done]. by rewrite Hlow in Hp. }
    rewrite Hesc.
    destruct (matches b (escape_unit c ++ escape k)).
    + exists (dollar :: c :: r). by rewrite escape_dollar.
    + by exists (c :: r).
  - rewrite escape_cons_pair by done.
    destruct (is_high_sep _ Hc) as (Hw & _).
    destruct (is_low_sep _ Hc2) as (Hw2 & _).
    rewrite !sigils_sep by done.
    destruct (IH (Some c2)) as (r & -> & Hlow).
    exists (c :: c2 :: r). by rewrite escape_cons_pair.
Qed.

Lemma starts_low_unsigil r : starts_low (unsigil r) = starts_low r.
Proof.
  destruct r as [|c r]; [done|]. cbn [unsigil].
  destruct (N.eqb_spec c dollar) as [->|Hne]; [|done]. cbn [andb].
  destruct (is_operator (word_prefix r)) eqn:Hop; [|done].
  apply is_operator_head in Hop as (x & w & Hw & Hx).
  destruct r as [|y r]; [done|]. simpl in Hw.
  destruct (is_word y); [|done]. injection Hw as -> _.
  rewrite unsigil_cons_other by (unfold dollar; lia).
  simpl. unfold is_low. destruct Hx as [-> | [-> | ->]]; done.
Qed.

(** Undoing the replacement on the text of a string is undoing it on the
    string. *)
Lemma unsigil_escape r : unsigil (escape r) = escape (unsigil r).
Proof.
  induction r as [|c r Hp IH|c c2 r Hc Hc2 IH] using pair_ind.
  - done.
  - destruct (decide (c = dollar)) as [->|Hne].
    + rewrite escape_dollar. cbn [unsigil]. rewrite N.eqb_refl. cbn [andb].
      rewrite word_prefix_escape, IH.
      destruct (is_operator (word_prefix r)); [done|].
      by rewrite escape_dollar.
    + rewrite escape_cons_unit by done.
      rewrite (unsigil_unit c) by (apply escape_unit_shape || done).
      rewrite unsigil_cons_other by done.
      rewrite escape_cons_unit, IH; [done|].
      unfold pair_head in *. by rewrite starts_low_unsigil.
  - rewrite escape_cons_pair by done.
    destruct (is_high_sep _ Hc) as (_ & _ & _ & _ & ?).
    destruct (is_low_sep _ Hc2) as (_ & _ & _ & _ & ?).
    rewrite !unsigil_cons_other by done.
    by rewrite IH, escape_cons_pair.
Qed.

(** ** The rewrite of one string *)

Lemma parse_quote r : JSON.parse (quote r) = Some (JStr r).
Proof.
  unfold JSON.parse, quote. cbn [JSON.parse_value JSON.skip_ws].
  change (JSON.is_ws dquote) with false. cbv iota.
  change (dquote =? dquote) with true. cbv iota.
  by rewrite parse_chars_escape.
Qed.

Lemma sigils_quote b k :
  ∃ r, sigils b (quote k) = quote r ∧ sigils (Some dquote) (escape k) = escape r.
Proof.
  destruct (sigils_escape k (Some dquote)) as (r & Hr & _).
  exists r. split; [|done]. unfold quote.
  rewrite sigils_sep by done.
  rewrite sigils_app_sep by done. by rewrite Hr.
Qed.

(** The rewritten text of a string is the text of its rewrite. *)
Lemma sigils_escape_rewrite b k :
  is_word_at b = false → sigils b (escape k) = escape (rewrite_string k).
Proof.
  intros Hb. rewrite (sigils_before b (Some dquote)) by done.
  destruct (sigils_quote None k) as (r & Hq & Hr).
  unfold rewrite_string. cbn [JSON.stringify].
  rewrite replace_operators_sigils, Hq, parse_quote. done.
Qed.

Lemma sigils_quote_rewrite b k : sigils b (quote k) = quote (rewrite_string k).
Proof.
  unfold quote. rewrite sigils_sep by done.
  rewrite sigils_app_sep by done. by rewrite sigils_escape_rewrite.
Qed.

(** Taking the sigils off a rewritten string gives the string back. *)
Lemma unsigil_rewrite_string k : unsigil (rewrite_string k) = k.
Proof.
  apply escape_inj.
  rewrite <-unsigil_escape, <-(sigils_escape_rewrite None) by done.
  apply unsigil_sigils.
Qed.

Lemma rewrite_string_inj k1 k2 :
  rewrite_string k1 = rewrite_string k2 → k1 = k2.
Proof.
  intros Heq. rewrite <-(unsigil_rewrite_string k1), <-(unsigil_rewrite_string k2).
  by rewrite Heq.
Qed.

(** Each operator gets the sigil. *)
Lemma rewrite_string_operator op :
  op ∈ operators → rewrite_string op = dollar :: op.
Proof.
  unfold operators. rewrite !elem_of_cons, elem_of_nil.
  intros [->|[->|[->|[->|[->|[]]]]]]; by vm_compute.
Qed.

(** No rewritten string is a bare operator. *)
Lemma rewrite_string_not_operator k : rewrite_string k ∉ operators.
Proof.
  intros Hin. pose proof (unsigil_rewrite_string k) as Hu.
  remember (rewrite_string k) as r eqn:Hr.
  assert (unsigil r = r) as Hid.
  { revert Hin. unfold operators. rewrite !elem_of_cons, elem_of_nil.
    intros [->|[->|[->|[->|[->|[]]]]]]; by vm_compute. }
  rewrite Hid in Hu. subst k.
  rewrite rewrite_string_operator in Hr by done.
  apply (f_equal length) in Hr. simpl in Hr. lia.
Qed.

Lemma is_plain_spec c :
  is_plain c = true →
  32 ≤ c ∧ c ≠ dquote ∧ c ≠ backslash ∧ is_high c = false ∧ is_low c = false.
Proof.
  unfold is_plain. rewrite !andb_true_iff, !negb_true_iff, N.leb_le, !N.eqb_neq.
  tauto.
Qed.

Lemma escape_plain s : forallb is_plain s = true → escape s = s.
Proof.
  induction s as [|c s IH]; [done|]. cbn [forallb].
  intros [Hc Hs]%andb_prop. apply is_plain_spec in Hc as (?&?&?&Hh&Hl).
  rewrite escape_cons_unit by (unfold pair_head; by rewrite Hh).
  rewrite IH by done. unfold escape_unit.
  rewrite Hh, Hl, (proj2 (N.ltb_ge c 32)) by done.
  rewrite (proj2 (N.eqb_neq c dquote)), (proj2 (N.eqb_neq c backslash)) by done.
  destruct (N.eqb_spec c 8) as [->|_]; [lia|].
  destruct (N.eqb_spec c 9) as [->|_]; [lia|].
  destruct (N.eqb_spec c 10) as [->|_]; [lia|].
  destruct (N.eqb_spec c 12) as [->|_]; [lia|].
  destruct (N.eqb_spec c 13) as [->|_]; [lia|].
  reflexivity.
Qed.

Lemma sigils_plain b s :
  forallb is_plain s = true → forallb is_plain (sigils b s) = true.
Proof.
  revert b. induction s as [|c s IH]; intros b; [done|].
  cbn [forallb]. intros [Hc Hs]%andb_prop.
  rewrite sigils_cons. destruct (matches b (c :: s)); cbn [app forallb];
    rewrite Hc, IH; done.
Qed.

(** On a string of plain code units the rewrite is the replacement
    itself. *)
Lemma rewrite_string_plain s :
  forallb is_plain s = true → rewrite_string s = replace_operators s.
Proof.
  intros Hs. apply escape_inj.
  rewrite <-(sigils_escape_rewrite None) by done.
  rewrite replace_operators_sigils.
  rewrite (escape_plain s) by done.
  by rewrite escape_plain by by apply sigils_plain.
Qed.

(** ** Values *)

Lemma jsval_ind (P : jsval → Prop) :
  (∀ s, P (JStr s)) →
  (∀ l, Forall P l → P (JArr l)) →
  (∀ o, Forall (λ kv, P kv.2) o → P (JObj o)) →
  ∀ v, P v.
Proof.
  intros Hs Ha Ho. fix IH 1. intros [s|l|o].
  - apply Hs.
  - apply Ha. induction l as [|x l IHl]; constructor; [apply IH | exact IHl].
  - apply Ho. induction o as [|[k x] o IHo]; constructor; [apply IH | exact IHo].
Qed.

Lemma wf_value_arr l : wf_value (JArr l) ↔ Forall wf_value l.
Proof.
  simpl. induction l as [|x l IH]; [by split; [constructor|]|].
  rewrite Forall_cons, IH. done.
Qed.

Lemma wf_value_obj o :
  wf_value (JObj o) ↔ NoDup o.*1 ∧ Forall (λ kv, wf_value kv.2) o.
Proof.
  simpl. apply and_iff_compat_l.
  induction o as [|[k x] o IH]; [by split; [constructor|]|].
  rewrite Forall_cons, IH. done.
Qed.

Lemma obj_set_fresh o k v : k ∉ o.*1 → obj_set o k v = o ++ [(k, v)].
Proof.
  induction o as [|[k' v'] o IH]; [done|]. cbn [fmap list_fmap fst].
  rewrite not_elem_of_cons. intros [Hne Hnin]. cbn [obj_set app].
  rewrite bool_decide_eq_false_2 by done. by rewrite IH.
Qed.

Lemma foldl_obj_set_fresh acc o :
  NoDup (acc.*1 ++ o.*1) →
  foldl (λ acc kv, obj_set acc kv.1 kv.2) acc o = acc ++ o.
Proof.
  revert acc. induction o as [|[k v] o IH]; intros acc Hnd.
  - by rewrite app_nil_r.
  - cbn [foldl fst snd]. cbn [fmap list_fmap fst] in Hnd.
    rewrite obj_set_fresh.
    + rewrite IH; [by rewrite <-app_assoc|].
      rewrite fmap_app. cbn [fmap list_fmap fst]. by rewrite <-app_assoc.
    + apply NoDup_app in Hnd as (_ & Hdisj & _).
      intros Hin. apply (Hdisj k Hin). by left.
Qed.

Lemma obj_of_list_NoDup o : NoDup o.*1 → obj_of_list o = o.
Proof. intros Hnd. unfold obj_of_list. by rewrite foldl_obj_set_fresh. Qed.

Lemma normalize_wf v : wf_value v → normalize v = v.
Proof.
  induction v as [s|l IH|o IH] using jsval_ind; [done|..].
  - rewrite wf_value_arr. intros Hwf. cbn [normalize]. f_equal.
    induction l as [|x l IHl]; [done|].
    inversion IH; inversion Hwf; subst. cbn [map]. f_equal; auto.
  - rewrite wf_value_obj. intros [Hnd Hwf]. cbn [normalize]. f_equal.
    assert (map (λ kv, (kv.1, normalize kv.2)) o = o) as ->.
    { clear Hnd. induction o as [|[k x] o IHo]; [done|].
      inversion IH; inversion Hwf; subst. cbn [map fst snd] in *.
      f_equal; [f_equal|]; auto. }
    by apply obj_of_list_NoDup.
Qed.

Lemma wf_map_strings f v :
  Inj (=) (=) f → wf_value v → wf_value (map_strings f v).
Proof.
  intros Hf. induction v as [s|l IH|o IH] using jsval_ind; [done|..].
  - cbn [map_strings]. rewrite !wf_value_arr. intros Hwf.
    induction l as [|x l IHl]; [constructor|].
    inversion IH; inversion Hwf; subst. cbn [map]. constructor; auto.
  - cbn [map_strings]. rewrite !wf_value_obj. intros [Hnd Hwf]. split.
    + replace ((map (λ kv, (f kv.1, map_strings f kv.2)) o).*1)
        with (f <$> o.*1).
      * by apply NoDup_fmap_2.
      * clear. induction o as [|[k x] o IHo]; [done|].
        cbn [map fmap list_fmap fst] in *. by f_equal.
    + clear Hnd. induction o as [|[k x] o IHo]; [constructor|].
      inversion IH; inversion Hwf; subst. cbn [map]. constructor; auto.
Qed.

(** ** The replacement on the text of a value *)

Lemma join_with_cons2 sep p q l :
  join_with sep (p :: q :: l) = p ++ sep ++ join_with sep (q :: l).
Proof. done. Qed.

Lemma sigils_join texts texts' close rest b :
  is_word close = false →
  Forall2 (λ t t', ∀ b rest, sigils b (t ++ rest) = t' ++ sigils None rest)
          texts texts' →
  sigils b (join_with [comma] texts ++ close :: rest) =
    join_with [comma] texts' ++ close :: sigils None rest.
Proof.
  intros Hclose Hall. revert b.
  induction Hall as [|t t' ts ts' Ht Hts IH]; intros b.
  - cbn [join_with app]. rewrite sigils_sep by done.
    by rewrite (sigils_before (Some close) None).
  - destruct Hts as [|t2 t2' ts ts' Ht2 Hts].
    + cbn [join_with]. rewrite Ht, sigils_sep by done.
      by rewrite (sigils_before (Some close) None).
    + rewrite !join_with_cons2, <-!app_assoc. rewrite Ht.
      cbn [app]. rewrite sigils_sep by done. by rewrite IH.
Qed.

(** Rewriting the text of a value is rewriting its keys and strings. *)
Lemma sigils_stringify v b rest :
  sigils b (JSON.stringify v ++ rest) =
    JSON.stringify (map_strings rewrite_string v) ++ sigils None rest.
Proof.
  revert b rest. induction v as [s|l IH|o IH] using jsval_ind; intros b rest.
  - cbn [JSON.stringify map_strings]. unfold quote.
    cbn [app]. rewrite <-!app_assoc. cbn [app].
    rewrite sigils_sep by done. rewrite sigils_app_sep by done.
    rewrite sigils_escape_rewrite by done.
    by rewrite (sigils_before (Some dquote) None).
  - cbn [JSON.stringify map_strings app]. rewrite <-!app_assoc. cbn [app].
    rewrite sigils_sep by done. f_equal.
    apply sigils_join; [done|].
    induction IH as [|x l Hx _ IHl]; cbn [map]; constructor; auto.
  - cbn [JSON.stringify map_strings app]. rewrite <-!app_assoc. cbn [app].
    rewrite sigils_sep by done. f_equal.
    rewrite map_map.
    apply sigils_join; [done|].
    induction IH as [|[k x] o Hx _ IHo]; cbn [map fst snd]; constructor; [|auto].
    intros b' rest'. unfold quote. cbn [app]. rewrite <-!app_assoc. cbn [app].
    rewrite sigils_sep by done. rewrite sigils_app_sep by done.
    rewrite sigils_escape_rewrite by done.
    rewrite sigils_sep by done. cbn [snd] in Hx. by rewrite Hx.
Qed.

Lemma replace_operators_stringify v :
  replace_operators (JSON.stringify v) =
    JSON.stringify (map_strings rewrite_string v).
Proof.
  rewrite replace_operators_sigils.
  rewrite <-(app_nil_r (JSON.stringify v)), sigils_stringify.
  by rewrite app_nil_r.
Qed.

(** ** Reading the text of a value back *)

Lemma list_sum_cons_eq (a : nat) l : list_sum (a :: l) = (a + list_sum l)%nat.
Proof. done. Qed.

Lemma stringify_head v :
  ∃ c t, JSON.stringify v = c :: t ∧ (c = dquote ∨ c = lbracket ∨ c = lbrace).
Proof. destruct v; cbn [JSON.stringify]; unfold quote; eauto 10. Qed.

Lemma skip_ws_other c t : JSON.is_ws c = false → JSON.skip_ws (c :: t) = c :: t.
Proof. intros Hc. cbn [JSON.skip_ws]. by rewrite Hc. Qed.

Lemma parse_elements_stringify l :
  Forall (λ v, ∀ fuel rest, (nodes v ≤ fuel)%nat →
            JSON.parse_value fuel (JSON.stringify v ++ rest) =
              Some (normalize v, rest)) l →
  l ≠ [] →
  ∀ fuel acc rest,
    (list_sum (map (λ x, S (nodes x)) l) ≤ fuel)%nat →
    JSON.parse_elements fuel
      (join_with [comma] (map JSON.stringify l) ++ rbracket :: rest) acc =
      Some (JArr (acc ++ map normalize l), rest).
Proof.
  induction 1 as [|x l Hx Hl IH]; [done|]. intros _ fuel acc rest Hfuel.
  cbn [map] in Hfuel. rewrite list_sum_cons_eq in Hfuel.
  destruct fuel as [|fuel]; [lia|].
  cbn [JSON.parse_elements].
  destruct l as [|y l].
  - cbn [map join_with]. rewrite Hx by (simpl in Hfuel; lia).
    rewrite skip_ws_other by done. done.
  - cbn [map]. rewrite join_with_cons2, <-!app_assoc.
    rewrite Hx by lia. cbn [app].
    rewrite skip_ws_other by done.
    change (comma =? comma) with true. cbv iota.
    change (JSON.stringify y :: map JSON.stringify l)
      with (map JSON.stringify (y :: l)).
    rewrite IH; [|done|lia].
    by rewrite <-app_assoc.
Qed.

Lemma parse_members_stringify o :
  Forall (λ kv, ∀ fuel rest, (nodes kv.2 ≤ fuel)%nat →
            JSON.parse_value fuel (JSON.stringify kv.2 ++ rest) =
              Some (normalize kv.2, rest)) o →
  o ≠ [] →
  ∀ fuel acc rest,
    (list_sum (map (λ kv, S (nodes kv.2)) o) ≤ fuel)%nat →
    JSON.parse_members fuel
      (join_with [comma]
         (map (λ kv, quote kv.1 ++ colon :: JSON.stringify kv.2) o)
       ++ rbrace :: rest) acc =
      Some (JObj (foldl (λ acc kv, obj_set acc kv.1 kv.2) acc
                    (map (λ kv, (kv.1, normalize kv.2)) o)), rest).
Proof.
  induction 1 as [|[k x] o Hx Ho IH]; [done|]. intros _ fuel acc rest Hfuel.
  cbn [map fst snd] in Hfuel. rewrite list_sum_cons_eq in Hfuel.
  cbn [fst snd] in Hx.
  destruct fuel as [|fuel]; [lia|].
  cbn [JSON.parse_members].
  destruct o as [|[k2 y] o].
  - cbn [map join_with fst snd foldl]. unfold quote.
    cbn [app]. rewrite <-!app_assoc. cbn [app].
    rewrite skip_ws_other by done.
    change (dquote =? dquote) with true. cbv iota.
    rewrite parse_chars_escape.
    rewrite skip_ws_other by done.
    change (colon =? colon) with true. cbv iota.
    rewrite Hx by (simpl in Hfuel; lia).
    rewrite skip_ws_other by done. done.
  - cbn [map]. rewrite join_with_cons2, <-!app_assoc.
    cbn [fst snd foldl]. unfold quote at 1.
    cbn [app]. rewrite <-!app_assoc. cbn [app].
    rewrite skip_ws_other by done.
    change (dquote =? dquote) with true. cbv iota.
    rewrite parse_chars_escape.
    rewrite skip_ws_other by done.
    change (colon =? colon) with true. cbv iota.
    rewrite Hx by lia.
    rewrite skip_ws_other by done.
    change (comma =? comma) with true. cbv iota.
    change ((quote k2 ++ colon :: JSON.stringify y)
            :: map (λ kv, quote kv.1 ++ colon :: JSON.stringify kv.2) o)
      with (map (λ kv, quote kv.1 ++ colon :: JSON.stringify kv.2) ((k2, y) :: o)).
    rewrite IH; [done|done|lia].
Qed.

Lemma parse_value_stringify v fuel rest :
  (nodes v ≤ fuel)%nat →
  JSON.parse_value fuel (JSON.stringify v ++ rest) = Some (normalize v, rest).
Proof.
  revert fuel rest.
  induction v as [s|l IH|o IH] using jsval_ind; intros fuel rest Hfuel.
  - destruct fuel as [|fuel]; [simpl in Hfuel; lia|].
    cbn [JSON.stringify JSON.parse_value normalize]. unfold quote.
    cbn [app]. rewrite <-app_assoc. cbn [app].
    rewrite skip_ws_other by done.
    change (dquote =? dquote) with true. cbv iota.
    by rewrite parse_chars_escape.
  - cbn [nodes] in Hfuel. destruct fuel as [|fuel]; [lia|].
    cbn [JSON.stringify JSON.parse_value normalize app].
    rewrite skip_ws_other by done.
    change (lbracket =? dquote) with false.
    change (lbracket =? lbracket) with true. cbv iota.
    destruct l as [|x l].
    { cbn [map join_with app]. rewrite skip_ws_other by done. done. }
    rewrite <-app_assoc. cbn [app].
    destruct (stringify_head x) as (c & t & Hx & Hc).
    assert (∃ t', join_with [comma] (map JSON.stringify (x :: l))
                  ++ rbracket :: rest = c :: t') as [t' Heq].
    { destruct l; cbn [map join_with]; rewrite Hx; cbn [app]; eauto. }
    rewrite Heq.
    assert (JSON.is_ws c = false ∧ (c =? rbracket) = false) as [Hws Hrb].
    { destruct Hc as [-> | [-> | ->]]; done. }
    rewrite skip_ws_other, Hrb, <-Heq by done.
    by rewrite (parse_elements_stringify (x :: l) IH) by (done || lia).
  - cbn [nodes] in Hfuel. destruct fuel as [|fuel]; [lia|].
    cbn [JSON.stringify JSON.parse_value normalize app].
    rewrite skip_ws_other by done.
    change (lbrace =? dquote) with false.
    change (lbrace =? lbracket) with false.
    change (lbrace =? lbrace) with true. cbv iota.
    destruct o as [|[k x] o].
    { cbn [map join_with app]. rewrite skip_ws_other by done. done. }
    rewrite <-app_assoc. cbn [app]. unfold obj_of_list.
    assert (∃ t', join_with [comma]
                    (map (λ kv, quote kv.1 ++ colon :: JSON.stringify kv.2)
                       ((k, x) :: o))
                  ++ rbrace :: rest = dquote :: t') as [t' Heq].
    { destruct o; cbn [map join_with]; unfold quote; cbn [app]; eauto. }
    rewrite Heq. rewrite skip_ws_other by done.
    change (dquote =? rbrace) with false. cbv iota. rewrite <-Heq.
    by rewrite (parse_members_stringify ((k, x) :: o) IH) by (done || lia).
Qed.

Lemma length_join_with sep texts :
  (length (join_with sep texts) + length sep =
   list_sum (map (λ t, length t + length sep) texts)
   + (if texts is [] then length sep else 0))%nat.
Proof.
  induction texts as [|t [|t2 ts] IH].
  - simpl. lia.
  - simpl. lia.
  - rewrite join_with_cons2, !length_app. cbn [map] in *.
    rewrite !list_sum_cons_eq in *. lia.
Qed.

Lemma nodes_le_length v : (nodes v ≤ length (JSON.stringify v))%nat.
Proof.
  induction v as [s|l IH|o IH] using jsval_ind.
  - simpl. lia.
  - cbn [nodes JSON.stringify length]. rewrite length_app. cbn [length].
    pose proof (length_join_with [comma] (map JSON.stringify l)) as Hlen.
    cbn [length] in Hlen.
    assert (list_sum (map (λ x, S (nodes x)) l)
            ≤ list_sum (map (λ t, length t + 1) (map JSON.stringify l)))%nat.
    { clear Hlen. induction IH as [|x l Hx _ IHl]; cbn [map];
        rewrite ?list_sum_cons_eq; [done|lia]. }
    destruct (map JSON.stringify l); lia.
  - cbn [nodes JSON.stringify length]. rewrite length_app. cbn [length].
    pose proof (length_join_with [comma]
      (map (λ kv, quote kv.1 ++ colon :: JSON.stringify kv.2) o)) as Hlen.
    cbn [length] in Hlen.
    assert (list_sum (map (λ kv, S (nodes kv.2)) o)
            ≤ list_sum (map (λ t, length t + 1)
                 (map (λ kv, quote kv.1 ++ colon :: JSON.stringify kv.2) o)))%nat.
    { clear Hlen. induction IH as [|[k x] o Hx _ IHo]; cbn [map fst snd] in *.
      - done.
      - rewrite !list_sum_cons_eq, length_app. cbn [length]. lia. }
    destruct (map (λ kv, quote kv.1 ++ colon :: JSON.stringify kv.2) o); lia.
Qed.

(** [JSON.parse(JSON.stringify(v))] never throws. *)
Lemma parse_stringify v : JSON.parse (JSON.stringify v) = Some (normalize v).
Proof.
  unfold JSON.parse.
  rewrite <-(app_nil_r (JSON.stringify v)) at 2.
  rewrite parse_value_stringify; [done|].
  pose proof (nodes_le_length v). lia.
Qed.

(** The predicate that [filter] builds from the text of a value: the value
    with every key and string rewritten. *)
Lemma parse_replace_stringify v :
  JSON.parse (replace_operators (JSON.stringify v)) =
    Some (normalize (map_strings rewrite_string v)).
Proof. by rewrite replace_operators_stringify, parse_stringify. Qed.

Lemma parse_replace_stringify_wf v :
  wf_value v →
  JSON.parse (replace_operators (JSON.stringify v)) =
    Some (map_strings rewrite_string v).
Proof.
  intros Hwf. rewrite parse_replace_stringify, normalize_wf; [done|].
  apply wf_map_strings; [exact rewrite_string_inj | done].
Qed.

(** A name made of word characters that is not itself an operator is left
    as it is: [price], [salary], [jobType]. *)
Lemma rewrite_string_identifier f :
  forallb is_word f = true → f ∉ operators → rewrite_string f = f.
Proof.
  intros Hw Hop.
  assert (Hall : Forall (λ c, is_word c = true) f).
  { apply Forall_forall. intros c Hc.
    rewrite forallb_forall in Hw. apply Hw. by apply list_elem_of_In. }
  assert (Hplain : forallb is_plain f = true).
  { apply forallb_forall. intros c Hc%list_elem_of_In.
    rewrite Forall_forall in Hall. apply Hall in Hc.
    apply is_word_range in Hc as Hr. unfold is_plain, is_high, is_low.
    rewrite !andb_true_iff, !negb_true_iff, !andb_false_iff, N.leb_le,
      !N.eqb_neq, !N.leb_gt.
    unfold dquote, backslash. repeat split; [lia|lia| |lia|lia].
    intros ->. done. }
  rewrite rewrite_string_plain, replace_operators_sigils by done.
  destruct f as [|c f]; [done|].
  inversion Hall as [|? ? Hc Hf]; subst.
  rewrite sigils_cons.
  assert (word_prefix (c :: f) = c :: f) as Hwp.
  { clear -Hall. induction Hall as [|x l Hx _ IH]; [done|].
    simpl. by rewrite Hx, IH. }
  unfold matches. rewrite Hwp. unfold is_operator.
  rewrite bool_decide_eq_false_2 by done. cbn [andb negb is_word_at app].
  rewrite <-(app_nil_r f) at 1. rewrite sigils_word_run by done.
  by rewrite app_nil_r.
Qed.

(** ** Objects *)

Lemma obj_delete_filter o k : obj_delete o k = filter (λ kv, kv.1 ≠ k) o.
Proof.
  induction o as [|[k' v] o IH]; [done|]. cbn [obj_delete].
  rewrite filter_cons. cbn [fst]. rewrite IH.
  destruct (decide (k' = k)) as [->|Hne].
  - rewrite bool_decide_eq_true_2 by done. by rewrite decide_False by tauto.
  - rewrite bool_decide_eq_false_2 by done. by rewrite decide_True by done.
Qed.

Lemma foldl_obj_delete o ks :
  foldl obj_delete o ks = filter (λ kv, kv.1 ∉ ks) o.
Proof.
  revert o. induction ks as [|k ks IH]; intros o.
  - cbn [foldl]. induction o as [|kv o IHo]; [done|].
    rewrite filter_cons_True by apply not_elem_of_nil. by rewrite <-IHo.
  - cbn [foldl]. rewrite IH, obj_delete_filter, list_filter_filter.
    apply list_filter_iff. intros kv. rewrite not_elem_of_cons. tauto.
Qed.

Lemma obj_get_field_filters q k :
  k ∉ APIFilters.removeFields →
  obj_get (APIFilters.field_filters q) k = obj_get q k.
Proof.
  intros Hk. unfold APIFilters.field_filters.
  induction q as [|[k' v] q IH]; [done|].
  rewrite filter_cons. cbn [fst obj_get].
  destruct (decide (k' = k)) as [->|Hne].
  - rewrite decide_True by done. cbn [obj_get].
    by rewrite !bool_decide_eq_true_2.
  - rewrite (bool_decide_eq_false_2 (k' = k)) by done.
    destruct (decide (k' ∉ APIFilters.removeFields)); [|done]. cbn [obj_get].
    by rewrite bool_decide_eq_false_2.
Qed.

Lemma obj_get_map (f : jstring → jstring) (g : jsval → jsval) o k :
  Inj (=) (=) f →
  obj_get (map (λ kv, (f kv.1, g kv.2)) o) (f k) = g <$> obj_get o k.
Proof.
  intros Hf. induction o as [|[k' v] o IH]; [done|]. cbn [map fst snd obj_get].
  destruct (decide (k' = k)) as [->|Hne].
  - by rewrite !bool_decide_eq_true_2.
  - rewrite !bool_decide_eq_false_2; [done|done|]. intros Heq. by apply Hf in Heq.
Qed.

Lemma obj_get_map_None (f : jstring → jstring) (g : jsval → jsval) o k :
  (∀ k', f k' ≠ k) → obj_get (map (λ kv, (f kv.1, g kv.2)) o) k = None.
Proof.
  intros Hf. induction o as [|[k' v] o IH]; [done|]. cbn [map fst snd obj_get].
  by rewrite bool_decide_eq_false_2.
Qed.

Lemma wf_field_filters q :
  wf_value (JObj q) → wf_value (JObj (APIFilters.field_filters q)).
Proof.
  rewrite !wf_value_obj. intros [Hnd Hall]. unfold APIFilters.field_filters. split.
  - clear Hall. induction q as [|[k v] q IH]; [constructor|].
    cbn [fmap list_fmap fst] in Hnd. apply NoDup_cons in Hnd as [Hk Hnd].
    rewrite filter_cons. destruct (decide _); [|by apply IH].
    cbn [fmap list_fmap fst]. apply NoDup_cons. split; [|by apply IH].
    intros Hin. apply Hk.
    apply list_elem_of_fmap in Hin as ([k' v'] & -> & Hin).
    apply list_elem_of_filter in Hin as [_ Hin].
    apply list_elem_of_fmap. by exists (k', v').
  - apply Forall_forall. intros kv Hin.
    apply list_elem_of_filter in Hin as [_ Hin].
    rewrite Forall_forall in Hall. by apply Hall.
Qed.

Lemma keys_of_map_strings f v :
  Forall (λ k, ∃ k', k = f k') (keys_of (map_strings f v)).
Proof.
  induction v as [s|l IH|o IH] using jsval_ind.
  - constructor.
  - cbn [map_strings keys_of].
    induction IH as [|x l Hx _ IHl]; cbn [map concat]; [constructor|].
    by apply Forall_app.
  - cbn [map_strings keys_of].
    induction IH as [|[k x] o Hx _ IHo]; cbn [map concat fst snd]; [constructor|].
    apply Forall_app. split; [|done]. constructor; [by exists k | done].
Qed.

(** ** Conversions *)

Lemma to_string_flat v : is_flat v = true → ∃ s, to_string v = Returns s.
Proof.
  destruct v as [s|l|o]; [by exists s| |done].
  cbn [is_flat to_string]. intros Hl.
  match goal with
  | |- ∃ s, match ?each l with _ => _ end = _ =>
      assert (∃ ss, each l = Returns ss) as [ss ->]
  end; [|by eexists].
  induction l as [|x l IH]; [by eexists|].
  cbn [forallb] in Hl. apply andb_prop in Hl as [Hx Hl].
  destruct x as [s| |]; [|done..]. cbn [to_string].
  destruct (IH Hl) as [ss ->]. by eexists.
Qed.

(** [parseInt] throws for no absent, string or array-of-strings value. *)
Lemma parseInt_flat p :
  (∀ v, p = Some v → is_flat v = true) → ∃ n, parseInt p = Returns n.
Proof.
  intros Hp. unfold parseInt. destruct p as [v|]; cbn [to_string_prop].
  - destruct (to_string_flat v (Hp v eq_refl)) as [s ->]. by eexists.
  - by eexists.
Qed.

Lemma to_string_error v e : to_string v = Throws e → e = TypeError.
Proof.
  revert e.
  induction v as [s|l IH|o IH] using jsval_ind; intros e; cbn [to_string];
    [done| |].
  - match goal with
    | |- match ?each l with _ => _ end = _ → _ =>
        assert (∀ e', each l = Throws e' → e' = TypeError) as Heach
    end.
    { induction IH as [|x l Hx _ IHl]; [done|]. intros e'.
      destruct (to_string x) as [ex|s]; [intros [= <-]; by apply Hx|].
      match goal with
      | |- match ?each l with _ => _ end = _ → _ =>
          destruct (each l) as [el|ss]; [|done]
      end.
      intros [= <-]. by apply IHl. }
    match goal with
    | |- match ?each l with _ => _ end = _ → _ =>
        destruct (each l) as [el|ss]; [|done]
    end.
    intros [= <-]. by apply Heach.
  - destruct (obj_get o (js "toString")); [by intros [= <-] | done].
Qed.

Lemma parseInt_error p e : parseInt p = Throws e → e = TypeError.
Proof.
  unfold parseInt. destruct p as [v|]; cbn [to_string_prop]; [|done].
  destruct (to_string v) as [e'|s] eqn:Hv; [|done].
  intros [= <-]. by apply (to_string_error v).
Qed.

(** ** Numbers *)

Lemma round_double_exact z : (Z.abs z < 2 ^ 53)%Z → round_double z = Int z.
Proof.
  intros Hz. unfold round_double.
  by rewrite (proj2 (Z.ltb_lt (Z.abs z) (2 ^ 53))).
Qed.

(** Below 2^53 the difference of two integers is exact. *)
Lemma sub_exact a b :
  (Z.abs (a - b) < 2 ^ 53)%Z → sub (Int a) (Int b) = Int (a - b).
Proof.
  intros Hab. cbn [sub finite_value].
  destruct (Z.eqb_spec (a - b) 0) as [->|_]; [done|].
  by apply round_double_exact.
Qed.

(** Below 2^53 the product of two integers is exact; a product of zero
    has the sign of its factors. *)
Lemma mul_exact a b :
  (Z.abs (a * b) < 2 ^ 53)%Z →
  mul (Int a) (Int b) =
    if (a * b =? 0)%Z && xorb (a <? 0)%Z (b <? 0)%Z then NegZero
    else Int (a * b).
Proof.
  intros Hab. cbn [mul finite_value sign_bit].
  destruct (Z.eqb_spec (a * b) 0) as [->|_].
  - by destruct (xorb _ _).
  - by apply round_double_exact.
Qed.

Lemma or_default_Int z d :
  or_default (Int z) d = Int (if (z =? 0)%Z then d else z).
Proof. cbn [or_default]. by destruct (z =? 0)%Z. Qed.

(** The double model agrees with the standard library's binary64 on the
    sample integers: rounding, and the product and the difference of every
    two of the rounded samples. *)
Lemma round_double_binary64 :
  forallb (λ z, same_number (round_double z)
                  (binary64 (binary_normalize 53 1024 z 0 false)))
    double_samples = true.
Proof. vm_compute. reflexivity. Qed.

Lemma mul_sub_binary64 :
  forallb (λ a, forallb (λ b,
      let x := round_double a in
      let y := round_double b in
      same_number (mul x y)
        (binary64 (SFmul 53 1024 (to_binary64 x) (to_binary64 y)))
      && same_number (sub x y)
           (binary64 (SFsub 53 1024 (to_binary64 x) (to_binary64 y))))
    double_samples) double_samples = true.
Proof. vm_compute. reflexivity. Qed.

(** ** The store *)

Section Stages.
Context {H : Type} `{Query.Handle H}.
Implicit Types (b : APIFilters.t H) (σ : store).

Lemma bind_run {A B} (m : M A) (k : A → M B) σ :
  (m ≫= k) σ =
    match m σ with
    | (σ', Returns a) => k a σ'
    | (σ', Throws e) => (σ', Throws e)
    end.
Proof. done. Qed.

Lemma bind_get_prop {B} r key (k : option jsval → M B) σ q :
  σ !! r = Some q → (get_prop r key ≫= k) σ = k (obj_get q key) σ.
Proof. intros Hq. rewrite bind_run. unfold get_prop. by rewrite Hq. Qed.

Lemma bind_get_prop_None {B} r key (k : option jsval → M B) σ :
  σ !! r = None → (get_prop r key ≫= k) σ = (σ, Throws TypeError).
Proof. intros Hq. rewrite bind_run. unfold get_prop. by rewrite Hq. Qed.

Lemma bind_lift {A B} (r : outcome A) (k : A → M B) σ :
  (lift r ≫= k) σ =
    match r with Returns a => k a σ | Throws e => (σ, Throws e) end.
Proof. rewrite bind_run. unfold lift. by destruct r. Qed.

Lemma forEach_delete_prop r ks σ o :
  σ !! r = Some o →
  forEach ks (delete_prop r) σ = (<[r := foldl obj_delete o ks]> σ, Returns tt).
Proof.
  revert σ o. induction ks as [|k ks IH]; intros σ o Ho.
  - cbn [forEach foldl]. by rewrite insert_id.
  - cbn [forEach foldl]. rewrite bind_run. unfold delete_prop at 1.
    rewrite Ho. rewrite (IH _ (obj_delete o k)) by apply lookup_insert_eq.
    by rewrite insert_insert_eq.
Qed.

(** What [filter] does: the copy goes to a fresh reference, and the
    predicate is the rewrite of the properties that are not reserved. *)
Lemma filter_run b σ q :
  σ !! APIFilters.queryStr b = Some q →
  APIFilters.filter b σ =
    (<[fresh (dom σ) := APIFilters.field_filters q]> σ,
     Returns (APIFilters.set_query b
                (Query.find (APIFilters.query b)
                   (normalize (map_strings rewrite_string
                                 (JObj (APIFilters.field_filters q))))))).
Proof.
  intros Hq. unfold APIFilters.filter.
  rewrite bind_run. unfold spread at 1. rewrite Hq. cbn [default].
  rewrite bind_run.
  rewrite (forEach_delete_prop _ _ _ q) by apply lookup_insert_eq.
  rewrite insert_insert_eq, foldl_obj_delete.
  fold (APIFilters.field_filters q).
  rewrite bind_run. unfold stringify_ref. rewrite lookup_insert_eq.
  by rewrite parse_replace_stringify.
Qed.

Lemma sort_run b σ q :
  σ !! APIFilters.queryStr b = Some q →
  APIFilters.sort b σ =
    (σ,
     match obj_get q (js "sort") with
     | None | Some (JStr []) =>
         Returns (APIFilters.set_query b
                    (Query.sort (APIFilters.query b) (js "-postingDate")))
     | Some (JStr s) =>
         Returns (APIFilters.set_query b
                    (Query.sort (APIFilters.query b)
                       (join_with [space] (split comma s))))
     | Some _ => Throws TypeError
     end).
Proof.
  intros Hq. unfold APIFilters.sort. rewrite (bind_get_prop _ _ _ _ q) by done.
  destruct (obj_get q (js "sort")) as [[[|c s]|l|o]|]; done.
Qed.

Lemma limitFields_run b σ q :
  σ !! APIFilters.queryStr b = Some q →
  APIFilters.limitFields b σ =
    (σ,
     match obj_get q (js "fields") with
     | None | Some (JStr []) =>
         Returns (APIFilters.set_query b
                    (Query.select (APIFilters.query b) (js "-__v")))
     | Some (JStr s) =>
         Returns (APIFilters.set_query b
                    (Query.select (APIFilters.query b)
                       (join_with [space] (split comma s))))
     | Some _ => Throws TypeError
     end).
Proof.
  intros Hq. unfold APIFilters.limitFields.
  rewrite (bind_get_prop _ _ _ _ q) by done.
  destruct (obj_get q (js "fields")) as [[[|c s]|l|o]|]; done.
Qed.

Lemma searchByQuery_run b σ q :
  σ !! APIFilters.queryStr b = Some q →
  APIFilters.searchByQuery b σ =
    (σ,
     match obj_get q (js "q") with
     | None | Some (JStr []) => Returns b
     | Some (JStr s) =>
         Returns (APIFilters.set_query b
                    (Query.find (APIFilters.query b)
                       (APIFilters.search_phrase
                          (join_with [space] (split hyphen s)))))
     | Some _ => Throws TypeError
     end).
Proof.
  intros Hq. unfold APIFilters.searchByQuery.
  rewrite (bind_get_prop _ _ _ _ q) by done.
  destruct (obj_get q (js "q")) as [[[|c s]|l|o]|]; done.
Qed.

Lemma pagination_run b σ q :
  σ !! APIFilters.queryStr b = Some q →
  APIFilters.pagination b σ =
    (σ,
     match parseInt (obj_get q (js "page")) with
     | Throws e => Throws e
     | Returns np =>
         match parseInt (obj_get q (js "limit")) with
         | Throws e => Throws e
         | Returns nl =>
             Returns (APIFilters.set_query b
                        (Query.limit
                           (Query.skip (APIFilters.query b)
                              (mul (sub (or_default np 1) (Int 1))
                                 (or_default nl 10)))
                           (or_default nl 10)))
         end
     end).
Proof.
  intros Hq. unfold APIFilters.pagination.
  rewrite (bind_get_prop _ _ _ _ q) by done. rewrite bind_lift.
  destruct (parseInt (obj_get q (js "page"))) as [e|np]; [done|].
  rewrite (bind_get_prop _ _ _ _ q) by done. rewrite bind_lift.
  by destruct (parseInt (obj_get q (js "limit"))) as [e|nl].
Qed.

(** No stage writes to an object that was in the store before the call,
    and no stage changes the reference the builder holds. *)
Lemma call_frame s b σ q :
  σ !! APIFilters.queryStr b = Some q →
  (∀ r o, σ !! r = Some o → (APIFilters.call s b σ).1 !! r = Some o) ∧
  (∀ b', (APIFilters.call s b σ).2 = Returns b' →
         APIFilters.queryStr b' = APIFilters.queryStr b).
Proof.
  intros Hq. destruct s; cbn [APIFilters.call].
  - rewrite (filter_run _ _ q) by done. cbn [fst snd]. split.
    + intros r o Hr. rewrite lookup_insert_ne; [done|].
      intros <-. pose proof (is_fresh (dom σ)) as Hfresh.
      apply Hfresh. apply elem_of_dom. eauto.
    + by intros b' [= <-].
  - rewrite (sort_run _ _ q) by done. cbn [fst snd]. split; [done|].
    intros b'. destruct (obj_get q (js "sort")) as [[[|c s]|l|o]|];
      by intros [= <-].
  - rewrite (limitFields_run _ _ q) by done. cbn [fst snd]. split; [done|].
    intros b'. destruct (obj_get q (js "fields")) as [[[|c s]|l|o]|];
      by intros [= <-].
  - rewrite (searchByQuery_run _ _ q) by done. cbn [fst snd]. split; [done|].
    intros b'. destruct (obj_get q (js "q")) as [[[|c s]|l|o]|];
      by intros [= <-].
  - rewrite (pagination_run _ _ q) by done. cbn [fst snd]. split; [done|].
    intros b'. destruct (parseInt (obj_get q (js "page"))); [done|].
    destruct (parseInt (obj_get q (js "limit"))); [done|].
    by intros [= <-].
Qed.

Lemma chain_frame ss b σ q :
  σ !! APIFilters.queryStr b = Some q →
  (∀ r o, σ !! r = Some o → (APIFilters.chain ss b σ).1 !! r = Some o) ∧
  (∀ b', (APIFilters.chain ss b σ).2 = Returns b' →
         APIFilters.queryStr b' = APIFilters.queryStr b).
Proof.
  revert b σ. induction ss as [|s ss IH]; intros b σ Hq.
  - cbn [APIFilters.chain]. split; [done|]. by intros b' [= <-].
  - cbn [APIFilters.chain]. rewrite bind_run.
    destruct (call_frame s b σ q Hq) as [Hstore Href].
    destruct (APIFilters.call s b σ) as [σ1 [e|b1]] eqn:Hcall;
      cbn [fst snd] in *; [by split|].
    specialize (Href b1 eq_refl).
    destruct (IH b1 σ1) as [Hstore' Href'].
    { rewrite Href. by apply Hstore. }
    split.
    + intros r o Hr. by apply Hstore', Hstore.
    + intros b' Hb'. rewrite <-Href. by apply Href'.
Qed.

End Stages.

(** ** [split] and [join] *)

Lemma split_nonempty sep s : split sep s ≠ [].
Proof.
  destruct s as [|c s]; [done|]. cbn [split].
  destruct (c =? sep); [done|]. by destruct (split sep s).
Qed.

Lemma join_with_cons_cons sep c p ps :
  join_with sep ((c :: p) :: ps) = c :: join_with sep (p :: ps).
Proof. by destruct ps. Qed.

(** Splitting at one code unit and joining with another replaces every
    occurrence of the first by the second. *)
Lemma join_split sep sep' s :
  join_with [sep'] (split sep s) = map (λ c, if c =? sep then sep' else c) s.
Proof.
  induction s as [|c s IH]; [done|]. cbn [split map].
  destruct (c =? sep).
  - pose proof (split_nonempty sep s) as Hne.
    destruct (split sep s) as [|p ps]; [done|].
    rewrite join_with_cons2. cbn [app]. by rewrite IH.
  - pose proof (split_nonempty sep s) as Hne.
    destruct (split sep s) as [|p ps]; [done|].
    by rewrite join_with_cons_cons, IH.
Qed.

Lemma split_app_sep sep n t :
  sep ∉ n → split sep (n ++ sep :: t) = n :: split sep t.
Proof.
  induction n as [|c n IH]; intros Hn.
  - cbn [app split]. by rewrite N.eqb_refl.
  - apply not_elem_of_cons in Hn as [Hc Hn]. cbn [app split].
    rewrite (proj2 (N.eqb_neq c sep)) by done. by rewrite IH.
Qed.

Lemma split_no_sep sep n : sep ∉ n → split sep n = [n].
Proof.
  induction n as [|c n IH]; intros Hn; [done|].
  apply not_elem_of_cons in Hn as [Hc Hn]. cbn [split].
  rewrite (proj2 (N.eqb_neq c sep)) by done. by rewrite IH.
Qed.

(** A list of names that do not hold the separator is what splitting the
    joined names gives back. *)
Lemma split_join sep names :
  names ≠ [] → Forall (λ n, sep ∉ n) names →
  split sep (join_with [sep] names) = names.
Proof.
  intros Hne Hall. induction Hall as [|n names Hn Hall IH]; [done|].
  destruct names as [|m names].
  - cbn [join_with]. by apply split_no_sep.
  - rewrite join_with_cons2. cbn [app]. rewrite split_app_sep by done.
    by rewrite IH.
Qed.

Lemma join_with_nonempty sep n names : n ≠ [] → join_with sep (n :: names) ≠ [].
Proof. destruct n; [done|]. by destruct names. Qed.

Lemma obj_get_field_filters_reserved q k :
  k ∈ APIFilters.removeFields → obj_get (APIFilters.field_filters q) k = None.
Proof.
  intros Hk. unfold APIFilters.field_filters.
  induction q as [|[k' v] q IH]; [done|].
  rewrite filter_cons. cbn [fst].
  destruct (decide (k' ∉ APIFilters.removeFields)) as [Hk'|_]; [|done].
  cbn [obj_get]. rewrite bool_decide_eq_false_2; [done|]. by intros ->.
Qed.

Lemma fmap_fst_map_strings (o : object) :
  (map (λ kv, (rewrite_string kv.1, map_strings rewrite_string kv.2)) o).*1
  = rewrite_string <$> o.*1.
Proof.
  induction o as [|[k x] o IH]; [done|].
  cbn [map fmap list_fmap fst]. f_equal. exact IH.
Qed.

(** ** The stage methods *)

Section StageProperties.
Context {H : Type} `{Query.Handle H}.
Implicit Types (b : APIFilters.t H) (σ : store).

(** C1 (as amended).  When a field-filter key [f] (not one of the five
    reserved keys) that the operator rewrite leaves unchanged holds an
    object with an operator key [op] (gt, gte, lt, lte or in), [filter]
    narrows the query with a predicate that has, on field [f], the key
    [$op] with the rewritten value and no key [op]; and no key anywhere in
    the predicate is a bare operator. *)
Theorem filter_comparison_operator σ b q f op o v :
  σ !! APIFilters.queryStr b = Some q →
  wf_value (JObj q) →
  f ∉ APIFilters.removeFields →
  rewrite_string f = f →
  op ∈ operators →
  obj_get q f = Some (JObj o) →
  obj_get o op = Some v →
  ∃ σ' p o',
    APIFilters.filter b σ =
      (σ', Returns (APIFilters.set_query b
                      (Query.find (APIFilters.query b) (JObj p)))) ∧
    obj_get p f = Some (JObj o') ∧
    obj_get o' (dollar :: op) = Some (map_strings rewrite_string v) ∧
    obj_get o' op = None ∧
    Forall (λ k, k ∉ operators) (keys_of (JObj p)).
Proof.
  intros Hq Hwf Hf Hfix Hop Ho Hv.
  rewrite (filter_run _ _ q) by done.
  pose proof (wf_field_filters q Hwf) as Hwf'.
  rewrite normalize_wf by (apply wf_map_strings; [exact rewrite_string_inj | done]).
  eexists _, _, _. split; [reflexivity|].
  assert (obj_get (APIFilters.field_filters q) f = Some (JObj o)) as Hff
    by (by rewrite obj_get_field_filters).
  split; [|split; [|split]].
  - rewrite <-Hfix at 1. rewrite obj_get_map by exact rewrite_string_inj.
    rewrite Hff. reflexivity.
  - rewrite <-(rewrite_string_operator op) by done.
    rewrite obj_get_map by exact rewrite_string_inj. by rewrite Hv.
  - apply obj_get_map_None. intros k' Hk'.
    apply (rewrite_string_not_operator k'). by rewrite Hk'.
  - eapply Forall_impl; [apply (keys_of_map_strings rewrite_string
                                  (JObj (APIFilters.field_filters q)))|].
    intros k (k' & ->). apply rewrite_string_not_operator.
Qed.

(** C2 (as amended).  When [page] and [limit] parse as the integers [p]
    and [l], [pagination] takes page [p'] and limit [l'], where a zero is
    replaced by the default (page 1, limit 10) and any other value,
    negative ones included, is used as it is; it limits to [l'] and skips
    the product of [p' - 1] and [l'] as a double.  As long as [p' - 1]
    and the product stay below 2^53 in magnitude the skip is
    [(p' - 1) * l'] exactly (minus zero when the page is 1 and the limit
    negative): for non-zero [p] and [l] it is [(p - 1) * l], a negative
    number for a negative page. *)
Theorem pagination_skip_limit σ b q p l :
  σ !! APIFilters.queryStr b = Some q →
  parseInt (obj_get q (js "page")) = Returns (Int p) →
  parseInt (obj_get q (js "limit")) = Returns (Int l) →
  let p' := if (p =? 0)%Z then 1%Z else p in
  let l' := if (l =? 0)%Z then 10%Z else l in
  APIFilters.pagination b σ =
    (σ, Returns (APIFilters.set_query b
                   (Query.limit
                      (Query.skip (APIFilters.query b)
                         (mul (sub (Int p') (Int 1)) (Int l')))
                      (Int l')))) ∧
  ((Z.abs (p' - 1) < 2 ^ 53)%Z → (Z.abs ((p' - 1) * l') < 2 ^ 53)%Z →
   mul (sub (Int p') (Int 1)) (Int l') =
     if (p' =? 1)%Z && (l' <? 0)%Z then NegZero
     else Int ((p' - 1) * l')) ∧
  (p ≠ 0%Z → l ≠ 0%Z →
   (Z.abs (p - 1) < 2 ^ 53)%Z → (Z.abs ((p - 1) * l) < 2 ^ 53)%Z →
   APIFilters.pagination b σ =
     (σ, Returns (APIFilters.set_query b
                    (Query.limit
                       (Query.skip (APIFilters.query b)
                          (if (p =? 1)%Z && (l <? 0)%Z then NegZero
                           else Int ((p - 1) * l)))
                       (Int l))))).
Proof.
  intros Hq Hp Hl p' l'.
  assert (Hrun : APIFilters.pagination b σ =
    (σ, Returns (APIFilters.set_query b
                   (Query.limit
                      (Query.skip (APIFilters.query b)
                         (mul (sub (Int p') (Int 1)) (Int l')))
                      (Int l'))))).
  { rewrite (pagination_run _ _ q) by done. rewrite Hp, Hl.
    by rewrite !or_default_Int. }
  assert (Hexact : ∀ x y, y ≠ 0%Z →
            (Z.abs (x - 1) < 2 ^ 53)%Z → (Z.abs ((x - 1) * y) < 2 ^ 53)%Z →
            mul (sub (Int x) (Int 1)) (Int y) =
              if (x =? 1)%Z && (y <? 0)%Z then NegZero
              else Int ((x - 1) * y)).
  { intros x y Hy Hx Hxy. rewrite sub_exact, mul_exact by done.
    destruct (Z.eqb_spec x 1) as [->|Hx1].
    - cbn [Z.sub Z.add Z.opp Z.pos_sub Z.mul Z.eqb andb Z.ltb Z.compare xorb].
      by destruct (y <? 0)%Z.
    - rewrite (proj2 (Z.eqb_neq ((x - 1) * y) 0)) by nia. done. }
  assert (l' ≠ 0%Z) as Hl'.
  { unfold l'. destruct (Z.eqb_spec l 0); [done|done]. }
  split; [exact Hrun|]. split.
  - intros Hb1 Hb2. by apply Hexact.
  - intros Hp0 Hl0 Hb1 Hb2. rewrite Hrun. unfold p', l'.
    rewrite (proj2 (Z.eqb_neq p 0)), (proj2 (Z.eqb_neq l 0)) by done.
    by rewrite Hexact.
Qed.

(** C3.  [filter] leaves the reserved keys sort, fields, q, limit and page
    out: the predicate has none of them as a key, its keys are the
    rewritten keys of the other parameters, in their order, each holding
    the rewritten value of its parameter, and it is the empty object when
    every key of the parameters is reserved. *)
Theorem filter_ignores_reserved σ b q :
  σ !! APIFilters.queryStr b = Some q →
  wf_value (JObj q) →
  let reserved := [js "sort"; js "fields"; js "q"; js "limit"; js "page"] in
  ∃ σ' p,
    APIFilters.filter b σ =
      (σ', Returns (APIFilters.set_query b
                      (Query.find (APIFilters.query b) (JObj p)))) ∧
    (∀ k, k ∈ reserved → obj_get p k = None) ∧
    p.*1 = rewrite_string <$> filter (λ k, k ∉ reserved) q.*1 ∧
    (∀ k, k ∉ reserved →
          obj_get p (rewrite_string k)
          = map_strings rewrite_string <$> obj_get q k) ∧
    (Forall (λ kv, kv.1 ∈ reserved) q → p = []).
Proof.
  intros Hq Hwf reserved.
  change reserved with APIFilters.removeFields. clear reserved.
  rewrite (filter_run _ _ q) by done.
  pose proof (wf_field_filters q Hwf) as Hwf'.
  rewrite normalize_wf by (apply wf_map_strings; [exact rewrite_string_inj | done]).
  cbn [map_strings]. eexists _, _. split; [reflexivity|].
  split; [|split; [|split]].
  - intros k Hk.
    assert (rewrite_string k = k) as Hfix.
    { unfold APIFilters.removeFields in Hk.
      repeat (apply elem_of_cons in Hk as [->|Hk]; [vm_compute; reflexivity|]).
      by apply elem_of_nil in Hk. }
    rewrite <-Hfix at 1. rewrite obj_get_map by exact rewrite_string_inj.
    by rewrite obj_get_field_filters_reserved.
  - rewrite fmap_fst_map_strings. f_equal. unfold APIFilters.field_filters.
    clear. induction q as [|[k x] q IH]; [done|].
    rewrite fmap_cons, !filter_cons. cbn [fst].
    destruct (decide (k ∉ APIFilters.removeFields));
      [by rewrite fmap_cons, IH | done].
  - intros k Hk. rewrite obj_get_map by exact rewrite_string_inj.
    by rewrite obj_get_field_filters.
  - intros Hall.
    replace (APIFilters.field_filters q) with (@nil (jstring * jsval)); [done|].
    symmetry. clear Hq Hwf Hwf'. unfold APIFilters.field_filters.
    induction Hall as [|kv q Hkv _ IH]; [done|].
    rewrite filter_cons_False; [done|]. intros Hn. by apply Hn.
Qed.

(** C4 (as amended).  When [page] is absent or its string does not start
    with an integer the page is 1, and when [limit] is absent or does not
    parse the limit is 10; a page of ["abc"] gives what an absent page
    gives.  [pagination] returns without an error when [page] and [limit]
    are absent, strings or arrays of strings.  It throws a [TypeError]
    when [page] or [limit] has no conversion to a string, as an object
    with an own [toString] property has none. *)
Theorem pagination_defaults σ b q :
  σ !! APIFilters.queryStr b = Some q →
  let page := obj_get q (js "page") in
  let limit := obj_get q (js "limit") in
  (page = None ∨ parseInt page = Returns NaN →
   limit = None ∨ parseInt limit = Returns NaN →
   APIFilters.pagination b σ =
     (σ, Returns (APIFilters.set_query b
                    (Query.limit (Query.skip (APIFilters.query b) (Int 0))
                       (Int 10))))) ∧
  (page = None ∨ parseInt page = Returns NaN →
   ∀ nl, parseInt limit = Returns nl →
   APIFilters.pagination b σ =
     (σ, Returns (APIFilters.set_query b
                    (Query.limit
                       (Query.skip (APIFilters.query b)
                          (mul (Int 0) (or_default nl 10)))
                       (or_default nl 10))))) ∧
  (limit = None ∨ parseInt limit = Returns NaN →
   ∀ np, parseInt page = Returns np →
   APIFilters.pagination b σ =
     (σ, Returns (APIFilters.set_query b
                    (Query.limit
                       (Query.skip (APIFilters.query b)
                          (mul (sub (or_default np 1) (Int 1)) (Int 10)))
                       (Int 10))))) ∧
  (page = Some (JStr (js "abc")) →
   ∀ σ0 q0,
     σ0 !! APIFilters.queryStr b = Some q0 →
     obj_get q0 (js "page") = None →
     obj_get q0 (js "limit") = limit →
     (APIFilters.pagination b σ).2 = (APIFilters.pagination b σ0).2) ∧
  ((∀ v, page = Some v → is_flat v = true) →
   (∀ v, limit = Some v → is_flat v = true) →
   ∃ b', APIFilters.pagination b σ = (σ, Returns b')) ∧
  ((∃ e, parseInt page = Throws e) ∨ (∃ e, parseInt limit = Throws e) ↔
   APIFilters.pagination b σ = (σ, Throws TypeError)) ∧
  (∀ o v, page = Some (JObj o) ∨ limit = Some (JObj o) →
          obj_get o (js "toString") = Some v →
          APIFilters.pagination b σ = (σ, Throws TypeError)).
Proof.
  intros Hq page limit.
  assert (Habsent : ∀ p, p = None ∨ parseInt p = Returns NaN →
                         parseInt p = Returns NaN).
  { intros p [->|Hp]; done. }
  rewrite (pagination_run _ _ q) by done. fold page limit.
  assert (Hthrows :
    (∃ e, parseInt page = Throws e) ∨ (∃ e, parseInt limit = Throws e) ↔
    (σ, match parseInt page with
        | Throws e => Throws e
        | Returns np =>
            match parseInt limit with
            | Throws e => Throws e
            | Returns nl =>
                Returns (APIFilters.set_query b
                           (Query.limit
                              (Query.skip (APIFilters.query b)
                                 (mul (sub (or_default np 1) (Int 1))
                                    (or_default nl 10)))
                              (or_default nl 10)))
            end
        end) = (σ, Throws TypeError)).
  { destruct (parseInt page) as [e1|np] eqn:Hp.
    { apply parseInt_error in Hp as ->. split; [done|]. intros _. left. eauto. }
    destruct (parseInt limit) as [e2|nl] eqn:Hl.
    { apply parseInt_error in Hl as ->. split; [done|]. intros _. right. eauto. }
    split; [|done]. by intros [[e [=]]|[e [=]]]. }
  split; [|split; [|split; [|split; [|split; [|split]]]]].
  - intros Hp%Habsent Hl%Habsent. by rewrite Hp, Hl.
  - intros Hp%Habsent nl Hl. by rewrite Hp, Hl.
  - intros Hl%Habsent np Hp. by rewrite Hp, Hl.
  - intros Hp σ0 q0 Hq0 Hp0 Hl0.
    rewrite (pagination_run _ _ q0) by done. rewrite Hp0, Hl0, Hp.
    cbn [snd]. fold limit. done.
  - intros [np ->]%parseInt_flat [nl ->]%parseInt_flat. by eexists.
  - exact Hthrows.
  - intros o v Hobj Hv. apply Hthrows.
    destruct Hobj as [-> | ->]; [left|right]; exists TypeError;
      unfold parseInt; cbn [to_string_prop to_string]; by rewrite Hv.
Qed.

(** C5 (as amended).  When [q] is a non-empty string, [searchByQuery]
    narrows the query with a text search for the value with every hyphen
    replaced by a space, between double quotes; when [q] is absent the
    handle is left as it is and nothing is thrown. *)
Theorem searchByQuery_phrase σ b q :
  σ !! APIFilters.queryStr b = Some q →
  (∀ s, obj_get q (js "q") = Some (JStr s) → s ≠ [] →
     let words := map (λ c, if c =? hyphen then space else c) s in
     APIFilters.searchByQuery b σ =
       (σ, Returns (APIFilters.set_query b
                      (Query.find (APIFilters.query b)
                         (JObj [(js "$text",
                                 JObj [(js "$search",
                                        JStr ([dquote] ++ words ++ [dquote]))])]))))) ∧
  (obj_get q (js "q") = None → APIFilters.searchByQuery b σ = (σ, Returns b)).
Proof.
  intros Hq. rewrite (searchByQuery_run _ _ q) by done. split.
  - intros s -> Hs words. destruct s as [|c s]; [done|].
    by rewrite join_split.
  - by intros ->.
Qed.

(** C6.  When the parameters have no [sort], the sort stage orders by
    ['-postingDate'], whatever stages were called before it. *)
Theorem sort_default_ordering ss σ b q σ1 b1 :
  σ !! APIFilters.queryStr b = Some q →
  obj_get q (js "sort") = None →
  APIFilters.chain ss b σ = (σ1, Returns b1) →
  APIFilters.sort b1 σ1 =
    (σ1, Returns (APIFilters.set_query b1
                    (Query.sort (APIFilters.query b1) (js "-postingDate")))).
Proof.
  intros Hq Hsort Hchain.
  destruct (chain_frame ss b σ q Hq) as [Hstore Href].
  rewrite Hchain in Hstore, Href. cbn [fst snd] in *.
  rewrite (sort_run _ _ q).
  - by rewrite Hsort.
  - rewrite (Href b1 eq_refl). by apply Hstore.
Qed.

(** C7.  When [fields] is a comma-separated list of names, [limitFields]
    selects the projection that lists exactly these names, separated by
    spaces; when [fields] is absent it selects ['-__v'], which hides the
    versioning field only. *)
Theorem limitFields_projection σ b q :
  σ !! APIFilters.queryStr b = Some q →
  (∀ names,
     names ≠ [] →
     Forall (λ n, n ≠ [] ∧ (comma ∉ n) ∧ (space ∉ n)) names →
     obj_get q (js "fields") = Some (JStr (join_with [comma] names)) →
     APIFilters.limitFields b σ =
       (σ, Returns (APIFilters.set_query b
                      (Query.select (APIFilters.query b)
                         (join_with [space] names)))) ∧
     split space (join_with [space] names) = names) ∧
  (obj_get q (js "fields") = None →
   APIFilters.limitFields b σ =
     (σ, Returns (APIFilters.set_query b
                    (Query.select (APIFilters.query b) (js "-__v"))))).
Proof.
  intros Hq. rewrite (limitFields_run _ _ q) by done. split.
  - intros names Hne Hall ->. split.
    + assert (join_with [comma] names ≠ []) as Hjoin.
      { destruct Hall as [|n names [Hn _] _]; [done|].
        by apply join_with_nonempty. }
      destruct (join_with [comma] names) as [|c s] eqn:Hj; [done|].
      rewrite <-Hj. rewrite split_join; [done|done|].
      eapply Forall_impl; [exact Hall|]. by intros n (_ & ? & _).
    + apply split_join; [done|].
      eapply Forall_impl; [exact Hall|]. by intros n (_ & _ & ?).
  - by intros ->.
Qed.

(** C8.  Calling [sort] again hands the handle the directive of the first
    call again, and the builder keeps the handle that this call returns
    and no other: after [n + 1] calls its query is the handle it started
    with, sorted [n + 1] times by the one directive that the parameters
    give (a [sort] that is an array or an object makes every such chain
    throw).  On a handle whose sort directive replaces the one before it,
    this is the handle sorted once: two calls, and any number of them,
    leave what one call leaves, with one directive in force. *)
Theorem sort_twice σ b q :
  σ !! APIFilters.queryStr b = Some q →
  let text := ∀ v, obj_get q (js "sort") = Some v → ∃ s, v = JStr s in
  let sortBy :=
    match obj_get q (js "sort") with
    | Some (JStr (c :: s)) => map (λ x, if x =? comma then space else x) (c :: s)
    | _ => js "-postingDate"
    end in
  (text →
   APIFilters.chain [APIFilters.Sort] b σ =
     (σ, Returns (APIFilters.set_query b
                    (Query.sort (APIFilters.query b) sortBy))) ∧
   APIFilters.chain [APIFilters.Sort; APIFilters.Sort] b σ =
     (σ, Returns (APIFilters.set_query b
                    (Query.sort (Query.sort (APIFilters.query b) sortBy)
                       sortBy))) ∧
   ∀ n, APIFilters.chain (replicate (S n) APIFilters.Sort) b σ =
          (σ, Returns (APIFilters.set_query b
                         (Nat.iter (S n) (λ h, Query.sort h sortBy)
                            (APIFilters.query b))))) ∧
  (¬ text →
   ∀ n, APIFilters.chain (replicate (S n) APIFilters.Sort) b σ =
          (σ, Throws TypeError)) ∧
  (LastSortWins H →
   APIFilters.chain [APIFilters.Sort; APIFilters.Sort] b σ =
     APIFilters.chain [APIFilters.Sort] b σ ∧
   (∀ n, APIFilters.chain (replicate (S n) APIFilters.Sort) b σ =
           APIFilters.chain [APIFilters.Sort] b σ) ∧
   (text →
    ∀ n, APIFilters.chain (replicate (S n) APIFilters.Sort) b σ =
           (σ, Returns (APIFilters.set_query b
                          (Query.sort (APIFilters.query b) sortBy))))).
Proof.
  intros Hq text sortBy.
  assert (Hone : text → ∀ b0,
            APIFilters.queryStr b0 = APIFilters.queryStr b →
            APIFilters.sort b0 σ =
              (σ, Returns (APIFilters.set_query b0
                             (Query.sort (APIFilters.query b0) sortBy)))).
  { intros Htext b0 Hb0. rewrite (sort_run _ _ q) by by rewrite Hb0.
    unfold sortBy. destruct (obj_get q (js "sort")) as [[[|c s]|l|o]|] eqn:Hs;
      try done.
    - by rewrite join_split.
    - by destruct (Htext _ eq_refl).
    - by destruct (Htext _ eq_refl). }
  assert (Hiter : text → ∀ n b0,
            APIFilters.queryStr b0 = APIFilters.queryStr b →
            APIFilters.chain (replicate n APIFilters.Sort) b0 σ =
              (σ, Returns (APIFilters.set_query b0
                             (Nat.iter n (λ h, Query.sort h sortBy)
                                (APIFilters.query b0))))).
  { intros Htext. induction n as [|n IH]; intros b0 Hb0.
    - by destruct b0.
    - cbn [replicate APIFilters.chain APIFilters.call].
      rewrite bind_run, Hone by done. rewrite IH by done.
      rewrite Nat.iter_succ_r. done. }
  assert (Hthrow : ¬ text →
            ∀ n, APIFilters.chain (replicate (S n) APIFilters.Sort) b σ =
                   (σ, Throws TypeError)).
  { intros Hno n. cbn [replicate APIFilters.chain APIFilters.call].
    rewrite bind_run, (sort_run _ _ q) by done.
    destruct (obj_get q (js "sort")) as [[s|l|o]|] eqn:Hs; try done.
    - exfalso. apply Hno. intros v [= <-]. by eexists.
    - exfalso. apply Hno. by intros v [=]. }
  assert (Hn : LastSortWins H →
            ∀ n h, Nat.iter (S n) (λ h, Query.sort h sortBy) h
                   = Query.sort h sortBy).
  { intros Hlast. induction n as [|n IH]; intros h; [done|].
    rewrite Nat.iter_succ, IH. apply Hlast. }
  assert (Hdec : text ∨ ¬ text).
  { unfold text. destruct (obj_get q (js "sort")) as [[s|l|o]|].
    - left. intros v [= <-]. by eexists.
    - right. intros Ht. by destruct (Ht _ eq_refl).
    - right. intros Ht. by destruct (Ht _ eq_refl).
    - left. by intros v [=]. }
  assert (Hsingle : text →
            APIFilters.chain [APIFilters.Sort] b σ =
              (σ, Returns (APIFilters.set_query b
                             (Query.sort (APIFilters.query b) sortBy)))).
  { intros Htext. exact (Hiter Htext 1%nat b eq_refl). }
  split; [|split; [exact Hthrow|]].
  - intros Htext. split; [by apply Hsingle|]. split.
    + exact (Hiter Htext 2%nat b eq_refl).
    + intros n. by apply Hiter.
  - intros Hlast.
    assert (Hall : ∀ n, APIFilters.chain (replicate (S n) APIFilters.Sort) b σ =
                        APIFilters.chain [APIFilters.Sort] b σ).
    { intros n. destruct Hdec as [Htext|Hno].
      - rewrite (Hiter Htext (S n)), (Hsingle Htext) by done.
        by rewrite (Hn Hlast n).
      - rewrite (Hthrow Hno n). symmetry. exact (Hthrow Hno 0%nat). }
    split; [exact (Hall 1%nat)|]. split; [exact Hall|].
    intros Htext n. rewrite (Hiter Htext) by done. by rewrite (Hn Hlast).
Qed.

(** C9.  After any chain of stage calls the builder holds the reference
    it was given, and the parameter object behind it is what it was at
    construction; so is every other object that was in the store. *)
Theorem chain_preserves_snapshot ss σ b q :
  σ !! APIFilters.queryStr b = Some q →
  (APIFilters.chain ss b σ).1 !! APIFilters.queryStr b = Some q ∧
  (∀ b', (APIFilters.chain ss b σ).2 = Returns b' →
         APIFilters.queryStr b' = APIFilters.queryStr b) ∧
  (∀ r o, σ !! r = Some o → (APIFilters.chain ss b σ).1 !! r = Some o).
Proof.
  intros Hq. destruct (chain_frame ss b σ q Hq) as [Hstore Href].
  split; [by apply Hstore|]. by split.
Qed.

(** C10.  A [sort], [fields] or [q] that is the empty string gives what
    the absent key gives: the default sort, the default projection, no
    search. *)
Theorem empty_string_as_absent σ1 σ2 b q1 q2 :
  σ1 !! APIFilters.queryStr b = Some q1 →
  σ2 !! APIFilters.queryStr b = Some q2 →
  (obj_get q1 (js "sort") = Some (JStr []) → obj_get q2 (js "sort") = None →
   (APIFilters.sort b σ1).2 = (APIFilters.sort b σ2).2 ∧
   (APIFilters.sort b σ1).2 =
     Returns (APIFilters.set_query b
                (Query.sort (APIFilters.query b) (js "-postingDate")))) ∧
  (obj_get q1 (js "fields") = Some (JStr []) → obj_get q2 (js "fields") = None →
   (APIFilters.limitFields b σ1).2 = (APIFilters.limitFields b σ2).2 ∧
   (APIFilters.limitFields b σ1).2 =
     Returns (APIFilters.set_query b
                (Query.select (APIFilters.query b) (js "-__v")))) ∧
  (obj_get q1 (js "q") = Some (JStr []) → obj_get q2 (js "q") = None →
   (APIFilters.searchByQuery b σ1).2 = (APIFilters.searchByQuery b σ2).2 ∧
   (APIFilters.searchByQuery b σ1).2 = Returns b).
Proof.
  intros Hq1 Hq2. split; [|split].
  - intros H1 H2. rewrite (sort_run _ _ q1), (sort_run _ _ q2) by done.
    by rewrite H1, H2.
  - intros H1 H2.
    rewrite (limitFields_run _ _ q1), (limitFields_run _ _ q2) by done.
    by rewrite H1, H2.
  - intros H1 H2.
    rewrite (searchByQuery_run _ _ q1), (searchByQuery_run _ _ q2) by done.
    by rewrite H1, H2.
Qed.

End StageProperties.

(** ** The stage methods on sample requests *)

(** Decides a closed decidable proposition by evaluation. *)
Ltac by_eval := apply (bool_decide_unpack _); vm_compute; reflexivity.

(** Distinct keys, for a value that is written out. *)
Ltac solve_wf := simpl; repeat split; by_eval.

(** The slot handle keeps the last sort directive only. *)
Lemma SlotHandle_last_sort_wins : LastSortWins SlotHandle.
Proof. by intros h s1 s2. Qed.

(** [?price[gte]=50]: the predicate is [{price: {$gte: "50"}}]. *)
Lemma filter_comparison_operator_witness :
  ∃ σ' p o',
    APIFilters.filter sample_builder (sample_store q_price_gte) =
      (σ', Returns (APIFilters.set_query sample_builder
                      (Query.find (APIFilters.query sample_builder) (JObj p)))) ∧
    obj_get p (js "price") = Some (JObj o') ∧
    obj_get o' (js "$gte") = Some (JStr (js "50")) ∧
    obj_get o' (js "gte") = None ∧
    Forall (λ k, k ∉ operators) (keys_of (JObj p)).
Proof.
  apply (filter_comparison_operator (sample_store q_price_gte) sample_builder
           q_price_gte (js "price") (js "gte")
           [(js "gte", JStr (js "50"))] (JStr (js "50"))).
  - reflexivity.
  - solve_wf.
  - by_eval.
  - vm_compute. reflexivity.
  - by_eval.
  - reflexivity.
  - reflexivity.
Defined.

(** With [?check-in[gte]=5] the predicate has no clause on the field
    [check-in]: the field name itself is rewritten. *)
Lemma filter_comparison_operator_counterexample :
  obj_get q_check_in (js "check-in") = Some (JObj [(js "gte", JStr (js "5"))]) ∧
  obj_get [(js "gte", JStr (js "5"))] (js "gte") = Some (JStr (js "5")) ∧
  (APIFilters.filter sample_builder (sample_store q_check_in)).2 =
    Returns (APIFilters.set_query sample_builder
               (Query.find (APIFilters.query sample_builder)
                  (JObj [(js "check-$in", JObj [(js "$gte", JStr (js "5"))])]))) ∧
  ¬ ∃ σ' p o',
      APIFilters.filter sample_builder (sample_store q_check_in) =
        (σ', Returns (APIFilters.set_query sample_builder
                        (Query.find (APIFilters.query sample_builder) (JObj p)))) ∧
      obj_get p (js "check-in") = Some (JObj o') ∧
      obj_get o' (js "$gte") = Some (JStr (js "5")).
Proof.
  split; [reflexivity|]. split; [reflexivity|].
  assert (Hrun :
    (APIFilters.filter sample_builder (sample_store q_check_in)).2 =
      Returns (APIFilters.set_query sample_builder
                 (Query.find (APIFilters.query sample_builder)
                    (JObj [(js "check-$in", JObj [(js "$gte", JStr (js "5"))])])))).
  { rewrite (filter_run _ _ q_check_in) by reflexivity. vm_compute. reflexivity. }
  split; [exact Hrun|].
  intros (σ' & p & o' & Hf & Hp & _). rewrite Hf in Hrun. cbn [snd] in Hrun.
  vm_compute in Hrun. injection Hrun as Hpred. subst p.
  vm_compute in Hp. discriminate Hp.
Qed.

(** [?page=-2&limit=7]: the skip is [(-2 - 1) * 7]. *)
Lemma pagination_skip_limit_witness :
  APIFilters.pagination sample_builder (sample_store q_page_negative) =
    (sample_store q_page_negative,
     Returns (APIFilters.set_query sample_builder
                (Query.limit
                   (Query.skip (APIFilters.query sample_builder) (Int (-21)))
                   (Int 7)))).
Proof.
  apply (proj2 (proj2 (pagination_skip_limit (sample_store q_page_negative)
                         sample_builder q_page_negative (-2)%Z 7%Z
                         eq_refl eq_refl eq_refl))); lia.
Defined.

(** With [?page=0&limit=5] the skip is 0, not [(0 - 1) * 5]: the zero page
    is replaced by page 1. *)
Lemma pagination_skip_limit_counterexample :
  parseInt (obj_get q_page_zero (js "page")) = Returns (Int 0) ∧
  parseInt (obj_get q_page_zero (js "limit")) = Returns (Int 5) ∧
  APIFilters.pagination sample_builder (sample_store q_page_zero) =
    (sample_store q_page_zero,
     Returns (APIFilters.set_query sample_builder
                (Query.limit
                   (Query.skip (APIFilters.query sample_builder) (Int 0))
                   (Int 5)))) ∧
  APIFilters.pagination sample_builder (sample_store q_page_zero) ≠
    (sample_store q_page_zero,
     Returns (APIFilters.set_query sample_builder
                (Query.limit
                   (Query.skip (APIFilters.query sample_builder)
                      (Int ((0 - 1) * 5)))
                   (Int 5)))).
Proof.
  split; [reflexivity|]. split; [reflexivity|].
  assert (Hrun :
    APIFilters.pagination sample_builder (sample_store q_page_zero) =
      (sample_store q_page_zero,
       Returns (APIFilters.set_query sample_builder
                  (Query.limit
                     (Query.skip (APIFilters.query sample_builder) (Int 0))
                     (Int 5))))).
  { by rewrite (pagination_run _ _ q_page_zero) by reflexivity. }
  split; [exact Hrun|]. rewrite Hrun. intros [= Hneq].
Qed.

(** Beyond 2^53 the numbers are rounded as doubles are:
    [?page=94906268&limit=94906267] skips 9007199515875288, one less than
    the product; 9007199254740993 parses as 9007199254740992; and 401
    digits parse as infinity. *)
Lemma pagination_rounds :
  APIFilters.pagination sample_builder (sample_store q_page_large) =
    (sample_store q_page_large,
     Returns (APIFilters.set_query sample_builder
                (Query.limit
                   (Query.skip (APIFilters.query sample_builder)
                      (Int 9007199515875288))
                   (Int 94906267)))) ∧
  parseInt_string (js "9007199254740993") = Int 9007199254740992 ∧
  parseInt_string (js "1" ++ replicate 400 48) = Infinity false.
Proof.
  split; [|split].
  - rewrite (pagination_run _ _ q_page_large) by reflexivity.
    vm_compute. reflexivity.
  - vm_compute. reflexivity.
  - vm_compute. reflexivity.
Qed.

(** [?sort=x&page=2] and [?sort=x&fields=title&q=dev&limit=5&page=2] give
    the empty predicate; of
    [?jobType=Permanent&sort=salary&q=node-js&page=2&limit=5] the predicate
    keeps [jobType] alone. *)
Lemma filter_ignores_reserved_witness :
  (∃ σ',
     APIFilters.filter sample_builder (sample_store q_sort_page) =
       (σ', Returns (APIFilters.set_query sample_builder
                       (Query.find (APIFilters.query sample_builder) (JObj []))))) ∧
  (∃ σ',
     APIFilters.filter sample_builder (sample_store q_all_reserved) =
       (σ', Returns (APIFilters.set_query sample_builder
                       (Query.find (APIFilters.query sample_builder) (JObj []))))) ∧
  (∃ σ' p,
     APIFilters.filter sample_builder (sample_store q_listing) =
       (σ', Returns (APIFilters.set_query sample_builder
                       (Query.find (APIFilters.query sample_builder) (JObj p)))) ∧
     p.*1 = [js "jobType"] ∧
     obj_get p (js "jobType") = Some (JStr (js "Permanent"))).
Proof.
  split; [|split].
  - destruct (filter_ignores_reserved (sample_store q_sort_page) sample_builder
                q_sort_page eq_refl ltac:(solve_wf))
      as (σ' & p & Hf & _ & _ & _ & Hempty).
    exists σ'. rewrite Hf, Hempty; [done|]. repeat constructor; by_eval.
  - destruct (filter_ignores_reserved (sample_store q_all_reserved)
                sample_builder q_all_reserved eq_refl ltac:(solve_wf))
      as (σ' & p & Hf & _ & _ & _ & Hempty).
    exists σ'. rewrite Hf, Hempty; [done|]. repeat constructor; by_eval.
  - destruct (filter_ignores_reserved (sample_store q_listing) sample_builder
                q_listing eq_refl ltac:(solve_wf))
      as (σ' & p & Hf & _ & Hkeys & Hget & _).
    exists σ', p. split; [exact Hf|]. split.
    + rewrite Hkeys. vm_compute. reflexivity.
    + assert (rewrite_string (js "jobType") = js "jobType") as Hfix
        by (vm_compute; reflexivity).
      rewrite <-Hfix at 1. rewrite Hget by by_eval. vm_compute. reflexivity.
Defined.

(** [?page=abc]: page 1 and limit 10. *)
Lemma pagination_defaults_witness :
  APIFilters.pagination sample_builder (sample_store q_page_abc) =
    (sample_store q_page_abc,
     Returns (APIFilters.set_query sample_builder
                (Query.limit
                   (Query.skip (APIFilters.query sample_builder) (Int 0))
                   (Int 10)))).
Proof.
  apply (proj1 (pagination_defaults (sample_store q_page_abc) sample_builder
                  q_page_abc eq_refl)).
  - right. reflexivity.
  - left. reflexivity.
Defined.

(** With [?page[toString]=1] the limit is absent, and [pagination] throws
    instead of falling back to the defaults. *)
Lemma pagination_defaults_counterexample :
  obj_get q_page_toString (js "limit") = None ∧
  APIFilters.pagination sample_builder (sample_store q_page_toString) =
    (sample_store q_page_toString, Throws TypeError) ∧
  ¬ ∃ b',
      APIFilters.pagination sample_builder (sample_store q_page_toString) =
        (sample_store q_page_toString, Returns b').
Proof.
  split; [reflexivity|].
  assert (Hrun :
    APIFilters.pagination sample_builder (sample_store q_page_toString) =
      (sample_store q_page_toString, Throws TypeError)).
  { by rewrite (pagination_run _ _ q_page_toString) by reflexivity. }
  split; [exact Hrun|]. rewrite Hrun. by intros [b' [=]].
Qed.

(** [?q=remote-engineer]: a search for the phrase [remote engineer]. *)
Lemma searchByQuery_phrase_witness :
  APIFilters.searchByQuery sample_builder (sample_store q_search) =
    (sample_store q_search,
     Returns (APIFilters.set_query sample_builder
                (Query.find (APIFilters.query sample_builder)
                   (JObj [(js "$text",
                           JObj [(js "$search",
                                  JStr ([dquote] ++ js "remote engineer" ++ [dquote]))])])))).
Proof.
  apply (proj1 (searchByQuery_phrase (sample_store q_search) sample_builder
                  q_search eq_refl) (js "remote-engineer")).
  - reflexivity.
  - discriminate.
Defined.

(** With [?q=] the parameters hold [q], and no search is applied. *)
Lemma searchByQuery_phrase_counterexample :
  obj_get q_search_empty (js "q") = Some (JStr []) ∧
  APIFilters.searchByQuery sample_builder (sample_store q_search_empty) =
    (sample_store q_search_empty, Returns sample_builder) ∧
  APIFilters.searchByQuery sample_builder (sample_store q_search_empty) ≠
    (sample_store q_search_empty,
     Returns (APIFilters.set_query sample_builder
                (Query.find (APIFilters.query sample_builder)
                   (JObj [(js "$text",
                           JObj [(js "$search",
                                  JStr ([dquote] ++
                                        map (λ c, if c =? hyphen then space else c) []
                                        ++ [dquote]))])])))).
Proof.
  split; [reflexivity|].
  assert (Hrun :
    APIFilters.searchByQuery sample_builder (sample_store q_search_empty) =
      (sample_store q_search_empty, Returns sample_builder)).
  { by rewrite (searchByQuery_run _ _ q_search_empty) by reflexivity. }
  split; [exact Hrun|]. rewrite Hrun. intros [= Hneq].
Qed.

(** [?jobType=Permanent]: after [filter], [sort] orders by ['-postingDate']. *)
Lemma sort_default_ordering_witness :
  ∃ σ1 b1,
    APIFilters.chain [APIFilters.Filter] sample_builder (sample_store q_job_type) =
      (σ1, Returns b1) ∧
    APIFilters.sort b1 σ1 =
      (σ1, Returns (APIFilters.set_query b1
                      (Query.sort (APIFilters.query b1) (js "-postingDate")))).
Proof.
  destruct (APIFilters.chain [APIFilters.Filter] sample_builder
              (sample_store q_job_type)) as [σ1 [e|b1]] eqn:Hchain.
  { exfalso. revert Hchain. cbn [APIFilters.chain APIFilters.call].
    rewrite bind_run, (filter_run _ _ q_job_type) by reflexivity. discriminate. }
  exists σ1, b1. split; [reflexivity|].
  apply (sort_default_ordering [APIFilters.Filter] (sample_store q_job_type)
           sample_builder q_job_type σ1 b1);
    [reflexivity | reflexivity | exact Hchain].
Defined.

(** [?fields=title,salary]: the projection ['title salary']. *)
Lemma limitFields_projection_witness :
  APIFilters.limitFields sample_builder (sample_store q_fields) =
    (sample_store q_fields,
     Returns (APIFilters.set_query sample_builder
                (Query.select (APIFilters.query sample_builder)
                   (js "title salary")))) ∧
  split space (js "title salary") = [js "title"; js "salary"].
Proof.
  apply (proj1 (limitFields_projection (sample_store q_fields) sample_builder
                  q_fields eq_refl) [js "title"; js "salary"]).
  - discriminate.
  - repeat constructor; (discriminate || by_eval).
  - reflexivity.
Defined.

(** [?sort=x&page=2] on the slot handle: sorting twice is sorting once, and
    after three calls the one directive in force is [x]. *)
Lemma sort_twice_witness :
  APIFilters.chain [APIFilters.Sort; APIFilters.Sort] sample_builder
    (sample_store q_sort_page) =
  APIFilters.chain [APIFilters.Sort] sample_builder (sample_store q_sort_page) ∧
  APIFilters.chain [APIFilters.Sort; APIFilters.Sort; APIFilters.Sort]
    sample_builder (sample_store q_sort_page) =
  (sample_store q_sort_page,
   Returns (APIFilters.set_query sample_builder
              {| predicates := []; ordering := Some (js "x");
                 projection := None; offset := None; count := None |})).
Proof.
  destruct (sort_twice (sample_store q_sort_page) sample_builder q_sort_page
              eq_refl) as (_ & _ & Hlast).
  destruct (Hlast SlotHandle_last_sort_wins) as (Htwice & _ & Hn).
  split; [exact Htwice|]. apply (Hn ltac:(intros v [= <-]; by eexists) 2%nat).
Defined.

(** [?sort=x&page=2]: the parameter object after all five stages. *)
Lemma chain_preserves_snapshot_witness :
  (APIFilters.chain
     [APIFilters.Filter; APIFilters.Sort; APIFilters.LimitFields;
      APIFilters.SearchByQuery; APIFilters.Pagination]
     sample_builder (sample_store q_sort_page)).1 !! 1%positive
  = Some q_sort_page.
Proof.
  apply (proj1 (chain_preserves_snapshot
                  [APIFilters.Filter; APIFilters.Sort; APIFilters.LimitFields;
                   APIFilters.SearchByQuery; APIFilters.Pagination]
                  (sample_store q_sort_page) sample_builder q_sort_page eq_refl)).
Defined.

(** [?sort=&fields=&q=] is sorted as [?jobType=Permanent] is. *)
Lemma empty_string_as_absent_witness :
  (APIFilters.sort sample_builder (sample_store q_all_empty)).2 =
  (APIFilters.sort sample_builder (sample_store q_job_type)).2.
Proof.
  apply (proj1 (empty_string_as_absent (sample_store q_all_empty)
                  (sample_store q_job_type) sample_builder q_all_empty
                  q_job_type eq_refl eq_refl)); reflexivity.
Defined.

(** * Further properties of the builder and of its callers *)

(** ** Texts without operator words *)

Lemma words_head s : ∃ ws, words s = word_prefix s :: ws.
Proof.
  induction s as [|c s [ws IH]]; [by exists []|]. cbn [words word_prefix].
  destruct (is_word c); [|by eexists]. rewrite IH. by eexists.
Qed.

Lemma words_tail_word c s : is_word c = true → tail (words (c :: s)) = tail (words s).
Proof.
  intros Hc. cbn [words]. rewrite Hc.
  by destruct (words_head s) as [ws ->].
Qed.

Lemma words_sep c s : is_word c = false → words (c :: s) = [] :: words s.
Proof. intros Hc. cbn [words]. by rewrite Hc. Qed.

Lemma not_operator_nil : is_operator [] = false.
Proof. done. Qed.

(** Where no word is an operator the replacement has nothing to do. *)
Lemma sigils_no_operator s b :
  is_word_at b = true ∨ is_operator (word_prefix s) = false →
  Forall (λ w, is_operator w = false) (tail (words s)) →
  sigils b s = s.
Proof.
  revert b. induction s as [|c s IH]; intros b Hhead Htail; [done|].
  rewrite sigils_cons.
  assert (matches b (c :: s) = false) as ->.
  { unfold matches. destruct Hhead as [-> | ->]; [done|]. apply andb_false_r. }
  cbn [app]. f_equal. destruct (is_word c) eqn:Hc.
  - apply IH; [by left; cbn [is_word_at]|]. by rewrite <-(words_tail_word c).
  - rewrite words_sep in Htail by done. cbn [tail] in Htail.
    destruct (words_head s) as [ws Hws]. rewrite Hws in Htail.
    apply Forall_cons in Htail as [Hw Hws'].
    apply IH; [by right|]. by rewrite Hws.
Qed.

Lemma rewrite_string_operator_free s : operator_free s = true → rewrite_string s = s.
Proof.
  unfold operator_free. intros [Hplain Hwords]%andb_prop.
  rewrite rewrite_string_plain, replace_operators_sigils by done.
  rewrite forallb_forall in Hwords.
  assert (Forall (λ w, is_operator w = false) (words s)) as Hall.
  { apply Forall_forall. intros w Hw. apply negb_true_iff, Hwords.
    by apply list_elem_of_In. }
  destruct (words_head s) as [ws Hws]. rewrite Hws in Hall.
  apply Forall_cons in Hall as [Hw Hall].
  apply sigils_no_operator; [by right|]. by rewrite Hws.
Qed.

Lemma map_strings_id f v :
  Forall (λ s, f s = s) (strings_of v) → map_strings f v = v.
Proof.
  induction v as [s|l IH|o IH] using jsval_ind; cbn [strings_of map_strings].
  - by intros [-> _]%Forall_cons.
  - intros Hall. f_equal.
    induction IH as [|x l Hx _ IHl]; [done|].
    cbn [map concat] in Hall |- *. apply Forall_app in Hall as [H1 H2].
    by rewrite Hx, IHl.
  - intros Hall. f_equal.
    induction IH as [|[k x] o Hx _ IHo]; [done|].
    cbn [map concat fst snd] in Hall |- *.
    apply Forall_app in Hall as [H1 H2]. apply Forall_cons in H1 as [Hk H1].
    cbn [snd] in Hx. by rewrite Hk, Hx, IHo.
Qed.

Lemma keys_of_map_strings_eq f v :
  keys_of (map_strings f v) = f <$> keys_of v.
Proof.
  induction v as [s|l IH|o IH] using jsval_ind; cbn [map_strings keys_of].
  - done.
  - induction IH as [|x l Hx _ IHl]; [done|].
    cbn [map concat]. by rewrite fmap_app, Hx, IHl.
  - induction IH as [|[k x] o Hx _ IHo]; [done|].
    cbn [map concat fst snd] in *. rewrite fmap_app, fmap_cons.
    by rewrite Hx, IHo.
Qed.

(** ** [parseInt] *)

Lemma trim_start_app_end s c t :
  is_str_whitespace c = false →
  trim_start (s ++ c :: t) = trim_start s ++ c :: t.
Proof.
  intros Hc. induction s as [|x s IH]; cbn [app trim_start].
  - by rewrite Hc.
  - by destruct (is_str_whitespace x).
Qed.

Lemma digits_app_end acc s c t :
  is_digit c = false → digits acc (s ++ c :: t) = digits acc s.
Proof.
  intros Hc. revert acc. induction s as [|x s IH]; intros acc; cbn [app digits].
  - by rewrite Hc.
  - by destruct (is_digit x).
Qed.

Lemma parseInt_string_end s c t :
  ends_number c = true → parseInt_string (s ++ c :: t) = parseInt_string s.
Proof.
  unfold ends_number.
  intros [[[Hd%negb_true_iff Hw%negb_true_iff]%andb_prop
           Hm%negb_true_iff]%andb_prop Hp%negb_true_iff]%andb_prop.
  unfold parseInt_string. rewrite trim_start_app_end by done.
  destruct (trim_start s) as [|x s']; cbn [app].
  - rewrite Hm, Hp. cbn [digits]. by rewrite Hd.
  - destruct (x =? 45); [by rewrite digits_app_end|].
    destruct (x =? 43); [by rewrite digits_app_end|].
    change (x :: s' ++ c :: t) with ((x :: s') ++ c :: t).
    by rewrite digits_app_end.
Qed.

(** The strings of an array of flat values, joined. *)
Lemma to_string_flat_cons s x l :
  is_flat (JArr (x :: l)) = true →
  ∃ t, to_string (JArr (JStr s :: x :: l)) = Returns (s ++ comma :: t).
Proof.
  intros Hl.
  destruct (to_string_flat (JArr (x :: l)) Hl) as [t Ht].
  exists t. revert Ht. cbn [to_string].
  destruct (to_string x) as [e|sx]; [done|].
  match goal with
  | |- match match ?each l with _ => _ end with _ => _ end = _ → _ =>
      destruct (each l) as [e|ss]; [done|]
  end.
  intros [= <-]. by rewrite join_with_cons2.
Qed.

(** ** The stage methods, further *)

Section BuilderProperties.
Context {H : Type} `{Query.Handle H}.
Implicit Types (b : APIFilters.t H) (σ : store).

(** The builder was given [undefined] as its parameters: the copy that
    [filter] makes is an empty object. *)
Lemma filter_run_missing b σ :
  σ !! APIFilters.queryStr b = None →
  APIFilters.filter b σ =
    (<[fresh (dom σ) := []]> σ,
     Returns (APIFilters.set_query b
                (Query.find (APIFilters.query b) (JObj [])))).
Proof.
  intros Hq. unfold APIFilters.filter.
  rewrite bind_run. unfold spread at 1. rewrite Hq. cbn [default].
  rewrite bind_run.
  rewrite (forEach_delete_prop _ _ _ []) by apply lookup_insert_eq.
  rewrite insert_insert_eq, foldl_obj_delete.
  rewrite bind_run. unfold stringify_ref. rewrite lookup_insert_eq.
  by rewrite parse_replace_stringify.
Qed.

Lemma call_error s b σ e :
  (APIFilters.call s b σ).2 = Throws e → e = TypeError.
Proof.
  destruct (σ !! APIFilters.queryStr b) as [q|] eqn:Hq.
  - destruct s; cbn [APIFilters.call].
    + by rewrite (filter_run _ _ q).
    + rewrite (sort_run _ _ q) by done. cbn [snd].
      destruct (obj_get q (js "sort")) as [[[|c s]|l|o]|];
        (done || by intros [= <-]).
    + rewrite (limitFields_run _ _ q) by done. cbn [snd].
      destruct (obj_get q (js "fields")) as [[[|c s]|l|o]|];
        (done || by intros [= <-]).
    + rewrite (searchByQuery_run _ _ q) by done. cbn [snd].
      destruct (obj_get q (js "q")) as [[[|c s]|l|o]|];
        (done || by intros [= <-]).
    + rewrite (pagination_run _ _ q) by done. cbn [snd].
      destruct (parseInt (obj_get q (js "page"))) as [e1|np] eqn:Hp.
      { intros [= <-]. by apply parseInt_error in Hp. }
      destruct (parseInt (obj_get q (js "limit"))) as [e2|nl] eqn:Hl; [|done].
      intros [= <-]. by apply parseInt_error in Hl.
  - destruct s; cbn [APIFilters.call].
    + by rewrite filter_run_missing.
    + unfold APIFilters.sort. rewrite bind_get_prop_None by done.
      by intros [= <-].
    + unfold APIFilters.limitFields. rewrite bind_get_prop_None by done.
      by intros [= <-].
    + unfold APIFilters.searchByQuery. rewrite bind_get_prop_None by done.
      by intros [= <-].
    + unfold APIFilters.pagination. rewrite bind_get_prop_None by done.
      by intros [= <-].
Qed.

(** X1.  Whatever non-empty text [sort] or [fields] holds, the directive
    handed to the query is that text with every comma replaced by a space:
    nothing is trimmed, checked or dropped, and the length is kept. *)
Theorem sort_fields_commas_to_spaces σ b q :
  σ !! APIFilters.queryStr b = Some q →
  (∀ s, obj_get q (js "sort") = Some (JStr s) → s ≠ [] →
     APIFilters.sort b σ =
       (σ, Returns (APIFilters.set_query b
                      (Query.sort (APIFilters.query b)
                         (map (λ c, if c =? comma then space else c) s))))) ∧
  (∀ s, obj_get q (js "fields") = Some (JStr s) → s ≠ [] →
     APIFilters.limitFields b σ =
       (σ, Returns (APIFilters.set_query b
                      (Query.select (APIFilters.query b)
                         (map (λ c, if c =? comma then space else c) s))))).
Proof.
  intros Hq. split; intros s Hs Hne.
  - rewrite (sort_run _ _ q) by done. rewrite Hs.
    destruct s as [|c s]; [done|]. by rewrite join_split.
  - rewrite (limitFields_run _ _ q) by done. rewrite Hs.
    destruct s as [|c s]; [done|]. by rewrite join_split.
Qed.

(** X2.  A [sort], [fields] or [q] parameter that is an array or an object
    (a repeated or a nested parameter) makes its stage throw a
    [TypeError]: the value is true and has no [split].  The handle and
    the store are left as they were. *)
Theorem non_string_parameter_throws σ b q :
  σ !! APIFilters.queryStr b = Some q →
  (∀ v, obj_get q (js "sort") = Some v → (∀ s, v ≠ JStr s) →
     APIFilters.sort b σ = (σ, Throws TypeError)) ∧
  (∀ v, obj_get q (js "fields") = Some v → (∀ s, v ≠ JStr s) →
     APIFilters.limitFields b σ = (σ, Throws TypeError)) ∧
  (∀ v, obj_get q (js "q") = Some v → (∀ s, v ≠ JStr s) →
     APIFilters.searchByQuery b σ = (σ, Throws TypeError)).
Proof.
  intros Hq. split; [|split]; intros v Hv Hns.
  - rewrite (sort_run _ _ q) by done. rewrite Hv.
    destruct v as [s|l|o]; [by destruct (Hns s) | done..].
  - rewrite (limitFields_run _ _ q) by done. rewrite Hv.
    destruct v as [s|l|o]; [by destruct (Hns s) | done..].
  - rewrite (searchByQuery_run _ _ q) by done. rewrite Hv.
    destruct v as [s|l|o]; [by destruct (Hns s) | done..].
Qed.

(** X3.  [filter] rewrites the values as well as the keys: the value of a
    field [f] reaches the predicate with the operator rewrite applied to
    each of its strings.  A string of plain code units gets the sigil in
    front of each operator word in it, and a value that is an operator
    word, such as ["in"], becomes ["$in"]. *)
Theorem filter_rewrites_values σ b q f v :
  σ !! APIFilters.queryStr b = Some q →
  wf_value (JObj q) →
  f ∉ APIFilters.removeFields →
  rewrite_string f = f →
  obj_get q f = Some v →
  ∃ σ' p,
    APIFilters.filter b σ =
      (σ', Returns (APIFilters.set_query b
                      (Query.find (APIFilters.query b) (JObj p)))) ∧
    obj_get p f = Some (map_strings rewrite_string v) ∧
    (∀ s, v = JStr s → forallb is_plain s = true →
       obj_get p f = Some (JStr (replace_operators s))) ∧
    (∀ op, v = JStr op → op ∈ operators →
       obj_get p f = Some (JStr (dollar :: op))).
Proof.
  intros Hq Hwf Hf Hfix Hv.
  rewrite (filter_run _ _ q) by done.
  pose proof (wf_field_filters q Hwf) as Hwf'.
  rewrite normalize_wf by (apply wf_map_strings; [exact rewrite_string_inj | done]).
  cbn [map_strings].
  eexists _, _. split; [reflexivity|].
  assert (obj_get (map (λ kv, (rewrite_string kv.1, map_strings rewrite_string kv.2))
                     (APIFilters.field_filters q)) f
          = Some (map_strings rewrite_string v)) as Hp.
  { rewrite <-Hfix at 1. rewrite obj_get_map by exact rewrite_string_inj.
    by rewrite obj_get_field_filters, Hv. }
  split; [exact Hp|]. split.
  - intros s -> Hs. rewrite Hp. cbn [map_strings].
    by rewrite rewrite_string_plain.
  - intros op -> Hop. rewrite Hp. cbn [map_strings].
    by rewrite rewrite_string_operator.
Qed.

(** X4.  When every key and every string of the parameters that are not
    reserved is made of plain code units and has no operator word,
    [filter] narrows the query with exactly these parameters: the
    serialization, the replacement and the parsing together change
    nothing. *)
Theorem filter_operator_free σ b q :
  σ !! APIFilters.queryStr b = Some q →
  wf_value (JObj q) →
  Forall (λ s, operator_free s = true)
         (strings_of (JObj (APIFilters.field_filters q))) →
  APIFilters.filter b σ =
    (<[fresh (dom σ) := APIFilters.field_filters q]> σ,
     Returns (APIFilters.set_query b
                (Query.find (APIFilters.query b)
                   (JObj (APIFilters.field_filters q))))).
Proof.
  intros Hq Hwf Hfree. rewrite (filter_run _ _ q) by done.
  rewrite map_strings_id.
  - by rewrite normalize_wf by by apply wf_field_filters.
  - eapply Forall_impl; [exact Hfree|]. intros s.
    apply rewrite_string_operator_free.
Qed.

(** X5.  The predicate of [filter] has one property for each parameter
    that is not reserved, in the order of the parameters; its key is the
    rewritten key of the parameter, from which removing the sigils gives
    the parameter's key back.  Two parameters never fall on one key. *)
Theorem filter_predicate_keys σ b q :
  σ !! APIFilters.queryStr b = Some q →
  wf_value (JObj q) →
  ∃ σ' p,
    APIFilters.filter b σ =
      (σ', Returns (APIFilters.set_query b
                      (Query.find (APIFilters.query b) (JObj p)))) ∧
    p.*1 = rewrite_string <$> (APIFilters.field_filters q).*1 ∧
    unsigil <$> p.*1 = (APIFilters.field_filters q).*1 ∧
    NoDup p.*1.
Proof.
  intros Hq Hwf. rewrite (filter_run _ _ q) by done.
  pose proof (wf_field_filters q Hwf) as Hwf'.
  pose proof (wf_map_strings rewrite_string _ rewrite_string_inj Hwf') as Hwf''.
  rewrite normalize_wf by done. cbn [map_strings].
  eexists _, _. split; [reflexivity|].
  assert ((map (λ kv, (rewrite_string kv.1, map_strings rewrite_string kv.2))
             (APIFilters.field_filters q)).*1
          = rewrite_string <$> (APIFilters.field_filters q).*1) as Hkeys.
  { clear Hwf' Hwf''.
    induction (APIFilters.field_filters q) as [|[k x] o IH]; [done|].
    cbn [map fmap list_fmap fst]. f_equal. exact IH. }
  split; [exact Hkeys|]. split.
  - rewrite Hkeys, <-list_fmap_compose.
    rewrite <-(list_fmap_id (APIFilters.field_filters q).*1) at 2.
    apply list_fmap_ext. intros _ k _. apply unsigil_rewrite_string.
  - cbn [map_strings] in Hwf''. by apply wf_value_obj in Hwf'' as [Hnd _].
Qed.

(** X6.  No chain of stage calls ends with a [SyntaxError]: the text that
    [filter] hands to [JSON.parse] always parses.  The one exception a
    chain can end with is a [TypeError]. *)
Theorem chain_throws_type_error_only ss b σ e :
  (APIFilters.chain ss b σ).2 = Throws e → e = TypeError.
Proof.
  revert b σ. induction ss as [|s ss IH]; intros b σ; [done|].
  cbn [APIFilters.chain]. rewrite bind_run.
  destruct (APIFilters.call s b σ) as [σ1 [e1|b1]] eqn:Hcall.
  - cbn [snd]. intros [= <-]. apply (call_error s b σ).
    by rewrite Hcall.
  - apply IH.
Qed.

(** X7.  [pagination] reads [page] up to the first code unit that is no
    digit, no sign and no white space: that code unit and all that follows
    it are ignored, so [page=3rd] is page 3. *)
Theorem pagination_reads_number_prefix σ1 σ2 b q1 q2 s c t :
  σ1 !! APIFilters.queryStr b = Some q1 →
  σ2 !! APIFilters.queryStr b = Some q2 →
  ends_number c = true →
  obj_get q1 (js "page") = Some (JStr (s ++ c :: t)) →
  obj_get q2 (js "page") = Some (JStr s) →
  obj_get q1 (js "limit") = obj_get q2 (js "limit") →
  (APIFilters.pagination b σ1).2 = (APIFilters.pagination b σ2).2.
Proof.
  intros Hq1 Hq2 Hc Hp1 Hp2 Hl.
  rewrite (pagination_run _ _ q1), (pagination_run _ _ q2) by done.
  rewrite Hp1, Hp2, Hl. cbn [snd]. unfold parseInt at 1 3.
  cbn [to_string_prop to_string]. by rewrite parseInt_string_end.
Qed.

(** X8.  When [page] is given several times its value is an array of
    strings, and [pagination] reads the first of them: the array is
    converted to its elements joined by commas, and the number ends at
    the first comma. *)
Theorem pagination_repeated_page σ1 σ2 b q1 q2 s x l :
  σ1 !! APIFilters.queryStr b = Some q1 →
  σ2 !! APIFilters.queryStr b = Some q2 →
  is_flat (JArr (x :: l)) = true →
  obj_get q1 (js "page") = Some (JArr (JStr s :: x :: l)) →
  obj_get q2 (js "page") = Some (JStr s) →
  obj_get q1 (js "limit") = obj_get q2 (js "limit") →
  (APIFilters.pagination b σ1).2 = (APIFilters.pagination b σ2).2.
Proof.
  intros Hq1 Hq2 Hflat Hp1 Hp2 Hl.
  rewrite (pagination_run _ _ q1), (pagination_run _ _ q2) by done.
  rewrite Hp1, Hp2, Hl. cbn [snd]. unfold parseInt at 1 3.
  cbn [to_string_prop].
  destruct (to_string_flat_cons s x l Hflat) as [t ->]. cbn [to_string].
  by rewrite parseInt_string_end.
Qed.

(** X20.  An operator key with its sigil, such as [$gte], stands in the
    predicate of [filter] exactly where the parameters have the bare word
    [gte] as a key.  A key that is sent with the sigil is not taken over as
    it is: it gets a second sigil. *)
Theorem filter_sigil_keys σ b q op :
  σ !! APIFilters.queryStr b = Some q →
  wf_value (JObj q) →
  op ∈ operators →
  ∃ σ' p,
    APIFilters.filter b σ =
      (σ', Returns (APIFilters.set_query b
                      (Query.find (APIFilters.query b) (JObj p)))) ∧
    (dollar :: op ∈ keys_of (JObj p) ↔
     op ∈ keys_of (JObj (APIFilters.field_filters q))) ∧
    (dollar :: op ∈ keys_of (JObj (APIFilters.field_filters q)) →
     dollar :: dollar :: op ∈ keys_of (JObj p)).
Proof.
  intros Hq Hwf Hop. rewrite (filter_run _ _ q) by done.
  pose proof (wf_field_filters q Hwf) as Hwf'.
  rewrite normalize_wf by (apply wf_map_strings; [exact rewrite_string_inj | done]).
  pose proof (keys_of_map_strings_eq rewrite_string
                (JObj (APIFilters.field_filters q))) as Hkeys.
  cbn [map_strings] in Hkeys |- *.
  eexists _, _. split; [reflexivity|]. rewrite Hkeys. split; [split|].
  - intros (k & Hk & Hin)%list_elem_of_fmap.
    rewrite <-(rewrite_string_operator op) in Hk by done.
    by apply rewrite_string_inj in Hk as ->.
  - intros Hin. rewrite <-(rewrite_string_operator op) by done.
    by apply list_elem_of_fmap_2.
  - intros Hin.
    assert (rewrite_string (dollar :: op) = dollar :: dollar :: op) as <-.
    { unfold operators in Hop.
      repeat (apply elem_of_cons in Hop as [->|Hop];
              [vm_compute; reflexivity|]).
      by apply elem_of_nil in Hop. }
    by apply list_elem_of_fmap_2.
Qed.

(** X21.  For a page [p] of at least 1 and a limit [l] of at least 1
    whose product stays below 2^53, page [p + 1] starts where page [p]
    ends: its skip is the skip of page [p], which is not negative, plus
    [l]. *)
Theorem pagination_next_page σ1 σ2 b q1 q2 p l :
  σ1 !! APIFilters.queryStr b = Some q1 →
  σ2 !! APIFilters.queryStr b = Some q2 →
  parseInt (obj_get q1 (js "page")) = Returns (Int p) →
  parseInt (obj_get q2 (js "page")) = Returns (Int (p + 1)) →
  parseInt (obj_get q1 (js "limit")) = Returns (Int l) →
  parseInt (obj_get q2 (js "limit")) = Returns (Int l) →
  (1 ≤ p)%Z → (1 ≤ l)%Z → (p * l < 2 ^ 53)%Z →
  ∃ k, (0 ≤ k)%Z ∧
    APIFilters.pagination b σ1 =
      (σ1, Returns (APIFilters.set_query b
                      (Query.limit (Query.skip (APIFilters.query b) (Int k))
                         (Int l)))) ∧
    APIFilters.pagination b σ2 =
      (σ2, Returns (APIFilters.set_query b
                      (Query.limit
                         (Query.skip (APIFilters.query b) (Int (k + l)))
                         (Int l)))).
Proof.
  intros Hq1 Hq2 Hp1 Hp2 Hl1 Hl2 Hp Hl Hpl.
  rewrite (pagination_run _ _ q1), (pagination_run _ _ q2) by done.
  rewrite Hp1, Hp2, Hl1, Hl2. rewrite !or_default_Int.
  rewrite (proj2 (Z.eqb_neq p 0)), (proj2 (Z.eqb_neq (p + 1) 0)),
    (proj2 (Z.eqb_neq l 0)) by lia.
  rewrite !sub_exact, !mul_exact by nia.
  rewrite (proj2 (Z.ltb_ge l 0)) by lia. rewrite !xorb_false_r.
  rewrite (proj2 (Z.ltb_ge (p - 1) 0)), (proj2 (Z.ltb_ge (p + 1 - 1) 0)) by lia.
  rewrite !andb_false_r.
  exists ((p - 1) * l)%Z. split; [nia|]. split; [done|].
  by replace ((p + 1 - 1) * l)%Z with ((p - 1) * l + l)%Z by lia.
Qed.

(** X22.  Whenever [pagination] returns, the page and the limit it works
    with are numbers that are true: neither is zero and neither is [NaN].
    The limit is handed to the query as it is, and the skip is the product
    of the page less one and the limit.  Nothing else of the handle is
    touched, and the store is left as it is. *)
Theorem pagination_never_zero σ b q σ' b' :
  σ !! APIFilters.queryStr b = Some q →
  APIFilters.pagination b σ = (σ', Returns b') →
  σ' = σ ∧
  ∃ page limit,
    (page ≠ NaN ∧ page ≠ Int 0 ∧ page ≠ NegZero) ∧
    (limit ≠ NaN ∧ limit ≠ Int 0 ∧ limit ≠ NegZero) ∧
    b' = APIFilters.set_query b
           (Query.limit
              (Query.skip (APIFilters.query b) (mul (sub page (Int 1)) limit))
              limit).
Proof.
  intros Hq. rewrite (pagination_run _ _ q) by done.
  destruct (parseInt (obj_get q (js "page"))) as [e|np]; [done|].
  destruct (parseInt (obj_get q (js "limit"))) as [e|nl]; [done|].
  intros [= <- <-]. split; [done|].
  exists (or_default np 1), (or_default nl 10).
  assert (∀ n d, d ≠ 0%Z →
            or_default n d ≠ NaN ∧ or_default n d ≠ Int 0
            ∧ or_default n d ≠ NegZero) as Hnz.
  { intros [|s| |z] d Hd; cbn [or_default]; try (repeat split; congruence).
    destruct (Z.eqb_spec z 0); repeat split; congruence. }
  split; [by apply Hnz|]. split; [by apply Hnz|]. done.
Qed.

End BuilderProperties.

(** ** The listing controllers *)

Lemma obj_get_obj_delete_ne o k k' :
  k ≠ k' → obj_get (obj_delete o k) k' = obj_get o k'.
Proof.
  intros Hne. induction o as [|[k0 v] o IH]; [done|]. cbn [obj_delete obj_get].
  destruct (decide (k0 = k)) as [->|Hk].
  - rewrite bool_decide_eq_true_2 by done.
    by rewrite (bool_decide_eq_false_2 (k = k')) by done.
  - rewrite (bool_decide_eq_false_2 (k0 = k)) by done. cbn [obj_get].
    by rewrite IH.
Qed.

Lemma field_filters_obj_delete (o : object) k :
  k ∈ APIFilters.removeFields →
  APIFilters.field_filters (obj_delete o k) = APIFilters.field_filters o.
Proof.
  intros Hk. unfold APIFilters.field_filters.
  rewrite obj_delete_filter, list_filter_filter.
  apply list_filter_iff. intros kv. split; [tauto|].
  intros Hkv. split; [done|]. intros Heq. apply Hkv. by rewrite Heq.
Qed.

(** A value that is no string. *)
Ltac not_a_text := eexists; split; [reflexivity | by intros ?].

(** A branch that throws, with the reason [why]. *)
Ltac throws_by why :=
  split; [split; [intros _; why | reflexivity] | right; reflexivity].

Section ControllerProperties.
Context {H : Type} `{Query.Handle H}.
Implicit Types (σ : store) (h : H).

(** The query of the later stages, given what [filter] made. *)
Lemma later_stages_run σ (b : APIFilters.t H) q :
  σ !! APIFilters.queryStr b = Some q →
  (b ← APIFilters.sort b;
   b ← APIFilters.limitFields b;
   b ← APIFilters.searchByQuery b;
   b ← APIFilters.pagination b;
   mret (APIFilters.query b)) σ =
  (σ,
   match obj_get q (js "sort") with
   | Some (JArr _) | Some (JObj _) => Throws TypeError
   | ps =>
     match obj_get q (js "fields") with
     | Some (JArr _) | Some (JObj _) => Throws TypeError
     | pf =>
       match obj_get q (js "q") with
       | Some (JArr _) | Some (JObj _) => Throws TypeError
       | pq =>
         match parseInt (obj_get q (js "page")) with
         | Throws e => Throws e
         | Returns np =>
           match parseInt (obj_get q (js "limit")) with
           | Throws e => Throws e
           | Returns nl =>
             let sortBy :=
               match ps with
               | Some (JStr (c :: s)) => join_with [space] (split comma (c :: s))
               | _ => js "-postingDate"
               end in
             let fields :=
               match pf with
               | Some (JStr (c :: s)) => join_with [space] (split comma (c :: s))
               | _ => js "-__v"
               end in
             let h3 := Query.select (Query.sort (APIFilters.query b) sortBy) fields in
             let h4 :=
               match pq with
               | Some (JStr (c :: s)) =>
                   Query.find h3 (APIFilters.search_phrase
                                    (join_with [space] (split hyphen (c :: s))))
               | _ => h3
               end in
             Returns (Query.limit
                        (Query.skip h4 (mul (sub (or_default np 1) (Int 1))
                                          (or_default nl 10)))
                        (or_default nl 10))
           end
         end
       end
     end
   end).
Proof.
  intros Hq. rewrite bind_run, (sort_run _ _ q) by done.
  destruct (obj_get q (js "sort")) as [[[|c1 s1]|l1|o1]|]; try done;
  (rewrite bind_run, (limitFields_run _ _ q) by done;
   destruct (obj_get q (js "fields")) as [[[|c2 s2]|l2|o2]|]; try done;
   (rewrite bind_run, (searchByQuery_run _ _ q) by done;
    destruct (obj_get q (js "q")) as [[[|c3 s3]|l3|o3]|]; try done;
    (rewrite bind_run, (pagination_run _ _ q) by done;
     destruct (parseInt (obj_get q (js "page"))) as [e1|np]; [done|];
     by destruct (parseInt (obj_get q (js "limit"))) as [e2|nl]))).
Qed.

Lemma users_stages_run σ (b : APIFilters.t H) q :
  σ !! APIFilters.queryStr b = Some q →
  (b ← APIFilters.sort b;
   b ← APIFilters.limitFields b;
   b ← APIFilters.pagination b;
   mret (APIFilters.query b)) σ =
  (σ,
   match obj_get q (js "sort") with
   | Some (JArr _) | Some (JObj _) => Throws TypeError
   | ps =>
     match obj_get q (js "fields") with
     | Some (JArr _) | Some (JObj _) => Throws TypeError
     | pf =>
       match parseInt (obj_get q (js "page")) with
       | Throws e => Throws e
       | Returns np =>
         match parseInt (obj_get q (js "limit")) with
         | Throws e => Throws e
         | Returns nl =>
           let sortBy :=
             match ps with
             | Some (JStr (c :: s)) => join_with [space] (split comma (c :: s))
             | _ => js "-postingDate"
             end in
           let fields :=
             match pf with
             | Some (JStr (c :: s)) => join_with [space] (split comma (c :: s))
             | _ => js "-__v"
             end in
           let h3 := Query.select (Query.sort (APIFilters.query b) sortBy) fields in
           Returns (Query.limit
                      (Query.skip h3 (mul (sub (or_default np 1) (Int 1))
                                        (or_default nl 10)))
                      (or_default nl 10))
         end
       end
     end
   end).
Proof.
  intros Hq. rewrite bind_run, (sort_run _ _ q) by done.
  destruct (obj_get q (js "sort")) as [[[|c1 s1]|l1|o1]|]; try done;
  (rewrite bind_run, (limitFields_run _ _ q) by done;
   destruct (obj_get q (js "fields")) as [[[|c2 s2]|l2|o2]|]; try done;
   (rewrite bind_run, (pagination_run _ _ q) by done;
    destruct (parseInt (obj_get q (js "page"))) as [e1|np]; [done|];
    by destruct (parseInt (obj_get q (js "limit"))) as [e2|nl])).
Qed.

Lemma filter_new_run σ h r q :
  σ !! r = Some q →
  let σ' := <[fresh (dom σ) := APIFilters.field_filters q]> σ in
  let b' := APIFilters.new
              (Query.find h (normalize (map_strings rewrite_string
                                          (JObj (APIFilters.field_filters q)))))
              r in
  APIFilters.filter (APIFilters.new h r) σ = (σ', Returns b') ∧
  σ' !! APIFilters.queryStr b' = Some q.
Proof.
  intros Hq σ' b'. split.
  - by rewrite (filter_run _ _ q).
  - unfold σ', b'. cbn [APIFilters.queryStr].
    rewrite lookup_insert_ne; [done|].
    intros <-. apply (is_fresh (dom σ)). apply elem_of_dom. eauto.
Qed.

Lemma getJobs_run σ h r q :
  σ !! r = Some q →
  let b' := APIFilters.new
              (Query.find h (normalize (map_strings rewrite_string
                                          (JObj (APIFilters.field_filters q)))))
              r in
  Controllers.getJobs h r σ =
    (<[fresh (dom σ) := APIFilters.field_filters q]> σ,
     ((b ← APIFilters.sort b';
       b ← APIFilters.limitFields b;
       b ← APIFilters.searchByQuery b;
       b ← APIFilters.pagination b;
       mret (APIFilters.query b))
        (<[fresh (dom σ) := APIFilters.field_filters q]> σ)).2).
Proof.
  intros Hq b'. destruct (filter_new_run σ h r q Hq) as [Hf Hq'].
  unfold Controllers.getJobs. rewrite bind_run, Hf.
  fold b'. by rewrite (later_stages_run _ b' q Hq').
Qed.

(** X9.  How the stages of [getJobs] compose when [sort], [fields] and
    [q] are absent or texts and [page] and [limit] convert to numbers:
    the query that is awaited is [Job.find()] narrowed by the rewritten
    parameters that are not reserved, then sorted, projected, narrowed by
    the search phrase when [q] is not empty, skipped and limited, in this
    order; the store gains the copy that [filter] made and nothing
    else. *)
Theorem getJobs_query σ Job_find r q np nl :
  σ !! r = Some q →
  (∀ k v, k ∈ [js "sort"; js "fields"; js "q"] →
          obj_get q k = Some v → ∃ s, v = JStr s) →
  parseInt (obj_get q (js "page")) = Returns np →
  parseInt (obj_get q (js "limit")) = Returns nl →
  let predicate :=
    normalize (map_strings rewrite_string (JObj (APIFilters.field_filters q))) in
  let sortBy :=
    match obj_get q (js "sort") with
    | Some (JStr (c :: s)) => join_with [space] (split comma (c :: s))
    | _ => js "-postingDate"
    end in
  let fields :=
    match obj_get q (js "fields") with
    | Some (JStr (c :: s)) => join_with [space] (split comma (c :: s))
    | _ => js "-__v"
    end in
  let h3 := Query.select (Query.sort (Query.find Job_find predicate) sortBy) fields in
  let h4 :=
    match obj_get q (js "q") with
    | Some (JStr (c :: s)) =>
        Query.find h3 (APIFilters.search_phrase
                         (join_with [space] (split hyphen (c :: s))))
    | _ => h3
    end in
  let page := or_default np 1 in
  let limit := or_default nl 10 in
  Controllers.getJobs Job_find r σ =
    (<[fresh (dom σ) := APIFilters.field_filters q]> σ,
     Returns (Query.limit (Query.skip h4 (mul (sub page (Int 1)) limit)) limit)).
Proof.
  intros Hq Htext Hp Hl. cbv zeta.
  destruct (filter_new_run σ Job_find r q Hq) as [_ Hq'].
  rewrite (getJobs_run _ _ _ q Hq). f_equal.
  rewrite (later_stages_run _ _ q Hq'). cbn [snd APIFilters.query].
  rewrite Hp, Hl.
  pose proof (Htext (js "sort")) as Hs.
  pose proof (Htext (js "fields")) as Hf.
  pose proof (Htext (js "q")) as Hsearch.
  destruct (obj_get q (js "sort")) as [[s1|l1|o1]|];
    [|by destruct (Hs _ ltac:(by_eval) eq_refl)..|];
  (destruct (obj_get q (js "fields")) as [[s2|l2|o2]|];
     [|by destruct (Hf _ ltac:(by_eval) eq_refl)..|];
   (destruct (obj_get q (js "q")) as [[s3|l3|o3]|];
      [|by destruct (Hsearch _ ltac:(by_eval) eq_refl)..|]; reflexivity)).
Qed.

(** X10.  [getUsers] pays no regard to [q]: [filter] leaves it out as a
    reserved key and the search stage is not among the stages called.
    Two requests that differ in [q] alone give the same result. *)
Theorem getUsers_ignores_q σ1 σ2 User_find r q1 q2 :
  σ1 !! r = Some q1 →
  σ2 !! r = Some q2 →
  obj_delete q1 (js "q") = obj_delete q2 (js "q") →
  (Controllers.getUsers User_find r σ1).2 =
  (Controllers.getUsers User_find r σ2).2.
Proof.
  intros Hq1 Hq2 Hsame.
  assert (Hff : APIFilters.field_filters q1 = APIFilters.field_filters q2).
  { rewrite <-(field_filters_obj_delete q1 (js "q")) by by_eval.
    rewrite <-(field_filters_obj_delete q2 (js "q")) by by_eval.
    by rewrite Hsame. }
  assert (Hget : ∀ k, js "q" ≠ k → obj_get q1 k = obj_get q2 k).
  { intros k Hk. rewrite <-(obj_get_obj_delete_ne q1 (js "q")) by done.
    rewrite <-(obj_get_obj_delete_ne q2 (js "q")) by done.
    by rewrite Hsame. }
  destruct (filter_new_run σ1 User_find r q1 Hq1) as [Hf1 Hq1'].
  destruct (filter_new_run σ2 User_find r q2 Hq2) as [Hf2 Hq2'].
  unfold Controllers.getUsers. rewrite !bind_run, Hf1, Hf2.
  rewrite (users_stages_run _ _ q1 Hq1'), (users_stages_run _ _ q2 Hq2').
  cbn [snd APIFilters.query].
  by rewrite <-(Hget (js "sort")), <-(Hget (js "fields")),
       <-(Hget (js "page")), <-(Hget (js "limit")), <-Hff.
Qed.

(** X11.  [getJobs] fails exactly when [sort], [fields] or [q] is an
    array or an object, or when [page] or [limit] has no conversion to a
    string; the exception is a [TypeError], raised after [filter] has
    run.  Every other request gives a query. *)
Theorem getJobs_throws_iff σ Job_find r q :
  σ !! r = Some q →
  let not_text k := ∃ v, obj_get q k = Some v ∧ ∀ s, v ≠ JStr s in
  let unreadable k := parseInt (obj_get q k) = Throws TypeError in
  ((Controllers.getJobs Job_find r σ).2 = Throws TypeError ↔
     not_text (js "sort") ∨ not_text (js "fields") ∨ not_text (js "q") ∨
     unreadable (js "page") ∨ unreadable (js "limit")) ∧
  ((∃ h, (Controllers.getJobs Job_find r σ).2 = Returns h) ∨
   (Controllers.getJobs Job_find r σ).2 = Throws TypeError).
Proof.
  intros Hq not_text unreadable.
  destruct (filter_new_run σ Job_find r q Hq) as [_ Hq'].
  rewrite (getJobs_run _ _ _ q Hq). cbn [snd].
  rewrite (later_stages_run _ _ q Hq'). cbn [snd].
  unfold not_text, unreadable. clear not_text unreadable.
  destruct (obj_get q (js "sort")) as [[s1|l1|o1]|] eqn:Es;
    try (throws_by ltac:(left; not_a_text)).
  all: destruct (obj_get q (js "fields")) as [[s2|l2|o2]|] eqn:Ef;
    try (throws_by ltac:(right; left; not_a_text)).
  all: destruct (obj_get q (js "q")) as [[s3|l3|o3]|] eqn:Eq;
    try (throws_by ltac:(do 2 right; left; not_a_text)).
  all: destruct (parseInt (obj_get q (js "page"))) as [e1|np] eqn:Ep;
    [apply parseInt_error in Ep as ->;
     throws_by ltac:(do 3 right; left; reflexivity)|].
  all: destruct (parseInt (obj_get q (js "limit"))) as [e2|nl] eqn:El;
    [apply parseInt_error in El as ->;
     throws_by ltac:(do 4 right; reflexivity)|].
  all: split; [|left; by eexists].
  all: split; [done|].
  all: intros [Hb|[Hb|[Hb|[Hb|Hb]]]]; try discriminate Hb.
  all: destruct Hb as (v & Hv & Hns); try discriminate Hv.
  all: injection Hv as <-; exfalso; eapply Hns; reflexivity.
Qed.

End ControllerProperties.

(** ** Authentication and roles *)

Lemma strip_prefix_app p s : strip_prefix p (p ++ s) = Some s.
Proof.
  induction p as [|c p IH]; [done|]. cbn [app strip_prefix].
  by rewrite N.eqb_refl.
Qed.

Lemma startsWith_app p s : Auth.startsWith (p ++ s) p = true.
Proof. unfold Auth.startsWith. by rewrite strip_prefix_app. Qed.

Lemma startsWith_prefix s p : Auth.startsWith s p = true → ∃ t, s = p ++ t.
Proof.
  unfold Auth.startsWith. revert s. induction p as [|c p IH]; intros s.
  - by exists s.
  - destruct s as [|x s]; cbn [strip_prefix]; [done|].
    destruct (N.eqb_spec c x) as [->|]; [|done].
    intros [t ->]%IH. by exists t.
Qed.

Lemma bearer_not_space : space ∉ js "Bearer".
Proof. by_eval. Qed.

(** The token of a header that starts with ['Bearer']. *)
Lemma bearer_token_split x t :
  Auth.bearer_token (Some (js "Bearer" ++ x ++ t)) =
    split space (js "Bearer" ++ x ++ t) !! 1%nat.
Proof.
  unfold Auth.bearer_token. by rewrite startsWith_app.
Qed.

Section AuthProperties.
Context {User Payload Id E : Type}.
Variable verify : jstring → E + Payload.
Variable id : Payload → Id.
Variable findById : Id → E + option User.
Variable role : User → jstring.
Implicit Types (req : Auth.request User) (roles : list jstring).

Local Abbreviation isAuthenticatedUser :=
  (Auth.isAuthenticatedUser verify id findById).
Local Abbreviation authorizeRoles := (Auth.authorizeRoles (E := E) role).
Local Abbreviation middlewares := (Auth.middlewares verify id findById role).
Local Abbreviation login_first :=
  (Auth.NextError
     {| Auth.message := js "Login first to access this resource.";
        Auth.statusCode := 401 |}).

(** X12.  The token that [isAuthenticatedUser] verifies is the text
    between the first space of the header and the second one, or the end
    of the header: for ['Bearer <token>'] it is [<token>].  Only the start
    of the header is compared with ['Bearer']; what stands between it and
    the first space is not looked at. *)
Theorem bearer_token_between_spaces x tok rest :
  space ∉ x → space ∉ tok →
  Auth.bearer_token (Some (js "Bearer" ++ x ++ space :: tok)) = Some tok ∧
  Auth.bearer_token (Some (js "Bearer" ++ x ++ space :: tok ++ space :: rest))
    = Some tok.
Proof.
  intros Hx Htok.
  assert (space ∉ js "Bearer" ++ x) as Hpre.
  { rewrite elem_of_app. intros [Hb|Hb]; [by apply bearer_not_space | done]. }
  rewrite !bearer_token_split. split.
  - rewrite (app_assoc _ x), split_app_sep by done.
    by rewrite split_no_sep.
  - rewrite (app_assoc _ x), split_app_sep by done.
    by rewrite split_app_sep.
Qed.

(** X13.  [isAuthenticatedUser] asks for a login, with status 401 and
    without calling [jwt.verify] or the storage layer, when the header is
    absent, when it does not start with ['Bearer'], when it holds no
    space, and when its first space is followed by another space or by
    nothing. *)
Theorem isAuthenticatedUser_login_first req :
  (Auth.authorization req = None ∨
   ∃ h, Auth.authorization req = Some h ∧
        (Auth.startsWith h (js "Bearer") = false ∨
         (space ∉ h) ∨
         ∃ x rest, (space ∉ x) ∧
                   (h = x ++ [space] ∨ h = x ++ space :: space :: rest))) →
  isAuthenticatedUser req = login_first.
Proof.
  unfold Auth.isAuthenticatedUser.
  intros [->|(h & -> & Hh)]; [done|].
  assert (Auth.bearer_token (Some h) = None ∨ Auth.bearer_token (Some h) = Some [])
    as [->| ->]; [|done..].
  unfold Auth.bearer_token.
  destruct (truthy (Some (JStr h)) && Auth.startsWith h (js "Bearer")) eqn:Hguard;
    [|by left].
  apply andb_prop in Hguard as [_ Hstart].
  destruct Hh as [Hns|[Hsp|(x & rest & Hx & [->| ->])]].
  - by rewrite Hstart in Hns.
  - left. by rewrite split_no_sep.
  - right. by rewrite split_app_sep.
  - right. rewrite split_app_sep by done. cbn [split].
    by rewrite N.eqb_refl.
Qed.

Lemma guarded_pass roles req req' :
  Auth.handlers [isAuthenticatedUser; authorizeRoles roles] req = Auth.Next req' →
  ∃ tok decoded u,
    Auth.bearer_token (Auth.authorization req) = Some tok ∧ tok ≠ [] ∧
    verify tok = inr decoded ∧
    findById (id decoded) = inr (Some u) ∧
    role u ∈ roles ∧
    req' = {| Auth.authorization := Auth.authorization req;
              Auth.user := Some u |}.
Proof.
  cbn [Auth.handlers]. unfold Auth.isAuthenticatedUser, Auth.authorizeRoles.
  destruct (Auth.bearer_token (Auth.authorization req)) as [[|c t]|]; [done| |done].
  destruct (verify (c :: t)) as [e|decoded] eqn:Hv; [done|].
  destruct (findById (id decoded)) as [e|[u|]] eqn:Hf; [done| |done].
  cbn [Auth.user].
  destruct (decide (role u ∈ roles)) as [Hr|Hr].
  - rewrite bool_decide_eq_true_2 by done. intros [= <-].
    by exists (c :: t), decoded, u.
  - by rewrite bool_decide_eq_false_2 by done.
Qed.

Lemma guarded_refuse roles req tok decoded u :
  Auth.bearer_token (Auth.authorization req) = Some tok → tok ≠ [] →
  verify tok = inr decoded →
  findById (id decoded) = inr (Some u) →
  role u ∉ roles →
  Auth.handlers [isAuthenticatedUser; authorizeRoles roles] req =
    Auth.NextError
      {| Auth.message := js "Role(" ++ role u
                         ++ js ") is not allowed to access this resource.";
         Auth.statusCode := 403 |}.
Proof.
  intros Htok Hne Hv Hf Hr. cbn [Auth.handlers].
  unfold Auth.isAuthenticatedUser. rewrite Htok.
  destruct tok as [|c t]; [done|]. rewrite Hv, Hf.
  unfold Auth.authorizeRoles. cbn [Auth.user].
  by rewrite bool_decide_eq_false_2.
Qed.

(** X14.  The controller behind [isAuthenticatedUser] and
    [authorizeRoles(...roles)] runs exactly when the header gives a
    non-empty token, the token verifies, a user with the decoded id
    exists, and the role of this user is one of [roles]; the request then
    carries this user. *)
Theorem guarded_route_passes_iff roles req req' :
  Auth.handlers [isAuthenticatedUser; authorizeRoles roles] req = Auth.Next req' ↔
  ∃ tok decoded u,
    Auth.bearer_token (Auth.authorization req) = Some tok ∧ tok ≠ [] ∧
    verify tok = inr decoded ∧
    findById (id decoded) = inr (Some u) ∧
    role u ∈ roles ∧
    req' = {| Auth.authorization := Auth.authorization req;
              Auth.user := Some u |}.
Proof.
  split; [apply guarded_pass|].
  intros (tok & decoded & u & Htok & Hne & Hv & Hf & Hr & ->).
  cbn [Auth.handlers]. unfold Auth.isAuthenticatedUser, Auth.authorizeRoles.
  rewrite Htok. destruct tok as [|c t]; [done|]. rewrite Hv, Hf. cbn [Auth.user].
  by rewrite bool_decide_eq_true_2 by done.
Qed.

(** X15.  A token that verifies for a user who no longer exists passes
    [isAuthenticatedUser]: the request goes on with no user.  Behind it,
    [authorizeRoles] then ends with a [TypeError], whatever the roles,
    and not with a refusal of status 401 or 403. *)
Theorem missing_user_type_error roles req tok decoded :
  Auth.bearer_token (Auth.authorization req) = Some tok → tok ≠ [] →
  verify tok = inr decoded →
  findById (id decoded) = inr None →
  isAuthenticatedUser req =
    Auth.Next {| Auth.authorization := Auth.authorization req;
                 Auth.user := None |} ∧
  Auth.handlers [isAuthenticatedUser; authorizeRoles roles] req =
    Auth.Raise (inr TypeError).
Proof.
  intros Htok Hne Hv Hf. cbn [Auth.handlers].
  unfold Auth.isAuthenticatedUser. rewrite Htok.
  destruct tok as [|c t]; [done|]. by rewrite Hv, Hf.
Qed.

(** X16.  Every route but the four public job routes and the register,
    login, forgot-password and reset-password routes asks for a login
    (status 401) when the header gives no token, before anything else is
    looked at. *)
Theorem routes_ask_for_login (r : Auth.route) req :
  r ∉ [Auth.getJobs; Auth.getJob; Auth.getJobsInRadius; Auth.jobStats;
       Auth.registerUser; Auth.loginUser; Auth.forgotPassword;
       Auth.resetPassword] →
  (Auth.bearer_token (Auth.authorization req) = None ∨
   Auth.bearer_token (Auth.authorization req) = Some []) →
  Auth.handlers (middlewares r) req = login_first.
Proof.
  intros Hr Htok.
  assert (isAuthenticatedUser req = login_first) as Hauth.
  { unfold Auth.isAuthenticatedUser. by destruct Htok as [-> | ->]. }
  destruct r; cbn [Auth.middlewares Auth.handlers]; rewrite ?Hauth; try done.
  all: exfalso; apply Hr; repeat (first [apply list_elem_of_here | apply list_elem_of_further]).
Qed.

(** X17.  The admin-only routes [getUsers] and [deleteUserAdmin] refuse,
    with status 403, every user whose role is one that the user schema
    accepts (['user'] or ['employeer']). *)
Theorem admin_routes_refuse_schema_roles (r : Auth.route) req tok decoded u :
  r ∈ [Auth.getUsers; Auth.deleteUserAdmin] →
  Auth.bearer_token (Auth.authorization req) = Some tok → tok ≠ [] →
  verify tok = inr decoded →
  findById (id decoded) = inr (Some u) →
  role u ∈ Auth.role_enum →
  Auth.handlers (middlewares r) req =
    Auth.NextError
      {| Auth.message := js "Role(" ++ role u
                         ++ js ") is not allowed to access this resource.";
         Auth.statusCode := 403 |}.
Proof.
  intros Hr Htok Hne Hv Hf Hrole.
  assert (role u ∉ [js "admin"]) as Hadmin.
  { intros Hin%list_elem_of_singleton. rewrite Hin in Hrole.
    revert Hrole. by_eval. }
  pose proof (guarded_refuse [js "admin"] req tok decoded u Htok Hne Hv Hf Hadmin)
    as Hrun.
  apply elem_of_cons in Hr as [->|Hr]; [exact Hrun|].
  apply list_elem_of_singleton in Hr as ->. exact Hrun.
Qed.

(** X18.  The routes for applicants ([applyJob], [getAppliedJobs]) and
    the routes for publishers ([newJob], [updateJob], [deleteJob],
    [getPublishedJobs]) shut each other out: a request that reaches the
    controller of one kind is refused with status 403 on every route of
    the other kind. *)
Theorem applicant_and_publisher_routes_exclusive (r1 r2 : Auth.route) req req' :
  r1 ∈ [Auth.applyJob; Auth.getAppliedJobs] →
  r2 ∈ [Auth.newJob; Auth.updateJob; Auth.deleteJob; Auth.getPublishedJobs] →
  let refused r :=
    ∃ u, Auth.user req' = Some u ∧
         Auth.handlers (middlewares r) req =
           Auth.NextError
             {| Auth.message := js "Role(" ++ role u
                                ++ js ") is not allowed to access this resource.";
                Auth.statusCode := 403 |} in
  (Auth.handlers (middlewares r1) req = Auth.Next req' → refused r2) ∧
  (Auth.handlers (middlewares r2) req = Auth.Next req' → refused r1).
Proof.
  intros Hr1 Hr2 refused. unfold refused. clear refused.
  assert (middlewares r1 = [isAuthenticatedUser; authorizeRoles [js "user"]])
    as ->.
  { repeat (apply elem_of_cons in Hr1 as [->|Hr1]; [done|]).
    by apply elem_of_nil in Hr1. }
  assert (middlewares r2 =
            [isAuthenticatedUser; authorizeRoles [js "employeer"; js "admin"]])
    as ->.
  { repeat (apply elem_of_cons in Hr2 as [->|Hr2]; [done|]).
    by apply elem_of_nil in Hr2. }
  split.
  - intros (tok & decoded & u & Htok & Hne & Hv & Hf & Hr & ->)%guarded_pass.
    exists u. split; [done|]. apply (guarded_refuse _ req tok decoded u); try done.
    apply list_elem_of_singleton in Hr. rewrite Hr. by_eval.
  - intros (tok & decoded & u & Htok & Hne & Hv & Hf & Hr & ->)%guarded_pass.
    exists u. split; [done|]. apply (guarded_refuse _ req tok decoded u); try done.
    intros Hu%list_elem_of_singleton. rewrite Hu in Hr. revert Hr. by_eval.
Qed.

End AuthProperties.

(** ** Removing the applications of a deleted user *)

Lemma indexOf_objects arr x :
  Forall (λ v, ∃ props, v = JObj props ∧ obj_get props (js "toString") = None)
         arr →
  x ≠ js "[object Object]" →
  UserController.indexOf arr x = Returns (-1)%Z.
Proof.
  intros Hall Hx. induction Hall as [|v arr (props & -> & Hts) _ IH]; [done|].
  cbn [UserController.indexOf to_string]. rewrite Hts.
  rewrite bool_decide_eq_false_2 by done. by rewrite IH.
Qed.

Lemma find_exists {A} (f : A → bool) l :
  Exists (λ x, f x = true) l → ∃ x, List.find f l = Some x.
Proof.
  induction 1 as [x l Hx|x l _ [y IH]]; cbn [List.find].
  - rewrite Hx. by eexists.
  - destruct (f x); by eexists.
Qed.

(** X19.  For a user with an entry in a job's [applicantsApplied], where
    every entry is an object without a [toString] property of its own, as
    [applyJob] pushes them, and the user's id is not the text
    ["[object Object]"], the loop of [deleteUserData] takes out the last
    entry of the array, whoever it belongs to: [indexOf] looks for the
    user's id, a string, among objects, none of which is equal to it, and
    gives [-1], and [splice(-1)] removes the last element.  The user's own
    entry stays unless it is the last one. *)
Theorem remove_application_removes_last entries last_entry user :
  Forall (λ v, ∃ props, v = JObj props ∧ obj_get props (js "toString") = None)
         (entries ++ [last_entry]) →
  user ≠ js "[object Object]" →
  Exists (λ v, UserController.has_id user v = true) (entries ++ [last_entry]) →
  UserController.remove_application (entries ++ [last_entry]) user =
    Returns entries.
Proof.
  intros Hobj Huser Hfound. unfold UserController.remove_application.
  destruct (find_exists _ _ Hfound) as [obj ->].
  rewrite indexOf_objects by done. unfold UserController.splice.
  rewrite length_app. cbn [length Z.ltb Z.compare].
  replace (Z.to_nat (Z.max (Z.of_nat (length entries + 1) + -1) 0))
    with (length entries) by lia.
  by rewrite take_app_length.
Qed.

(** ** The further properties on sample requests *)

(** [?sort=salary,-title&fields=title,,salary]: the directives are
    ['salary -title'] and ['title  salary']. *)
Lemma sort_fields_commas_to_spaces_witness :
  APIFilters.sort sample_builder (sample_store q_sort_fields) =
    (sample_store q_sort_fields,
     Returns (APIFilters.set_query sample_builder
                (Query.sort (APIFilters.query sample_builder)
                   (js "salary -title")))) ∧
  APIFilters.limitFields sample_builder (sample_store q_sort_fields) =
    (sample_store q_sort_fields,
     Returns (APIFilters.set_query sample_builder
                (Query.select (APIFilters.query sample_builder)
                   (js "title  salary")))).
Proof.
  split.
  - apply (proj1 (sort_fields_commas_to_spaces (sample_store q_sort_fields)
                    sample_builder q_sort_fields eq_refl) (js "salary,-title"));
      [reflexivity | discriminate].
  - apply (proj2 (sort_fields_commas_to_spaces (sample_store q_sort_fields)
                    sample_builder q_sort_fields eq_refl) (js "title,,salary"));
      [reflexivity | discriminate].
Defined.

(** [?sort[a]=b&fields[a]=b&q[a]=b]: each of the three stages throws. *)
Lemma non_string_parameter_throws_witness :
  APIFilters.sort sample_builder (sample_store q_all_nested) =
    (sample_store q_all_nested, Throws TypeError) ∧
  APIFilters.limitFields sample_builder (sample_store q_all_nested) =
    (sample_store q_all_nested, Throws TypeError) ∧
  APIFilters.searchByQuery sample_builder (sample_store q_all_nested) =
    (sample_store q_all_nested, Throws TypeError).
Proof.
  destruct (non_string_parameter_throws (sample_store q_all_nested)
              sample_builder q_all_nested eq_refl) as (Hs & Hf & Hq).
  split; [|split].
  - apply (Hs (JObj [(js "a", JStr (js "b"))])); [reflexivity | discriminate].
  - apply (Hf (JObj [(js "a", JStr (js "b"))])); [reflexivity | discriminate].
  - apply (Hq (JObj [(js "a", JStr (js "b"))])); [reflexivity | discriminate].
Defined.

(** [?title=in&city=work in london]: the city of the predicate is
    ['work $in london']. *)
Lemma filter_rewrites_values_witness :
  ∃ σ' p,
    APIFilters.filter sample_builder (sample_store q_title_in) =
      (σ', Returns (APIFilters.set_query sample_builder
                      (Query.find (APIFilters.query sample_builder) (JObj p)))) ∧
    obj_get p (js "city") = Some (JStr (js "work $in london")).
Proof.
  destruct (filter_rewrites_values (sample_store q_title_in) sample_builder
              q_title_in (js "city") (JStr (js "work in london")))
    as (σ' & p & Hf & _ & Hplain & _).
  - reflexivity.
  - solve_wf.
  - by_eval.
  - vm_compute. reflexivity.
  - reflexivity.
  - exists σ', p. split; [exact Hf|].
    rewrite (Hplain (js "work in london") eq_refl) by (vm_compute; reflexivity).
    vm_compute. reflexivity.
Defined.

(** [?jobType=Permanent&company=Acme Inc&page=2]: the predicate is
    [{jobType: "Permanent", company: "Acme Inc"}]. *)
Lemma filter_operator_free_witness :
  (APIFilters.filter sample_builder (sample_store q_plain)).2 =
    Returns (APIFilters.set_query sample_builder
               (Query.find (APIFilters.query sample_builder)
                  (JObj [(js "jobType", JStr (js "Permanent"));
                         (js "company", JStr (js "Acme Inc"))]))).
Proof.
  rewrite (filter_operator_free (sample_store q_plain) sample_builder q_plain).
  - vm_compute. reflexivity.
  - reflexivity.
  - solve_wf.
  - by_eval.
Defined.

(** [?check-in[gte]=5]: the one key of the predicate is [check-$in], and
    without the sigil it is [check-in]. *)
Lemma filter_predicate_keys_witness :
  ∃ σ' p,
    APIFilters.filter sample_builder (sample_store q_check_in) =
      (σ', Returns (APIFilters.set_query sample_builder
                      (Query.find (APIFilters.query sample_builder) (JObj p)))) ∧
    p.*1 = [js "check-$in"] ∧
    unsigil <$> p.*1 = [js "check-in"].
Proof.
  destruct (filter_predicate_keys (sample_store q_check_in) sample_builder
              q_check_in eq_refl) as (σ' & p & Hf & Hk & Hu & _).
  - solve_wf.
  - exists σ', p. split; [exact Hf|]. split.
    + rewrite Hk. vm_compute. reflexivity.
    + rewrite Hu. vm_compute. reflexivity.
Defined.

(** [?sort[a]=b]: the chain of [sort] alone ends with a [TypeError]. *)
Lemma chain_throws_type_error_only_witness :
  (APIFilters.chain [APIFilters.Sort] sample_builder
     (sample_store q_sort_nested)).2 = Throws TypeError.
Proof.
  destruct (APIFilters.chain [APIFilters.Sort] sample_builder
              (sample_store q_sort_nested)) as [σ1 [e|b1]] eqn:Hchain.
  - cbn [snd]. f_equal.
    apply (chain_throws_type_error_only [APIFilters.Sort] sample_builder
             (sample_store q_sort_nested) e).
    by rewrite Hchain.
  - exfalso. vm_compute in Hchain. discriminate Hchain.
Defined.

(** [?page=3rd&limit=7] is paged as [?page=3&limit=7] is. *)
Lemma pagination_reads_number_prefix_witness :
  (APIFilters.pagination sample_builder (sample_store q_page_3rd)).2 =
  (APIFilters.pagination sample_builder (sample_store q_page_3)).2.
Proof.
  apply (pagination_reads_number_prefix (sample_store q_page_3rd)
           (sample_store q_page_3) sample_builder q_page_3rd q_page_3
           (js "3") 114 (js "d")); reflexivity.
Defined.

(** [?page=3&page=9&limit=7] is paged as [?page=3&limit=7] is. *)
Lemma pagination_repeated_page_witness :
  (APIFilters.pagination sample_builder (sample_store q_page_repeated)).2 =
  (APIFilters.pagination sample_builder (sample_store q_page_3)).2.
Proof.
  apply (pagination_repeated_page (sample_store q_page_repeated)
           (sample_store q_page_3) sample_builder q_page_repeated q_page_3
           (js "3") (JStr (js "9")) []); reflexivity.
Defined.

(** [?price[gte]=50]: the predicate has the key [$gte]. *)
Lemma filter_sigil_keys_witness :
  ∃ σ' p,
    APIFilters.filter sample_builder (sample_store q_price_gte) =
      (σ', Returns (APIFilters.set_query sample_builder
                      (Query.find (APIFilters.query sample_builder) (JObj p)))) ∧
    js "$gte" ∈ keys_of (JObj p).
Proof.
  destruct (filter_sigil_keys (sample_store q_price_gte) sample_builder
              q_price_gte (js "gte")) as (σ' & p & Hf & Hiff & _).
  - reflexivity.
  - solve_wf.
  - by_eval.
  - exists σ', p. split; [exact Hf|]. apply Hiff. by_eval.
Defined.

(** Page 3 of 7 skips 14, page 4 skips 21. *)
Lemma pagination_next_page_witness :
  ∃ k, (0 ≤ k)%Z ∧
    APIFilters.pagination sample_builder (sample_store q_page_3) =
      (sample_store q_page_3,
       Returns (APIFilters.set_query sample_builder
                  (Query.limit
                     (Query.skip (APIFilters.query sample_builder) (Int k))
                     (Int 7)))) ∧
    APIFilters.pagination sample_builder (sample_store q_page_4) =
      (sample_store q_page_4,
       Returns (APIFilters.set_query sample_builder
                  (Query.limit
                     (Query.skip (APIFilters.query sample_builder) (Int (k + 7)))
                     (Int 7)))).
Proof.
  apply (pagination_next_page (sample_store q_page_3) (sample_store q_page_4)
           sample_builder q_page_3 q_page_4 3%Z 7%Z);
    (reflexivity || lia).
Defined.

(** [?page=0&limit=5]: the page is 1, not 0. *)
Lemma pagination_never_zero_witness :
  ∃ page limit,
    (page ≠ NaN ∧ page ≠ Int 0 ∧ page ≠ NegZero) ∧
    (limit ≠ NaN ∧ limit ≠ Int 0 ∧ limit ≠ NegZero) ∧
    APIFilters.set_query sample_builder
      (Query.limit (Query.skip (APIFilters.query sample_builder) (Int 0)) (Int 5)) =
    APIFilters.set_query sample_builder
      (Query.limit
         (Query.skip (APIFilters.query sample_builder)
            (mul (sub page (Int 1)) limit))
         limit).
Proof.
  apply (pagination_never_zero (sample_store q_page_zero) sample_builder
           q_page_zero (sample_store q_page_zero)
           (APIFilters.set_query sample_builder
              (Query.limit
                 (Query.skip (APIFilters.query sample_builder) (Int 0)) (Int 5)))
           eq_refl).
  vm_compute. reflexivity.
Defined.

(** Every value of a sample request under [sort], [fields] and [q] is a
    text. *)
Ltac texts :=
  let Hk := fresh in
  intros ? ? Hk;
  repeat (apply elem_of_cons in Hk as [->|Hk];
          [vm_compute; intros [= <-]; by eexists || discriminate|]);
  by apply elem_of_nil in Hk.

(** [?jobType=Permanent&sort=salary&q=node-js&page=2&limit=5] on the slot
    handle. *)
Lemma getJobs_query_witness :
  (Controllers.getJobs empty_handle 1%positive (sample_store q_listing)).2 =
    Returns {| predicates := [JObj [(js "jobType", JStr (js "Permanent"))];
                              APIFilters.search_phrase (js "node js")];
               ordering := Some (js "salary");
               projection := Some (js "-__v");
               offset := Some (Int 5);
               count := Some (Int 5) |}.
Proof.
  pose proof (getJobs_query (sample_store q_listing) empty_handle 1%positive
                q_listing (Int 2) (Int 5) eq_refl) as Hw.
  cbv zeta in Hw. rewrite Hw.
  - vm_compute. reflexivity.
  - texts.
  - reflexivity.
  - reflexivity.
Defined.

(** [?role=user&q=anything] lists the users that [?role=user] lists. *)
Lemma getUsers_ignores_q_witness :
  (Controllers.getUsers empty_handle 1%positive (sample_store q_users_q)).2 =
  (Controllers.getUsers empty_handle 1%positive (sample_store q_users)).2.
Proof.
  apply (getUsers_ignores_q (sample_store q_users_q) (sample_store q_users)
           empty_handle 1%positive q_users_q q_users); reflexivity.
Defined.

(** [?sort[a]=b]: [getJobs] throws. *)
Lemma getJobs_throws_iff_witness :
  (Controllers.getJobs empty_handle 1%positive (sample_store q_sort_nested)).2 =
    Throws TypeError.
Proof.
  apply (proj1 (getJobs_throws_iff (sample_store q_sort_nested) empty_handle
                  1%positive q_sort_nested eq_refl)).
  left. not_a_text.
Defined.

(** ['Bearer abc'] and ['Bearer abc def'] give the token ['abc']. *)
Lemma bearer_token_between_spaces_witness :
  Auth.bearer_token (Some (js "Bearer abc")) = Some (js "abc") ∧
  Auth.bearer_token (Some (js "Bearer abc def")) = Some (js "abc").
Proof.
  apply (bearer_token_between_spaces [] (js "abc") (js "def")); by_eval.
Defined.

(** ['Bearer'] alone: there is no space in the header. *)
Lemma isAuthenticatedUser_login_first_witness :
  Auth.isAuthenticatedUser sample_verify (λ i, i) sample_findById
    (sample_request "Bearer") =
  Auth.NextError
    {| Auth.message := js "Login first to access this resource.";
       Auth.statusCode := 401 |}.
Proof.
  apply (isAuthenticatedUser_login_first sample_verify (λ i, i) sample_findById
           (sample_request "Bearer")).
  right. exists (js "Bearer"). split; [reflexivity|]. right. left. by_eval.
Defined.

(** The employer [ann] passes the guard of the publisher routes. *)
Lemma guarded_route_passes_iff_witness :
  Auth.handlers
    [Auth.isAuthenticatedUser sample_verify (λ i, i) sample_findById;
     Auth.authorizeRoles (λ u, u) [js "employeer"; js "admin"]]
    (sample_request "Bearer ann") =
  Auth.Next {| Auth.authorization := Some (js "Bearer ann");
               Auth.user := Some (js "employeer") |}.
Proof.
  apply (proj2 (guarded_route_passes_iff sample_verify (λ i, i) sample_findById
                  (λ u, u) [js "employeer"; js "admin"]
                  (sample_request "Bearer ann") _)).
  exists (js "ann"), (js "ann"), (js "employeer").
  repeat split; (reflexivity || discriminate || by_eval).
Defined.

(** The token of [gone] verifies, and no user has this id. *)
Lemma missing_user_type_error_witness :
  Auth.isAuthenticatedUser sample_verify (λ i, i) sample_findById
    (sample_request "Bearer gone") =
    Auth.Next {| Auth.authorization := Some (js "Bearer gone");
                 Auth.user := None |} ∧
  Auth.handlers
    [Auth.isAuthenticatedUser sample_verify (λ i, i) sample_findById;
     Auth.authorizeRoles (λ u, u) [js "user"]]
    (sample_request "Bearer gone") = Auth.Raise (inr TypeError).
Proof.
  apply (missing_user_type_error sample_verify (λ i, i) sample_findById
           (λ u, u) [js "user"] (sample_request "Bearer gone")
           (js "gone") (js "gone"));
    (reflexivity || discriminate).
Defined.

(** [logout] with a ['Basic'] header. *)
Lemma routes_ask_for_login_witness :
  Auth.handlers
    (Auth.middlewares sample_verify (λ i, i) sample_findById (λ u, u) Auth.logout)
    (sample_request "Basic YW5uOnB3") =
  Auth.NextError
    {| Auth.message := js "Login first to access this resource.";
       Auth.statusCode := 401 |}.
Proof.
  apply (routes_ask_for_login sample_verify (λ i, i) sample_findById (λ u, u)
           Auth.logout (sample_request "Basic YW5uOnB3")).
  - intros Hin. repeat (apply elem_of_cons in Hin as [Hin|Hin]; [discriminate Hin|]).
    by apply elem_of_nil in Hin.
  - left. reflexivity.
Defined.

(** The user [bob] on the route of [getUsers]. *)
Lemma admin_routes_refuse_schema_roles_witness :
  Auth.handlers
    (Auth.middlewares sample_verify (λ i, i) sample_findById (λ u, u) Auth.getUsers)
    (sample_request "Bearer bob") =
  Auth.NextError
    {| Auth.message := js "Role(user) is not allowed to access this resource.";
       Auth.statusCode := 403 |}.
Proof.
  apply (admin_routes_refuse_schema_roles sample_verify (λ i, i) sample_findById
           (λ u, u) Auth.getUsers (sample_request "Bearer bob")
           (js "bob") (js "bob") (js "user"));
    [apply list_elem_of_here | reflexivity | discriminate | reflexivity
    | reflexivity | by_eval].
Defined.

(** The user [bob] reaches [applyJob] and is refused on [newJob]. *)
Lemma applicant_and_publisher_routes_exclusive_witness :
  ∃ u,
    Some (js "user") = Some u ∧
    Auth.handlers
      (Auth.middlewares sample_verify (λ i, i) sample_findById (λ u, u) Auth.newJob)
      (sample_request "Bearer bob") =
    Auth.NextError
      {| Auth.message := js "Role(" ++ u
                         ++ js ") is not allowed to access this resource.";
         Auth.statusCode := 403 |}.
Proof.
  apply (proj1 (applicant_and_publisher_routes_exclusive sample_verify (λ i, i)
                  sample_findById (λ u, u) Auth.applyJob Auth.newJob
                  (sample_request "Bearer bob")
                  {| Auth.authorization := Some (js "Bearer bob");
                     Auth.user := Some (js "user") |}
                  ltac:(apply list_elem_of_here)
                  ltac:(apply list_elem_of_here))).
  reflexivity.
Defined.

(** [bob], [ann] and [eve] applied, in this order; removing [bob]'s
    application takes out [eve]'s. *)
Lemma remove_application_removes_last_witness :
  UserController.remove_application
    [application "bob" "bob_1.pdf"; application "ann" "ann_1.pdf";
     application "eve" "eve_1.pdf"] (js "bob") =
  Returns [application "bob" "bob_1.pdf"; application "ann" "ann_1.pdf"].
Proof.
  apply (remove_application_removes_last
           [application "bob" "bob_1.pdf"; application "ann" "ann_1.pdf"]
           (application "eve" "eve_1.pdf") (js "bob")).
  - repeat constructor; by eexists.
  - discriminate.
  - apply Exists_cons_hd. reflexivity.
Defined.
